(** * Particle dynamics of the sphere simulation

    A shallow embedding of the [Sphere] class (src/Sphere.js and its earlier
    draft src/unnamed/part_003), of [PhysicsEngine] (src/unnamed/part_000),
    of the driver that animates the engine (src/index.js) and of the meshes
    it draws (src/simpleModeling.js).

    Numbers.  JavaScript numbers are modelled by the real numbers: [+], [-],
    [*], [/] are the field operations, [Math.max] is [Rmax], [Math.abs] is
    [Rabs] and [Math.pow] with a positive base is [Rpower].  Rounding,
    overflow, signed zeros and NaN are outside this model.

    Arrays.  A gl-matrix [vec3] is a mutable three-element array.  The classes
    keep references to such arrays in their fields and update them in place,
    so the arrays live in a store ([heap]) and the fields hold references
    ([ref]).  Methods are programs of a state monad over the store and the
    receiver object ([this]). *)

From Stdlib Require Import Reals Lra Lia List Bool Arith ZArith.
From Stdlib Require String.
From Equations Require Import Equations.
Import ListNotations.
Import String.StringSyntax.
Delimit Scope string_scope with string.
Open Scope R_scope.

(** ** The store of arrays *)

Record vec : Type := mkvec { c0 : R; c1 : R; c2 : R }.

Definition ref : Type := nat.

Record heap : Type := mkheap { cell : ref -> vec; next : ref }.

Definition alloc (v : vec) (h : heap) : ref * heap :=
  (next h,
   mkheap (fun r => if Nat.eqb r (next h) then v else cell h r) (S (next h))).

Definition store (r : ref) (v : vec) (h : heap) : heap :=
  mkheap (fun r' => if Nat.eqb r' r then v else cell h r') (next h).

(** ** The monad of methods: state is the store and the receiver *)

Definition M (T A : Type) : Type := heap * T -> A * (heap * T).

Definition ret {T A} (a : A) : M T A := fun w => (a, w).

Definition bind {T A B} (m : M T A) (f : A -> M T B) : M T B :=
  fun w => let (a, w') := m w in f a w'.

Declare Scope js_scope.
Delimit Scope js_scope with js.
Notation "x <- m ;; k" := (bind m (fun x => k))
  (at level 61, m at next level, right associativity) : js_scope.
Notation "m ;; k" := (bind m (fun _ => k))
  (at level 61, right associativity) : js_scope.
Open Scope js_scope.

(** Read a field of the receiver, replace the receiver, and lift a store
    operation. *)
Definition this {T A} (f : T -> A) : M T A := fun w => (f (snd w), w).
Definition modify {T} (f : T -> T) : M T unit := fun w => (tt, (fst w, f (snd w))).
Definition onheap {T A} (f : heap -> A * heap) : M T A :=
  fun w => let (a, h) := f (fst w) in (a, (h, snd w)).

Definition exec {T A} (m : M T A) (w : heap * T) : heap * T := snd (m w).
Definition result {T A} (m : M T A) (w : heap * T) : A := fst (m w).

(** The array a reference points to in a world, and reading it in a method
    (the indexings [a[0]], [a[1]], [a[2]]). *)
Definition deref {T} (w : heap * T) (r : ref) : vec := cell (fst w) r.
Definition read {T} (a : ref) : M T vec := onheap (fun h => (cell h a, h)).

(** ** gl-matrix vectors *)

Module vec3.

(** Modelled from the spec: the sum of two vectors, component by component
    (the gl-matrix library the classes call is not among the sources). *)
Definition vadd (a b : vec) : vec := mkvec (c0 a + c0 b) (c1 a + c1 b) (c2 a + c2 b).

(** Modelled from the spec: the product of a vector [a] by a number [b]. *)
Definition vscale (a : vec) (b : R) : vec := mkvec (c0 a * b) (c1 a * b) (c2 a * b).

(** Modelled from the spec: the opposite vector. *)
Definition vnegate (a : vec) : vec := mkvec (- c0 a) (- c1 a) (- c2 a).

(** Modelled from the spec: the Euclidean length [|a|]. *)
Definition vlength (a : vec) : R := sqrt (c0 a * c0 a + c1 a * c1 a + c2 a * c2 a).

(** Modelled from the spec: the zero vector [vec3.create] returns. *)
Definition vzero : vec := mkvec 0 0 0.

(** Modelled from the spec: [normalize] gives the unit vector of [a].  The
    spec leaves the zero-length vector undefined; gl-matrix guards the
    division and leaves such a vector at zero. *)
Definition vnormalize (a : vec) : vec :=
  let len := c0 a * c0 a + c1 a * c1 a + c2 a * c2 a in
  if Rlt_dec 0 len then vscale a (1 / sqrt len) else vscale a 0.

(** Modelled from the spec: [vec3.create ()], a fresh array of zeros. *)
Definition create {T} : M T ref := onheap (alloc vzero).

(** Modelled from the spec: [vec3.clone (a)], a fresh copy of [a]. *)
Definition clone {T} (a : ref) : M T ref := onheap (fun h => alloc (cell h a) h).

(** Modelled from the spec: [vec3.fromValues (x, y, z)], a fresh array. *)
Definition fromValues {T} (x y z : R) : M T ref := onheap (alloc (mkvec x y z)).

(** Modelled from the spec: [vec3.length (a)]. *)
Definition length {T} (a : ref) : M T R := onheap (fun h => (vlength (cell h a), h)).

(** Modelled from the spec: [vec3.add (out, a, b)] writes the sum into the
    array [out] and returns it; [out] may be [a] or [b]. *)
Definition add {T} (out a b : ref) : M T ref :=
  onheap (fun h => (out, store out (vadd (cell h a) (cell h b)) h)).

(** Modelled from the spec: [vec3.scale (out, a, b)]. *)
Definition scale {T} (out a : ref) (b : R) : M T ref :=
  onheap (fun h => (out, store out (vscale (cell h a) b) h)).

(** Modelled from the spec: [vec3.negate (out, a)]. *)
Definition negate {T} (out a : ref) : M T ref :=
  onheap (fun h => (out, store out (vnegate (cell h a)) h)).

(** Modelled from the spec: [vec3.normalize (out, a)]. *)
Definition normalize {T} (out a : ref) : M T ref :=
  onheap (fun h => (out, store out (vnormalize (cell h a)) h)).

(** Modelled from the spec: [vec3.random (out, scale)] writes a random
    vector into [out].  The vector is drawn by an oracle, of which nothing
    is assumed. *)
Definition random {T} (oracle : R -> vec) (out : ref) (scale : R) : M T ref :=
  onheap (fun h => (out, store out (oracle scale) h)).

End vec3.

(** ** Bounding ranges (the object [createBoundingRange] builds) *)

Module Range.
Record t : Type := mk { min : R; max : R }.
End Range.

Module BoundingRange.
Record t : Type := mk { x : Range.t; y : Range.t; z : Range.t }.
End BoundingRange.

(** ** The class of src/Sphere.js *)

Module Sphere.

Record Sphere : Type := mkSphere {
  _radius : R;
  _position : ref;
  _velocity : ref;
  _speed : R;
  _color : ref;
  _mass : R
}.

Definition Method (A : Type) : Type := M Sphere A.

(** Accessors. *)
Definition get_radius : Method R := this _radius.
Definition set_radius (radius : R) : Method unit :=
  modify (fun s => mkSphere radius (_position s) (_velocity s) (_speed s) (_color s) (_mass s)).

Definition get_position : Method ref := this _position.
Definition set_position (position : ref) : Method unit :=
  modify (fun s => mkSphere (_radius s) position (_velocity s) (_speed s) (_color s) (_mass s)).

Definition get_speed : Method R := this _speed.
Definition set_speed (speed : R) : Method unit :=
  modify (fun s => mkSphere (_radius s) (_position s) (_velocity s)
                            (Rmax speed (- speed)) (_color s) (_mass s)).

Definition get_velocity : Method ref := this _velocity.
Definition set_velocity (velocity : ref) : Method unit :=
  modify (fun s => mkSphere (_radius s) (_position s) velocity (_speed s) (_color s) (_mass s)) ;;
  v <- get_velocity ;;
  len <- vec3.length v ;;
  set_speed len.

Definition get_color : Method ref := this _color.
Definition set_color (color : ref) : Method unit :=
  modify (fun s => mkSphere (_radius s) (_position s) (_velocity s) (_speed s) color (_mass s)).

Definition get_mass : Method R := this _mass.
Definition set_mass (mass : R) : Method unit :=
  modify (fun s => mkSphere (_radius s) (_position s) (_velocity s) (_speed s) (_color s) mass).

(** The draws of [Math.random] and [vec3.random] in the constructor. *)
Record Draws : Type := mkDraws {
  random_radius : R;
  random_speed : R;
  random_position : R -> vec;
  random_velocity : R -> vec;
  random_red : R;
  random_green : R;
  random_blue : R
}.

(** [constructor (radius, speed)]: [None] is an omitted argument, replaced
    by its default [Math.random() * 2], [Math.random() * 100]. *)
Definition constructor (d : Draws) (radius speed : option R) : Method unit :=
  let radius := match radius with Some r => r | None => random_radius d * 2 end in
  let speed := match speed with Some v => v | None => random_speed d * 100 end in
  set_radius radius ;;
  p <- vec3.create ;;
  set_position p ;;
  p <- get_position ;;
  r <- get_radius ;;
  p <- vec3.random (random_position d) p (10 - r) ;;
  set_position p ;;
  velocity <- vec3.create ;;
  v <- vec3.random (random_velocity d) velocity speed ;;
  set_velocity v ;;
  set_mass 1 ;;
  c <- vec3.fromValues (random_red d) (random_green d) (random_blue d) ;;
  set_color c.

Definition GRAVITY : R := -9.81.

Definition dragFactor (timeDelta : R) : Method R := ret (Rpower 0.9 timeDelta).

Definition gravityForce : Method ref :=
  m <- get_mass ;;
  vec3.fromValues 0 (GRAVITY * m) 0.

Definition acceleration : Method ref :=
  gravity <- gravityForce ;;
  m <- get_mass ;;
  vec3.scale gravity gravity (1 / m) ;;
  ret gravity.

Definition updateVelocity (timeDelta : R) : Method ref :=
  acceleration <- acceleration ;;
  vec3.scale acceleration acceleration timeDelta ;;
  velocity <- get_velocity ;;
  f <- dragFactor timeDelta ;;
  vec3.scale velocity velocity f ;;
  vec3.add velocity velocity acceleration ;;
  set_velocity velocity ;;
  get_velocity.

Definition updatePosition (timeDelta : R) : Method ref :=
  v <- updateVelocity timeDelta ;;
  velocity <- vec3.clone v ;;
  vec3.scale velocity velocity timeDelta ;;
  position <- get_position ;;
  vec3.add position position velocity ;;
  set_position position ;;
  get_position.

Definition createBoundingRange (minX maxX minY maxY minZ maxZ : R) : BoundingRange.t :=
  BoundingRange.mk (Range.mk minX maxX) (Range.mk minY maxY) (Range.mk minZ maxZ).

(** [handleCollisions (timeDelta, boundingRange)]: [None] is the omitted
    argument, replaced by the default box. *)
Definition handleCollisions (timeDelta : R) (boundingRange : option BoundingRange.t)
  : Method unit :=
  let boundingRange :=
    match boundingRange with
    | Some b => b
    | None => createBoundingRange (-10) 10 (-10) 10 (-10) 10
    end in
  p <- get_position ;;
  position <- read p ;;
  v <- get_velocity ;;
  velocity <- read v ;;
  radius <- get_radius ;;
  let '(x, y, z) := (c0 position, c1 position, c2 position) in
  let '(xVelocity, yVelocity, zVelocity) := (c0 velocity, c1 velocity, c2 velocity) in
  let xMin := Range.min (BoundingRange.x boundingRange) + radius in
  let xMax := Range.max (BoundingRange.x boundingRange) - radius in
  let yMin := Range.min (BoundingRange.y boundingRange) + radius in
  let yMax := Range.max (BoundingRange.y boundingRange) - radius in
  let zMin := Range.min (BoundingRange.z boundingRange) + radius in
  let zMax := Range.max (BoundingRange.z boundingRange) - radius in
  let '(x, xVelocity) :=
    if Rle_dec x xMin then (xMin, xVelocity * -1) else (x, xVelocity) in
  let '(x, xVelocity) :=
    if Rge_dec x xMax then (xMax, xVelocity * -1) else (x, xVelocity) in
  let '(y, yVelocity) :=
    if Rle_dec y yMin then (yMin, yVelocity * -1) else (y, yVelocity) in
  let '(y, yVelocity) :=
    if Rge_dec y yMax then (yMax, yVelocity * -1) else (y, yVelocity) in
  let '(z, zVelocity) :=
    if Rle_dec z zMin then (zMin, zVelocity * -1) else (z, zVelocity) in
  let '(z, zVelocity) :=
    if Rge_dec z zMax then (zMax, zVelocity * -1) else (z, zVelocity) in
  p' <- vec3.fromValues x y z ;;
  set_position p' ;;
  v' <- vec3.fromValues xVelocity yVelocity zVelocity ;;
  set_velocity v'.

Definition tick (timeDelta : R) : Method unit :=
  updatePosition timeDelta ;;
  handleCollisions timeDelta None.

End Sphere.

(** ** The class of src/unnamed/part_003, an earlier draft of [Sphere]

    The draft derives mass and colour from the radius, computes a drag force
    and caches the squares of radius and speed. *)

Module Draft.

Record Sphere : Type := mkSphere {
  _radius : R;
  radiusSq : R;
  _mass : R;
  _color : ref;
  _position : ref;
  _velocity : ref;
  _speed : R;
  speedSq : R
}.

Definition Method (A : Type) : Type := M Sphere A.

Definition get_color : Method ref := this _color.
Definition set_color (color : ref) : Method unit :=
  modify (fun s => mkSphere (_radius s) (radiusSq s) (_mass s) color
                            (_position s) (_velocity s) (_speed s) (speedSq s)).

Definition get_mass : Method R := this _mass.
Definition set_mass (mass : R) : Method unit :=
  modify (fun s => mkSphere (_radius s) (radiusSq s) mass (_color s)
                            (_position s) (_velocity s) (_speed s) (speedSq s)).

Definition get_radius : Method R := this _radius.
Definition set_radius (radius : R) : Method unit :=
  modify (fun s => mkSphere radius (radiusSq s) (_mass s) (_color s)
                            (_position s) (_velocity s) (_speed s) (speedSq s)) ;;
  r1 <- get_radius ;;
  r2 <- get_radius ;;
  modify (fun s => mkSphere (_radius s) (r1 * r2) (_mass s) (_color s)
                            (_position s) (_velocity s) (_speed s) (speedSq s)) ;;
  set_mass (radius * radius * 0.5) ;;
  m <- get_mass ;;
  let red := 255.0 * m in
  m <- get_mass ;;
  let green := 255.0 * (1.0 - Rabs (1.0 - 2.0 * m)) in
  m <- get_mass ;;
  let blue := 255.0 * (1.0 - m) in
  c <- vec3.fromValues red green blue ;;
  set_color c.

Definition get_position : Method ref := this _position.
Definition set_position (position : ref) : Method unit :=
  modify (fun s => mkSphere (_radius s) (radiusSq s) (_mass s) (_color s)
                            position (_velocity s) (_speed s) (speedSq s)).

Definition get_speed : Method R := this _speed.
Definition set_speed (speed : R) : Method unit :=
  modify (fun s => mkSphere (_radius s) (radiusSq s) (_mass s) (_color s)
                            (_position s) (_velocity s) (Rmax speed (- speed)) (speedSq s)) ;;
  s1 <- get_speed ;;
  s2 <- get_speed ;;
  modify (fun s => mkSphere (_radius s) (radiusSq s) (_mass s) (_color s)
                            (_position s) (_velocity s) (_speed s) (s1 * s2)).

Definition get_velocity : Method ref := this _velocity.
Definition set_velocity (velocity : ref) : Method unit :=
  modify (fun s => mkSphere (_radius s) (radiusSq s) (_mass s) (_color s)
                            (_position s) velocity (_speed s) (speedSq s)) ;;
  v <- get_velocity ;;
  len <- vec3.length v ;;
  set_speed len.

(** The draws of [vec3.random] in the constructor. *)
Record Draws : Type := mkDraws {
  random_radius : R;
  random_speed : R;
  random_position : R -> vec;
  random_velocity : R -> vec
}.

(** [constructor (radius, speed)]: [None] is an omitted argument, replaced
    by its default [Math.random()], [Math.random() * 200]. *)
Definition constructor (d : Draws) (radius speed : option R) : Method unit :=
  let radius := match radius with Some r => r | None => random_radius d end in
  let speed := match speed with Some v => v | None => random_speed d * 200 end in
  set_radius radius ;;
  set_speed speed ;;
  p <- vec3.create ;;
  set_position p ;;
  p <- get_position ;;
  r <- get_radius ;;
  vec3.random (random_position d) p (1 - r) ;;
  v <- vec3.create ;;
  set_velocity v ;;
  v <- get_velocity ;;
  vec3.random (random_velocity d) v speed ;;
  ret tt.

Definition HALFCDRHO : R := 0.90438598515.

Definition GRAVITY : R := 9.81.

Definition dragForce : Method ref :=
  sSq <- this speedSq ;;
  rSq <- this radiusSq ;;
  let force := HALFCDRHO * sSq * rSq in
  v <- get_velocity ;;
  direction <- vec3.clone v ;;
  vec3.normalize direction direction ;;
  vec3.negate direction direction ;;
  vec3.scale direction direction force ;;
  ret direction.

Definition gravityForce : Method ref :=
  m <- get_mass ;;
  vec3.fromValues 0 (-1 * GRAVITY * m) 0.

Definition acceleration : Method ref :=
  combinedForce <- vec3.create ;;
  gravity <- gravityForce ;;
  drag <- dragForce ;;
  vec3.add combinedForce gravity drag ;;
  m <- get_mass ;;
  vec3.scale combinedForce combinedForce (1.0 / m) ;;
  ret combinedForce.

Definition updateVelocity (timeDelta : R) : Method ref :=
  acceleration <- acceleration ;;
  vec3.scale acceleration acceleration timeDelta ;;
  velocity <- get_velocity ;;
  vec3.add velocity velocity acceleration ;;
  set_velocity velocity ;;
  get_velocity.

(** [velocity] is the very array the field [_velocity] refers to: scaling
    it in place changes the sphere's velocity. *)
Definition updatePosition (timeDelta : R) : Method ref :=
  velocity <- updateVelocity timeDelta ;;
  vec3.scale velocity velocity timeDelta ;;
  position <- get_position ;;
  vec3.add position position velocity ;;
  set_position position ;;
  get_position.

Definition createBoundingRange (minX maxX minY maxY minZ maxZ : R) : BoundingRange.t :=
  BoundingRange.mk (Range.mk minX maxX) (Range.mk minY maxY) (Range.mk minZ maxZ).

Definition handleCollisions (timeDelta : R) (boundingRange : option BoundingRange.t)
  : Method unit :=
  let boundingRange :=
    match boundingRange with
    | Some b => b
    | None => createBoundingRange (-10) 10 (-10) 10 (-10) 10
    end in
  p <- get_position ;;
  position <- read p ;;
  let '(x, y, z) := (c0 position, c1 position, c2 position) in
  v <- get_velocity ;;
  velocity <- read v ;;
  let '(xVelocity, yVelocity, zVelocity) := (c0 velocity, c1 velocity, c2 velocity) in
  radius <- get_radius ;;
  let xMin := Range.min (BoundingRange.x boundingRange) + radius in
  let xMax := Range.max (BoundingRange.x boundingRange) - radius in
  let yMin := Range.min (BoundingRange.y boundingRange) + radius in
  let yMax := Range.max (BoundingRange.y boundingRange) - radius in
  let zMin := Range.min (BoundingRange.z boundingRange) + radius in
  let zMax := Range.max (BoundingRange.z boundingRange) - radius in
  let '(x, xVelocity) :=
    if Rlt_dec x xMin then (xMin, xVelocity * -1) else (x, xVelocity) in
  let '(x, xVelocity) :=
    if Rgt_dec x xMax then (xMax, xVelocity * -1) else (x, xVelocity) in
  let '(y, yVelocity) :=
    if Rlt_dec y yMin then (yMin, yVelocity * -3) else (y, yVelocity) in
  let '(y, yVelocity) :=
    if Rgt_dec y yMax then (yMax, yVelocity * -1) else (y, yVelocity) in
  let '(z, zVelocity) :=
    if Rlt_dec z zMin then (zMin, zVelocity * -1) else (z, zVelocity) in
  let '(z, zVelocity) :=
    if Rgt_dec z zMax then (zMax, zVelocity * -1) else (z, zVelocity) in
  p' <- vec3.fromValues x y z ;;
  set_position p' ;;
  v' <- vec3.fromValues xVelocity yVelocity zVelocity ;;
  set_velocity v'.

Definition tick (timeDelta : R) : Method unit :=
  updatePosition timeDelta ;;
  handleCollisions timeDelta None.

End Draft.

(** ** The class of src/unnamed/part_000

    Spheres are objects: the engine's list holds references to them, and the
    sphere objects live in a store of their own next to the arrays. *)

Module PhysicsEngine.

Definition oref : Type := nat.

Record State : Type := mkState {
  spheres : oref -> Sphere.Sphere;
  next_sphere : oref;
  _sphereList : list oref
}.

Definition Method (A : Type) : Type := M State A.

Definition get_sphereList : Method (list oref) := this _sphereList.
Definition set_sphereList (l : list oref) : Method unit :=
  modify (fun e => mkState (spheres e) (next_sphere e) l).

Definition constructor : Method unit := set_sphereList [].

(** Run a method of [Sphere] on the object [o]. *)
Definition call {A} (o : oref) (m : Sphere.Method A) : Method A :=
  fun w =>
    let '(h, e) := w in
    let '(a, (h', s')) := m (h, spheres e o) in
    (a, (h', mkState (fun o' => if Nat.eqb o' o then s' else spheres e o')
                     (next_sphere e) (_sphereList e))).

(** [new Sphere (radius, speed)]: a fresh object, then its constructor. *)
Definition new_Sphere (d : Sphere.Draws) (radius speed : option R) : Method oref :=
  o <- this next_sphere ;;
  modify (fun e => mkState (spheres e) (S (next_sphere e)) (_sphereList e)) ;;
  call o (Sphere.constructor d radius speed) ;;
  ret o.

(** [addSphere (toAdd)]: [None] is the omitted argument, replaced by the
    default [new Sphere()]; [push] appends to the list. *)
Definition addSphere (d : Sphere.Draws) (toAdd : option oref) : Method unit :=
  toAdd <- match toAdd with
           | Some o => ret o
           | None => new_Sphere d None None
           end ;;
  l <- get_sphereList ;;
  set_sphereList (l ++ [toAdd]).

Definition resetSpheres : Method unit := set_sphereList [].

Fixpoint forEach {A} (l : list A) (f : A -> Method unit) : Method unit :=
  match l with
  | [] => ret tt
  | a :: l' => f a ;; forEach l' f
  end.

Definition tick (timeDelta : R) : Method unit :=
  l <- get_sphereList ;;
  forEach l (fun sphere => call sphere (Sphere.tick timeDelta)).

End PhysicsEngine.

(** * Vocabulary of the statements *)

(** The three axes, and the component of an array on an axis. *)
Inductive axis : Type := X | Y | Z.

Definition coord (a : axis) (v : vec) : R :=
  match a with X => c0 v | Y => c1 v | Z => c2 v end.

(** The bounds of a box on an axis, and the default box of [handleCollisions]. *)
Definition range (a : axis) (b : BoundingRange.t) : Range.t :=
  match a with X => BoundingRange.x b | Y => BoundingRange.y b | Z => BoundingRange.z b end.

Definition default_box : BoundingRange.t :=
  BoundingRange.mk (Range.mk (-10) 10) (Range.mk (-10) 10) (Range.mk (-10) 10).

Definition box_of (boundingRange : option BoundingRange.t) : BoundingRange.t :=
  match boundingRange with Some b => b | None => default_box end.

(** How a call completes: the sources have no [throw], so the methods of the
    monad [M] always complete normally. *)
Inductive Error : Type := InvalidParameter.

Inductive Completion (T A : Type) : Type :=
| Normal (a : A) (w : heap * T)
| Throw (e : Error).
Arguments Normal {T A} a w.
Arguments Throw {T A} e.

Definition complete {T A} (m : M T A) (w : heap * T) : Completion T A :=
  Normal (result m w) (exec m w).

Module SphereSpec.
Import Sphere.

(** The references of a sphere point to allocated arrays, and position and
    velocity are different arrays. *)
Definition wf (w : heap * Sphere) : Prop :=
  (_position (snd w) < next (fst w))%nat /\
  (_velocity (snd w) < next (fst w))%nat /\
  _position (snd w) <> _velocity (snd w).

(** The arrays and cached numbers of a sphere in a world. *)
Definition position (w : heap * Sphere) : vec := deref w (_position (snd w)).
Definition velocity (w : heap * Sphere) : vec := deref w (_velocity (snd w)).
Definition color (w : heap * Sphere) : vec := deref w (_color (snd w)).
Definition radius (w : heap * Sphere) : R := _radius (snd w).
Definition mass (w : heap * Sphere) : R := _mass (snd w).
Definition speed (w : heap * Sphere) : R := _speed (snd w).

(** The two tests of [handleCollisions] on one axis: the position and the
    velocity component they leave. *)
Definition reflect (lo hi x v : R) : R * R :=
  let '(x, v) := if Rle_dec x lo then (lo, v * -1) else (x, v) in
  if Rge_dec x hi then (hi, v * -1) else (x, v).

(** The velocity [updateVelocity] leaves: damped by [0.9 ^ dt], then
    accelerated by gravity. *)
Definition new_velocity (v : vec) (m dt : R) : vec :=
  vec3.vadd (vec3.vscale v (Rpower 0.9 dt))
            (vec3.vscale (vec3.vscale (mkvec 0 (GRAVITY * m) 0) (1 / m)) dt).

(** A world with one sphere: arrays 0, 1, 2 hold position, velocity and
    colour. *)
Definition world (r m : R) (p v : vec) : heap * Sphere :=
  (mkheap (fun a => match a with O => p | S O => v | _ => vec3.vzero end) 3%nat,
   mkSphere r 0%nat 1%nat (vec3.vlength v) 2%nat m).

(** Draws for a constructor call whose random values do not matter. *)
Definition draws : Draws :=
  mkDraws 0 0 (fun _ => vec3.vzero) (fun _ => vec3.vzero) 0 0 0.

End SphereSpec.

Module DraftSpec.
Import Draft.

Definition wf (w : heap * Sphere) : Prop :=
  (_position (snd w) < next (fst w))%nat /\
  (_velocity (snd w) < next (fst w))%nat /\
  _position (snd w) <> _velocity (snd w).

(** The caches of the squares agree with the numbers they cache. *)
Definition cached (s : Sphere) : Prop :=
  radiusSq s = _radius s * _radius s /\ speedSq s = _speed s * _speed s.

Definition position (w : heap * Sphere) : vec := deref w (_position (snd w)).
Definition velocity (w : heap * Sphere) : vec := deref w (_velocity (snd w)).
Definition color (w : heap * Sphere) : vec := deref w (_color (snd w)).
Definition radius (w : heap * Sphere) : R := _radius (snd w).
Definition mass (w : heap * Sphere) : R := _mass (snd w).
Definition speed (w : heap * Sphere) : R := _speed (snd w).

(** The strict tests of the draft's [handleCollisions] on one axis, with
    the factor [k] of the first test. *)
Definition reflect (k lo hi x v : R) : R * R :=
  let '(x, v) := if Rlt_dec x lo then (lo, v * k) else (x, v) in
  if Rgt_dec x hi then (hi, v * -1) else (x, v).

(** The force of drag of the spec: [-k speed^2 radius^2 normalize (velocity)]. *)
Definition drag (k speed radius : R) (velocity : vec) : vec :=
  vec3.vscale (vec3.vnormalize velocity) (- (k * (speed * speed) * (radius * radius))).

(** The acceleration of the draft: [(gravity + drag) / mass]. *)
Definition acceleration_of (w : heap * Sphere) : vec :=
  vec3.vscale
    (vec3.vadd (mkvec 0 (-1 * GRAVITY * mass w) 0)
               (drag HALFCDRHO (speed w) (radius w) (velocity w)))
    (1.0 / mass w).

(** The acceleration [acceleration] computes, in terms of the cached squares. *)
Definition raw_acceleration (h : heap) (s : Sphere) : vec :=
  vec3.vscale
    (vec3.vadd (mkvec 0 (-1 * GRAVITY * _mass s) 0)
               (vec3.vscale (vec3.vnegate (vec3.vnormalize (cell h (_velocity s))))
                            (HALFCDRHO * speedSq s * radiusSq s)))
    (1.0 / _mass s).

(** A world with one sphere of the draft: arrays 0, 1, 2 hold colour,
    position and velocity; the cached speed is [sp]. *)
Definition world (r sp : R) (p v : vec) : heap * Sphere :=
  (mkheap (fun a => match a with S O => p | S (S O) => v | _ => vec3.vzero end) 3%nat,
   mkSphere r (r * r) (r * r * 0.5) 0%nat 1%nat 2%nat sp (sp * sp)).

Definition draws : Draws :=
  mkDraws 0 0 (fun _ => vec3.vzero) (fun _ => vec3.vzero).

End DraftSpec.

(** The semi-implicit Euler step of the spec with a drag force of constant
    [k]: the velocity it computes from velocity [v], mass [m], radius [r]
    and gravity [g]. *)
Definition euler_velocity (k g : R) (v : vec) (m r dt : R) : vec :=
  vec3.vadd v
    (vec3.vscale
       (vec3.vscale (vec3.vadd (mkvec 0 (g * m) 0) (DraftSpec.drag k (vec3.vlength v) r v))
                    (1 / m))
       dt).

(** ** Vocabulary of the further properties *)

(** The scalar product of two vectors. *)
Definition dot (a b : vec) : R := c0 a * c0 b + c1 a * c1 b + c2 a * c2 b.

Module SphereSummary.
Import Sphere SphereSpec.

(** What [updatePosition] leaves in the arrays of velocity and position. *)
Definition integrated_velocity (w : heap * Sphere) (dt : R) : vec :=
  new_velocity (velocity w) (mass w) dt.

Definition integrated_position (w : heap * Sphere) (dt : R) : vec :=
  vec3.vadd (position w) (vec3.vscale (integrated_velocity w dt) dt).

(** The three axes of [handleCollisions] with the default box, on a position
    [p] and a velocity [v] of a sphere of radius [r]. *)
Definition reflected_position (r : R) (p v : vec) : vec :=
  mkvec (fst (reflect (-10 + r) (10 - r) (c0 p) (c0 v)))
        (fst (reflect (-10 + r) (10 - r) (c1 p) (c1 v)))
        (fst (reflect (-10 + r) (10 - r) (c2 p) (c2 v))).

Definition reflected_velocity (r : R) (p v : vec) : vec :=
  mkvec (snd (reflect (-10 + r) (10 - r) (c0 p) (c0 v)))
        (snd (reflect (-10 + r) (10 - r) (c1 p) (c1 v)))
        (snd (reflect (-10 + r) (10 - r) (c2 p) (c2 v))).

(** The arrays and fields a sphere owns are those of another world. *)
Definition same_sphere (w w' : heap * Sphere) : Prop :=
  position w' = position w /\ velocity w' = velocity w /\
  radius w' = radius w /\ mass w' = mass w /\ speed w' = speed w.

End SphereSummary.

(** The spheres of an engine. *)
Module EngineSpec.
Import PhysicsEngine.

(** The sphere object [o] of an engine, with the store of arrays. *)
Definition sphere_at (w : heap * State) (o : oref) : heap * Sphere.Sphere :=
  (fst w, spheres (snd w) o).

(** Two spheres share no array of position or velocity. *)
Definition apart (s t : Sphere.Sphere) : Prop :=
  Sphere._position s <> Sphere._position t /\
  Sphere._position s <> Sphere._velocity t /\
  Sphere._velocity s <> Sphere._position t /\
  Sphere._velocity s <> Sphere._velocity t.

(** The spheres of the list [l] are different objects, and each has two
    allocated arrays of its own for position and velocity. *)
Definition separate (h : heap) (e : State) (l : list oref) : Prop :=
  NoDup l /\
  (forall o, In o l -> SphereSpec.wf (h, spheres e o)) /\
  (forall o o', In o l -> In o' l -> o <> o' -> apart (spheres e o) (spheres e o')).

(** The list of an engine holds separate spheres, all of them objects that
    have been created. *)
Definition sound (w : heap * State) : Prop :=
  separate (fst w) (snd w) (_sphereList (snd w)) /\
  (forall o, In o (_sphereList (snd w)) -> (o < next_sphere (snd w))%nat).

(** [n] ticks of a sphere, one after the other. *)
Fixpoint ticks (n : nat) (timeDelta : R) : Sphere.Method unit :=
  match n with
  | O => ret tt
  | S n' => Sphere.tick timeDelta ;; ticks n' timeDelta
  end.

(** An engine with two spheres of radius and mass 1: arrays 0 and 1 hold
    position and velocity of the first, arrays 2 and 3 those of the second,
    arrays 4 and 5 the colours. *)
Definition two_spheres (p1 v1 p2 v2 : vec) : heap * State :=
  (mkheap (fun a => match a with
                    | 0%nat => p1 | 1%nat => v1 | 2%nat => p2 | 3%nat => v2
                    | _ => vec3.vzero
                    end) 6%nat,
   mkState (fun o => match o with
                     | O => Sphere.mkSphere 1 0%nat 1%nat (vec3.vlength v1) 4%nat 1
                     | _ => Sphere.mkSphere 1 2%nat 3%nat (vec3.vlength v2) 5%nat 1
                     end)
           2%nat [0%nat; 1%nat]).

(** An engine whose list holds the sphere [s] twice. *)
Definition twice (h : heap) (s : Sphere.Sphere) : heap * State :=
  (h, mkState (fun _ => s) 1%nat [0%nat; 0%nat]).

End EngineSpec.

(** ** The driver of src/index.js

    The global variables of the script are the fields of [Globals]; the
    functions are programs over the store of [vec3] arrays and the
    globals.  A [mat4] is an array of numbers; the script keeps references
    to such arrays, which live in a store of their own ([matrices]). *)

Module Index.

Definition mat4 : Type := list R.
Definition mref : Type := nat.

Record Event : Type := mkEvent { keyCode : BinNums.Z }.

(** The global variables the functions below use; [then_] is the variable
    [then]. *)
Record Globals : Type := mkGlobals {
  now : R;
  then_ : R;
  mvMatrix : mref;
  mvMatrixStack : list mref;
  matrices : mref -> mat4;
  next_matrix : mref;
  currentlyPressedKeys : BinNums.Z -> option bool;
  physics : PhysicsEngine.State
}.

Definition Program (A : Type) : Type := M Globals A.

(** Assignments to the global variables. *)
Definition set_now (v : R) : Program unit :=
  modify (fun g => mkGlobals v (then_ g) (mvMatrix g) (mvMatrixStack g) (matrices g)
                             (next_matrix g) (currentlyPressedKeys g) (physics g)).
Definition set_then (v : R) : Program unit :=
  modify (fun g => mkGlobals (now g) v (mvMatrix g) (mvMatrixStack g) (matrices g)
                             (next_matrix g) (currentlyPressedKeys g) (physics g)).
Definition set_mvMatrix (m : mref) : Program unit :=
  modify (fun g => mkGlobals (now g) (then_ g) m (mvMatrixStack g) (matrices g)
                             (next_matrix g) (currentlyPressedKeys g) (physics g)).
Definition set_mvMatrixStack (l : list mref) : Program unit :=
  modify (fun g => mkGlobals (now g) (then_ g) (mvMatrix g) l (matrices g)
                             (next_matrix g) (currentlyPressedKeys g) (physics g)).
Definition set_pressed (k : BinNums.Z) (b : bool) : Program unit :=
  modify (fun g => mkGlobals (now g) (then_ g) (mvMatrix g) (mvMatrixStack g) (matrices g)
                             (next_matrix g)
                             (fun k' => if Z.eqb k' k then Some b else currentlyPressedKeys g k')
                             (physics g)).

(** A new array of the store of matrices, and writing an array in place
    (as [mat4.lookAt (mvMatrix, ...)] and [mat4.scale (mvMatrix, mvMatrix, ...)]
    of [draw] do). *)
Definition new_matrix (m : mat4) : Program mref :=
  r <- this next_matrix ;;
  modify (fun g => mkGlobals (now g) (then_ g) (mvMatrix g) (mvMatrixStack g)
                             (fun r' => if Nat.eqb r' r then m else matrices g r')
                             (S r) (currentlyPressedKeys g) (physics g)) ;;
  ret r.
Definition write_matrix (r : mref) (m : mat4) : Program unit :=
  modify (fun g => mkGlobals (now g) (then_ g) (mvMatrix g) (mvMatrixStack g)
                             (fun r' => if Nat.eqb r' r then m else matrices g r')
                             (next_matrix g) (currentlyPressedKeys g) (physics g)).

(** Run a method of the engine [physics]. *)
Definition on_physics {A} (m : PhysicsEngine.Method A) : Program A :=
  fun w =>
    let '(h, g) := w in
    let '(a, (h', e')) := m (h, physics g) in
    (a, (h', mkGlobals (now g) (then_ g) (mvMatrix g) (mvMatrixStack g) (matrices g)
                       (next_matrix g) (currentlyPressedKeys g) e')).

(** How a call ends: it returns, or it throws an [Error] with a message. *)
Inductive Outcome (A : Type) : Type :=
| Returned (a : A) (w : heap * Globals)
| Thrown (message : String.string) (w : heap * Globals).
Arguments Returned {A} a w.
Arguments Thrown {A} message w.

(** [Array.prototype.push] and [pop]: the end of the list is the top. *)
Definition push {A} (l : list A) (x : A) : list A := l ++ [x].
Definition pop {A} (l : list A) : option A * list A :=
  (List.last (List.map Some l) None, List.removelast l).

Section Matrices.

(** [mat4.clone] belongs to gl-matrix, which is not among the sources: it
    returns a new array, whose contents are given by the parameter [clone]. *)
Variable clone : mat4 -> mat4.

Definition mat4_clone (a : mref) : Program mref :=
  m <- this matrices ;;
  new_matrix (clone (m a)).

Definition mvPushMatrix : Program unit :=
  m <- this mvMatrix ;;
  copy <- mat4_clone m ;;
  l <- this mvMatrixStack ;;
  set_mvMatrixStack (push l copy).

End Matrices.

(** Past the test of the length the stack is not empty, and [pop] gives
    its last element. *)
Definition mvPopMatrix (w : heap * Globals) : Outcome unit :=
  if Nat.eqb (List.length (mvMatrixStack (snd w))) 0 then
    Thrown "Invalid popMatrix!"%string w
  else
    match pop (mvMatrixStack (snd w)) with
    | (Some m, rest) => Returned tt (exec (set_mvMatrixStack rest ;; set_mvMatrix m) w)
    | (None, rest) => Returned tt (exec (set_mvMatrixStack rest) w)
    end.

Definition degToRad (degrees : R) : R := degrees * PI / 180.

Definition reset : Program unit := on_physics PhysicsEngine.resetSpheres.

Definition handleKeyDown (event : Event) : Program unit :=
  set_pressed (keyCode event) true.

(** [d] holds the random draws of the sphere [addSphere ()] constructs. *)
Definition handleKeyUp (d : Sphere.Draws) (event : Event) : Program unit :=
  if Z.eqb (keyCode event) 32 then on_physics (PhysicsEngine.addSphere d None)
  else ret tt.

Definition handleKeys : Program unit := ret tt.

(** [animate ()]: [clock] is what [Date.now ()] returns, in milliseconds;
    each call reads the clock once. *)
Definition animate (clock : R) : Program unit :=
  t <- this then_ ;;
  if Req_dec_T t 0 then
    set_then clock
  else
    set_now clock ;;
    n <- this now ;;
    set_now (n * 0.001) ;;
    handleKeys ;;
    n <- this now ;;
    t <- this then_ ;;
    on_physics (PhysicsEngine.tick (n - t)) ;;
    n <- this now ;;
    set_then n.

(** [startup ()] creates the engine: [physics = new PhysicsEngine ()]. *)
Definition new_PhysicsEngine : Program unit := on_physics PhysicsEngine.constructor.

End Index.

(** The events of the keyboard, and the frames of the animation. *)
Module IndexSpec.
Import Index.

Inductive Key : Type :=
| KeyDown (event : Event)
| KeyUp (d : Sphere.Draws) (event : Event).

Definition handle (k : Key) : Program unit :=
  match k with
  | KeyDown event => handleKeyDown event
  | KeyUp d event => handleKeyUp d event
  end.

Fixpoint handle_all (l : list Key) : Program unit :=
  match l with
  | [] => ret tt
  | k :: l' => handle k ;; handle_all l'
  end.

(** The releases of the space bar among the events. *)
Fixpoint space_releases (l : list Key) : nat :=
  match l with
  | [] => O
  | KeyUp _ event :: l' =>
      if Z.eqb (keyCode event) 32 then S (space_releases l') else space_releases l'
  | KeyDown _ :: l' => space_releases l'
  end.

Definition count (w : heap * Globals) : nat :=
  List.length (PhysicsEngine._sphereList (physics (snd w))).

(** The engine of the script, with the store of arrays. *)
Definition engine (w : heap * Globals) : heap * PhysicsEngine.State :=
  (fst w, physics (snd w)).

(** Globals at the start of the script, with the matrix [m] as array 0. *)
Definition initial (clock : R) (m : mat4) (e : PhysicsEngine.State) : heap * Globals :=
  (mkheap (fun _ => vec3.vzero) 0%nat,
   mkGlobals clock 0 0%nat [] (fun _ => m) 1%nat (fun _ => None) e).

End IndexSpec.

(** ** The meshes of src/simpleModeling.js

    The arrays of vertices, normals and faces are JavaScript arrays that
    only grow by [push]: they are lists, with the last element at the end.
    A function that pushes to an array it is given returns the array it
    leaves, next to its own result.  Counters and array indices are
    integers. *)

Module Modeling.

Record vec4 : Type := mkvec4 { v0 : R; v1 : R; v2 : R; v3 : R }.

(** [v[i]], for the indices 0 to 3 of a [vec4]. *)
Definition at_index (v : vec4) (i : BinNums.Z) : R :=
  if Z.eqb i 0 then v0 v else if Z.eqb i 1 then v1 v else if Z.eqb i 2 then v2 v else v3 v.

(** [for (let i = start; i < stop; i++) body]: the body runs for
    [i = start, start + 1, ...] as long as [i < stop]. *)
Fixpoint for_from {S : Type} (trips : nat) (i : BinNums.Z) (body : BinNums.Z -> S -> S) (s : S) : S :=
  match trips with
  | O => s
  | Datatypes.S trips' => for_from trips' (i + 1)%Z body (body i s)
  end.

Definition for_loop {S : Type} (start stop : BinNums.Z) (body : BinNums.Z -> S -> S) (s : S) : S :=
  for_from (Z.to_nat (stop - start)) start body s.

(** The loops [for (let i = 0; i <= n; i++)] run while [i < n + 1]. *)
Definition planeFromIteration (n : BinNums.Z) (minX maxX minY maxY : R)
    (vertexArray : list R) (faceArray : list BinNums.Z) : list R * list BinNums.Z :=
  let deltaX := (maxX - minX) / IZR n in
  let deltaY := (maxY - minY) / IZR n in
  let vertexArray :=
    for_loop 0 (n + 1) (fun i vertexArray =>
      for_loop 0 (n + 1) (fun j vertexArray =>
        let vertexArray := vertexArray ++ [minX + deltaX * IZR j] in
        let vertexArray := vertexArray ++ [maxY - deltaY * IZR i] in
        vertexArray ++ [0]) vertexArray) vertexArray in
  let faceArray :=
    for_loop 0 n (fun i faceArray =>
      for_loop 0 n (fun j faceArray =>
        let vid := (i * (n + 1) + j)%Z in
        let faceArray := faceArray ++ [vid] in
        let faceArray := faceArray ++ [(vid + (n + 1))%Z] in
        let faceArray := faceArray ++ [(vid + 1)%Z] in
        let faceArray := faceArray ++ [(vid + 1)%Z] in
        let faceArray := faceArray ++ [(vid + (n + 1))%Z] in
        faceArray ++ [((vid + 1) + (n + 1))%Z]) faceArray) faceArray in
  (vertexArray, faceArray).

Definition pushVertex (v : vec4) (vArray : list R) : list R :=
  for_loop 0 3 (fun i vArray => vArray ++ [at_index v i]) vArray.

Section Subdivision.

(** [vec4.lerp] and [vec4.normalize] belong to gl-matrix, which is not
    among the sources.  They are parameters: [lerp a b t] is what
    [vec4.lerp (out, a, b, t)] writes into a new array [out], and
    [normalize a] what [vec4.normalize (out, a)] writes; both only read
    their other arguments. *)
Variable lerp : vec4 -> vec4 -> R -> vec4.
Variable normalize : vec4 -> vec4.

Equations divideTriangle (a b c : vec4) (numSubDivs : BinNums.Z) (vertexArray : list R)
  : BinNums.Z * list R by wf (Z.to_nat numSubDivs) lt :=
divideTriangle a b c numSubDivs vertexArray with Z_gt_dec numSubDivs 0 := {
  | left _ =>
      let numT := 0%Z in
      let ab := lerp a b 0.5 in
      let ac := lerp a c 0.5 in
      let bc := lerp b c 0.5 in
      let r1 := divideTriangle a ab ac (numSubDivs - 1) vertexArray in
      let numT := (numT + fst r1)%Z in
      let r2 := divideTriangle ab b bc (numSubDivs - 1) (snd r1) in
      let numT := (numT + fst r2)%Z in
      let r3 := divideTriangle bc c ac (numSubDivs - 1) (snd r2) in
      let numT := (numT + fst r3)%Z in
      let r4 := divideTriangle ab bc ac (numSubDivs - 1) (snd r3) in
      let numT := (numT + fst r4)%Z in
      (numT, snd r4)
  | right _ =>
      let vertexArray := pushVertex a vertexArray in
      let vertexArray := pushVertex b vertexArray in
      let vertexArray := pushVertex c vertexArray in
      (1%Z, vertexArray)
}.
Next Obligation. lia. Qed.
Next Obligation. lia. Qed.
Next Obligation. lia. Qed.
Next Obligation. lia. Qed.

Definition planeFromSubdivision (n : BinNums.Z) (minX maxX minY maxY : R)
    (vertexArray : list R) : BinNums.Z * list R :=
  let numT := 0%Z in
  let va := mkvec4 minX minY 0 0 in
  let vb := mkvec4 maxX minY 0 0 in
  let vc := mkvec4 maxX maxY 0 0 in
  let vd := mkvec4 minX maxY 0 0 in
  let r1 := divideTriangle va vb vd n vertexArray in
  let numT := (numT + fst r1)%Z in
  let r2 := divideTriangle vb vc vd n (snd r1) in
  let numT := (numT + fst r2)%Z in
  (numT, snd r2).

(** [sphDivideTriangle] returns the number of triangles with the arrays of
    vertices and of normals it leaves. *)
Equations sphDivideTriangle (a b c : vec4) (numSubDivs : BinNums.Z)
    (vertexArray normalArray : list R)
  : BinNums.Z * (list R * list R) by wf (Z.to_nat numSubDivs) lt :=
sphDivideTriangle a b c numSubDivs vertexArray normalArray with Z_gt_dec numSubDivs 0 := {
  | left _ =>
      let numT := 0%Z in
      let ab := lerp a b 0.5 in
      let ab := normalize ab in
      let ac := lerp a c 0.5 in
      let ac := normalize ac in
      let bc := lerp b c 0.5 in
      let bc := normalize bc in
      let r1 := sphDivideTriangle a ab ac (numSubDivs - 1) vertexArray normalArray in
      let numT := (numT + fst r1)%Z in
      let r2 := sphDivideTriangle ab b bc (numSubDivs - 1) (fst (snd r1)) (snd (snd r1)) in
      let numT := (numT + fst r2)%Z in
      let r3 := sphDivideTriangle bc c ac (numSubDivs - 1) (fst (snd r2)) (snd (snd r2)) in
      let numT := (numT + fst r3)%Z in
      let r4 := sphDivideTriangle ab bc ac (numSubDivs - 1) (fst (snd r3)) (snd (snd r3)) in
      let numT := (numT + fst r4)%Z in
      (numT, snd r4)
  | right _ =>
      let vertexArray := pushVertex a vertexArray in
      let vertexArray := pushVertex b vertexArray in
      let vertexArray := pushVertex c vertexArray in
      let normalArray := pushVertex a normalArray in
      let normalArray := pushVertex b normalArray in
      let normalArray := pushVertex c normalArray in
      (1%Z, (vertexArray, normalArray))
}.
Next Obligation. lia. Qed.
Next Obligation. lia. Qed.
Next Obligation. lia. Qed.
Next Obligation. lia. Qed.

Definition sphereFromSubdivision (numSubDivs : BinNums.Z) (vertexArray normalArray : list R)
  : BinNums.Z * (list R * list R) :=
  let numT := 0%Z in
  let a := mkvec4 0.0 0.0 (-1.0) 0 in
  let b := mkvec4 0.0 0.942809 0.333333 0 in
  let c := mkvec4 (-0.816497) (-0.471405) 0.333333 0 in
  let d := mkvec4 0.816497 (-0.471405) 0.333333 0 in
  let r1 := sphDivideTriangle a b c numSubDivs vertexArray normalArray in
  let numT := (numT + fst r1)%Z in
  let r2 := sphDivideTriangle d c b numSubDivs (fst (snd r1)) (snd (snd r1)) in
  let numT := (numT + fst r2)%Z in
  let r3 := sphDivideTriangle a d b numSubDivs (fst (snd r2)) (snd (snd r2)) in
  let numT := (numT + fst r3)%Z in
  let r4 := sphDivideTriangle a c d numSubDivs (fst (snd r3)) (snd (snd r3)) in
  let numT := (numT + fst r4)%Z in
  (numT, snd r4).

(** The part of [setupSphereBuffers] of src/index.js that fixes the sizes:
    the numbers given to [gl.bufferData] and the fields [itemSize] and
    [numItems] of the two buffers. *)
Record Buffer : Type := mkBuffer {
  data : list R;
  itemSize : BinNums.Z;
  numItems : BinNums.Z
}.

Definition setupSphereBuffers : Buffer * Buffer :=
  let sphereSoup := [] in
  let sphereNormals := [] in
  let r := sphereFromSubdivision 6 sphereSoup sphereNormals in
  let numT := fst r in
  let sphereSoup := fst (snd r) in
  let sphereNormals := snd (snd r) in
  (mkBuffer sphereSoup 3 (numT * 3), mkBuffer sphereNormals 3 (numT * 3)).

End Subdivision.
End Modeling.

(** * Proofs *)

(** ** Running methods *)

Ltac run_monad :=
  cbv [exec result deref bind ret read onheap this modify alloc store fst snd
       cell next complete
       vec3.create vec3.clone vec3.fromValues vec3.length vec3.add vec3.scale
       vec3.negate vec3.normalize vec3.random].

Ltac eqb_simpl :=
  repeat match goal with
  | |- context [Nat.eqb ?a ?a] => rewrite (Nat.eqb_refl a)
  | |- context [Nat.eqb ?a ?b] =>
      let E := fresh in
      assert (E : Nat.eqb a b = false) by (apply Nat.eqb_neq; lia);
      rewrite E; clear E
  end; cbv beta iota.

Ltac split_tests :=
  repeat match goal with
  | |- context [Rle_dec ?a ?b] => destruct (Rle_dec a b); cbv beta iota
  | |- context [Rge_dec ?a ?b] => destruct (Rge_dec a b); cbv beta iota
  | |- context [Rlt_dec ?a ?b] => destruct (Rlt_dec a b); cbv beta iota
  | |- context [Rgt_dec ?a ?b] => destruct (Rgt_dec a b); cbv beta iota
  end.

Lemma exec_bind {T A B} (m : M T A) (f : A -> M T B) (w : heap * T) :
  exec (bind m f) w = exec (f (result m w)) (exec m w).
Proof. unfold exec, result, bind. destruct (m w); reflexivity. Qed.

Lemma vec_eq (a b : vec) :
  c0 a = c0 b -> c1 a = c1 b -> c2 a = c2 b -> a = b.
Proof. destruct a, b; simpl; intros; subst; reflexivity. Qed.

Lemma speed_setter_abs (l : R) : 0 <= l -> Rmax l (- l) = l.
Proof. intros H. apply Rmax_left. lra. Qed.

Lemma vlength_nonneg (v : vec) : 0 <= vec3.vlength v.
Proof. apply sqrt_pos. Qed.

Lemma vlength_zero : vec3.vlength vec3.vzero = 0.
Proof.
  unfold vec3.vlength, vec3.vzero; simpl.
  replace (0 * 0 + 0 * 0 + 0 * 0) with 0 by ring. apply sqrt_0.
Qed.

(** ** The class of src/Sphere.js *)

Module SphereFacts.
Import Sphere SphereSpec.

Ltac run :=
  cbv [updatePosition updateVelocity acceleration gravityForce
       dragFactor set_velocity set_speed set_position
       set_radius set_mass set_color constructor
       get_position get_velocity get_radius get_mass
       get_speed get_color tick handleCollisions createBoundingRange
       _radius _position _velocity _speed _color _mass
       position velocity color radius mass speed wf
       box_of default_box new_velocity
       Range.min Range.max BoundingRange.x BoundingRange.y BoundingRange.z];
  run_monad.

(** *** One axis of the collision tests *)

Lemma reflect_within lo hi x v :
  lo <= hi -> lo <= fst (reflect lo hi x v) <= hi.
Proof. intros H. unfold reflect. split_tests; simpl; lra. Qed.

Lemma reflect_degenerate lo hi x v :
  hi < lo -> fst (reflect lo hi x v) = hi.
Proof. intros H. unfold reflect. split_tests; simpl; lra. Qed.

Lemma reflect_clamped lo hi x v :
  lo < hi -> x <= lo \/ x >= hi ->
  snd (reflect lo hi x v) = - v /\
  (x <= lo -> fst (reflect lo hi x v) = lo) /\
  (x >= hi -> fst (reflect lo hi x v) = hi).
Proof. intros H C. unfold reflect. split_tests; simpl; repeat split; intros; lra. Qed.

Lemma reflect_inside lo hi x v :
  lo < x < hi -> reflect lo hi x v = (x, v).
Proof. intros H. unfold reflect. split_tests; try reflexivity; lra. Qed.

Lemma reflect_twice lo hi x v :
  hi <= lo -> x <= lo -> reflect lo hi x v = (hi, v * -1 * -1).
Proof. intros H C. unfold reflect. split_tests; try reflexivity; lra. Qed.

(** *** [handleCollisions] *)

Lemma sphere_handleCollisions_run h s dt ob :
  let b := box_of ob in
  let p := cell h (_position s) in
  let v := cell h (_velocity s) in
  let r := _radius s in
  let rx := reflect (Range.min (BoundingRange.x b) + r) (Range.max (BoundingRange.x b) - r) (c0 p) (c0 v) in
  let ry := reflect (Range.min (BoundingRange.y b) + r) (Range.max (BoundingRange.y b) - r) (c1 p) (c1 v) in
  let rz := reflect (Range.min (BoundingRange.z b) + r) (Range.max (BoundingRange.z b) - r) (c2 p) (c2 v) in
  let p' := mkvec (fst rx) (fst ry) (fst rz) in
  let v' := mkvec (snd rx) (snd ry) (snd rz) in
  exec (handleCollisions dt ob) (h, s) =
    (snd (alloc v' (snd (alloc p' h))),
     mkSphere r (next h) (S (next h))
              (Rmax (vec3.vlength v') (- vec3.vlength v')) (_color s) (_mass s)).
Proof.
  destruct h as [c n], s as [r p v sp col m], ob as [[[x0 x1] [y0 y1] [z0 z1]]|];
    cbv [reflect]; run; split_tests; cbv [fst snd]; eqb_simpl; reflexivity.
Qed.

Lemma sphere_handleCollisions_position h s dt ob :
  let w' := exec (handleCollisions dt ob) (h, s) in
  let b := box_of ob in
  forall a,
    coord a (position w') =
    fst (reflect (Range.min (range a b) + _radius s) (Range.max (range a b) - _radius s)
                 (coord a (cell h (_position s))) (coord a (cell h (_velocity s)))).
Proof.
  intros w' b a. subst w'. rewrite sphere_handleCollisions_run.
  unfold position, deref. cbv [fst snd alloc cell next _position]. eqb_simpl.
  destruct a; reflexivity.
Qed.

Lemma sphere_handleCollisions_velocity h s dt ob :
  let w' := exec (handleCollisions dt ob) (h, s) in
  let b := box_of ob in
  forall a,
    coord a (velocity w') =
    snd (reflect (Range.min (range a b) + _radius s) (Range.max (range a b) - _radius s)
                 (coord a (cell h (_position s))) (coord a (cell h (_velocity s)))).
Proof.
  intros w' b a. subst w'. rewrite sphere_handleCollisions_run.
  unfold velocity, deref. cbv [fst snd alloc cell next _velocity]. eqb_simpl.
  destruct a; reflexivity.
Qed.

Lemma sphere_handleCollisions_object h s dt ob :
  let w' := exec (handleCollisions dt ob) (h, s) in
  radius w' = _radius s /\ mass w' = _mass s /\ _color (snd w') = _color s /\
  speed w' = vec3.vlength (velocity w') /\ wf w' /\
  (forall r, (r < next h)%nat -> cell (fst w') r = cell h r).
Proof.
  intros w'. subst w'. rewrite sphere_handleCollisions_run.
  unfold radius, mass, speed, velocity, wf, deref.
  cbv [fst snd alloc cell next _velocity _position _radius _mass _color _speed].
  eqb_simpl. repeat split; try lia.
  - apply speed_setter_abs, vlength_nonneg.
  - intros r Hr. eqb_simpl. reflexivity.
Qed.

(** *** [updateVelocity] and [updatePosition] *)

Lemma sphere_updateVelocity_spec h s dt :
  (_velocity s < next h)%nat ->
  let v' := new_velocity (cell h (_velocity s)) (_mass s) dt in
  let w' := exec (updateVelocity dt) (h, s) in
  result (updateVelocity dt) (h, s) = _velocity s /\
  snd w' = mkSphere (_radius s) (_position s) (_velocity s)
                    (Rmax (vec3.vlength v') (- vec3.vlength v')) (_color s) (_mass s) /\
  cell (fst w') (_velocity s) = v' /\
  (forall r, (r < next h)%nat -> r <> _velocity s -> cell (fst w') r = cell h r) /\
  (next h <= next (fst w'))%nat.
Proof.
  destruct h as [c n], s as [r p v sp col m]. cbv [_velocity next]. intros Hv.
  run. eqb_simpl. repeat split; try lia.
  intros r0 H1 H2. eqb_simpl. reflexivity.
Qed.

Lemma sphere_updatePosition_spec h s dt :
  wf (h, s) ->
  let v' := new_velocity (cell h (_velocity s)) (_mass s) dt in
  let w' := exec (updatePosition dt) (h, s) in
  snd w' = mkSphere (_radius s) (_position s) (_velocity s)
                    (Rmax (vec3.vlength v') (- vec3.vlength v')) (_color s) (_mass s) /\
  cell (fst w') (_velocity s) = v' /\
  cell (fst w') (_position s) = vec3.vadd (cell h (_position s)) (vec3.vscale v' dt) /\
  (forall r, (r < next h)%nat -> r <> _velocity s -> r <> _position s ->
             cell (fst w') r = cell h r) /\
  (next h <= next (fst w'))%nat.
Proof.
  destruct h as [c n], s as [r p v sp col m]. cbv [wf _velocity _position next fst snd].
  intros (Hp & Hv & Hne).
  run. eqb_simpl. repeat split; try lia.
  intros r0 H1 H2 H3. eqb_simpl. reflexivity.
Qed.

(** Whatever the references are, [updatePosition] only replaces the
    cached speed of the object. *)
Lemma sphere_updatePosition_object h s dt :
  exists sp,
    snd (exec (updatePosition dt) (h, s)) =
    mkSphere (_radius s) (_position s) (_velocity s) sp (_color s) (_mass s).
Proof.
  destruct h as [c n], s as [r p v sp col m]. run. eexists. reflexivity.
Qed.

Lemma sphere_tick_unfold dt w :
  exec (tick dt) w = exec (handleCollisions dt None) (exec (updatePosition dt) w).
Proof. unfold tick. apply exec_bind. Qed.

(** *** Assigning the radius and the velocity, and the constructor *)

Lemma sphere_set_radius_spec h s r :
  exec (set_radius r) (h, s) =
  (h, mkSphere r (_position s) (_velocity s) (_speed s) (_color s) (_mass s)).
Proof. destruct h, s. reflexivity. Qed.

Lemma sphere_set_velocity_spec h s v :
  let l := vec3.vlength (cell h v) in
  exec (set_velocity v) (h, s) =
  (h, mkSphere (_radius s) (_position s) v (Rmax l (- l)) (_color s) (_mass s)).
Proof. destruct h, s. reflexivity. Qed.

Lemma sphere_constructor_spec d h s radius speed :
  let r := match radius with Some r => r | None => random_radius d * 2 end in
  let v := match speed with Some v => v | None => random_speed d * 100 end in
  let l := vec3.vlength (random_velocity d v) in
  let w' := exec (constructor d radius speed) (h, s) in
  snd w' = mkSphere r (next h) (S (next h)) (Rmax l (- l)) (S (S (next h))) 1 /\
  cell (fst w') (next h) = random_position d (10 - r) /\
  cell (fst w') (S (next h)) = random_velocity d v /\
  cell (fst w') (S (S (next h))) = mkvec (random_red d) (random_green d) (random_blue d) /\
  next (fst w') = S (S (S (next h))).
Proof.
  destruct h as [c n], s as [r0 p v0 sp col m], radius, speed;
    run; eqb_simpl; repeat split.
Qed.

Lemma sphere_constructor_wf d h s radius speed :
  wf (exec (constructor d radius speed) (h, s)).
Proof.
  destruct (sphere_constructor_spec d h s radius speed) as (Hs & _ & _ & _ & Hn).
  unfold wf. rewrite Hs, Hn. cbv [_position _velocity]. repeat split; lia.
Qed.

(** [tick] keeps the references of a sphere allocated and apart. *)
Lemma sphere_tick_wf dt w : wf (exec (tick dt) w).
Proof.
  rewrite sphere_tick_unfold. destruct (exec (updatePosition dt) w) as [h1 s1].
  apply sphere_handleCollisions_object.
Qed.

End SphereFacts.

(** ** The class of src/unnamed/part_003 *)

Module DraftFacts.
Import Draft DraftSpec.

Ltac run :=
  cbv [updatePosition updateVelocity acceleration gravityForce dragForce
       set_velocity set_speed set_position
       set_radius set_mass set_color constructor
       get_position get_velocity get_radius get_mass
       get_speed get_color tick handleCollisions createBoundingRange
       _radius radiusSq _position _velocity _speed speedSq _color _mass
       position velocity color radius mass speed wf cached
       box_of default_box
       Range.min Range.max BoundingRange.x BoundingRange.y BoundingRange.z];
  run_monad.

(** *** One axis of the collision tests *)

Lemma draft_reflect_within k lo hi x v :
  lo <= hi -> lo <= fst (reflect k lo hi x v) <= hi.
Proof. intros H. unfold reflect. split_tests; simpl; lra. Qed.

Lemma draft_reflect_below k lo hi x v :
  lo <= hi -> x < lo -> reflect k lo hi x v = (lo, v * k).
Proof. intros H C. unfold reflect. split_tests; try reflexivity; lra. Qed.

(** *** [handleCollisions] *)

Lemma draft_handleCollisions_run h s dt ob :
  let b := box_of ob in
  let p := cell h (_position s) in
  let v := cell h (_velocity s) in
  let r := _radius s in
  let rx := reflect (-1) (Range.min (BoundingRange.x b) + r) (Range.max (BoundingRange.x b) - r) (c0 p) (c0 v) in
  let ry := reflect (-3) (Range.min (BoundingRange.y b) + r) (Range.max (BoundingRange.y b) - r) (c1 p) (c1 v) in
  let rz := reflect (-1) (Range.min (BoundingRange.z b) + r) (Range.max (BoundingRange.z b) - r) (c2 p) (c2 v) in
  let p' := mkvec (fst rx) (fst ry) (fst rz) in
  let v' := mkvec (snd rx) (snd ry) (snd rz) in
  let l := Rmax (vec3.vlength v') (- vec3.vlength v') in
  exec (handleCollisions dt ob) (h, s) =
    (snd (alloc v' (snd (alloc p' h))),
     mkSphere r (radiusSq s) (_mass s) (_color s) (next h) (S (next h)) l (l * l)).
Proof.
  destruct h as [c n], s as [r rq m col p v sp sq], ob as [[[x0 x1] [y0 y1] [z0 z1]]|];
    cbv [reflect]; run; split_tests; cbv [fst snd]; eqb_simpl; reflexivity.
Qed.

Lemma draft_handleCollisions_position h s dt ob :
  let w' := exec (handleCollisions dt ob) (h, s) in
  let b := box_of ob in
  forall a,
    coord a (position w') =
    fst (reflect (match a with Y => -3 | _ => -1 end)
                 (Range.min (range a b) + _radius s) (Range.max (range a b) - _radius s)
                 (coord a (cell h (_position s))) (coord a (cell h (_velocity s)))).
Proof.
  intros w' b a. subst w'. rewrite draft_handleCollisions_run.
  unfold position, deref. cbv [fst snd alloc cell next _position]. eqb_simpl.
  destruct a; reflexivity.
Qed.

Lemma draft_handleCollisions_velocity h s dt ob :
  let w' := exec (handleCollisions dt ob) (h, s) in
  let b := box_of ob in
  forall a,
    coord a (velocity w') =
    snd (reflect (match a with Y => -3 | _ => -1 end)
                 (Range.min (range a b) + _radius s) (Range.max (range a b) - _radius s)
                 (coord a (cell h (_position s))) (coord a (cell h (_velocity s)))).
Proof.
  intros w' b a. subst w'. rewrite draft_handleCollisions_run.
  unfold velocity, deref. cbv [fst snd alloc cell next _velocity]. eqb_simpl.
  destruct a; reflexivity.
Qed.

Lemma draft_handleCollisions_object h s dt ob :
  let w' := exec (handleCollisions dt ob) (h, s) in
  radius w' = _radius s /\ mass w' = _mass s /\ _color (snd w') = _color s /\
  radiusSq (snd w') = radiusSq s /\
  speed w' = vec3.vlength (velocity w') /\
  speedSq (snd w') = speed w' * speed w' /\ wf w' /\
  (forall r, (r < next h)%nat -> cell (fst w') r = cell h r).
Proof.
  intros w'. subst w'. rewrite draft_handleCollisions_run.
  unfold radius, mass, speed, velocity, wf, deref.
  cbv [fst snd alloc cell next _velocity _position _radius _mass _color _speed
       radiusSq speedSq].
  eqb_simpl. repeat split; try lia.
  - apply speed_setter_abs, vlength_nonneg.
  - intros r Hr. eqb_simpl. reflexivity.
Qed.

(** *** Forces and integration *)

Lemma drag_scale_negate (d : vec) (f : R) :
  vec3.vscale (vec3.vnegate d) f = vec3.vscale d (- f).
Proof. apply vec_eq; simpl; ring. Qed.

Lemma draft_dragForce_spec h s :
  let w' := exec dragForce (h, s) in
  let d := result dragForce (h, s) in
  d = next h /\ snd w' = s /\
  cell (fst w') d =
    vec3.vscale (vec3.vnegate (vec3.vnormalize (cell h (_velocity s))))
                (HALFCDRHO * speedSq s * radiusSq s) /\
  (forall r, (r < next h)%nat -> cell (fst w') r = cell h r) /\
  next (fst w') = S (next h).
Proof.
  destruct h as [c n], s as [r rq m col p v sp sq].
  run. eqb_simpl. repeat split.
  intros r0 H1. eqb_simpl. reflexivity.
Qed.


Lemma draft_updateVelocity_spec h s dt :
  (_velocity s < next h)%nat ->
  let v' := vec3.vadd (cell h (_velocity s)) (vec3.vscale (raw_acceleration h s) dt) in
  let l := Rmax (vec3.vlength v') (- vec3.vlength v') in
  let w' := exec (updateVelocity dt) (h, s) in
  result (updateVelocity dt) (h, s) = _velocity s /\
  snd w' = mkSphere (_radius s) (radiusSq s) (_mass s) (_color s)
                    (_position s) (_velocity s) l (l * l) /\
  cell (fst w') (_velocity s) = v' /\
  (forall r, (r < next h)%nat -> r <> _velocity s -> cell (fst w') r = cell h r) /\
  (next h <= next (fst w'))%nat.
Proof.
  destruct h as [c n], s as [r rq m col p v sp sq]. cbv [_velocity next]. intros Hv.
  cbv [raw_acceleration]. run. eqb_simpl. repeat split; try lia.
  intros r0 H1 H2. eqb_simpl. reflexivity.
Qed.

(** After [updatePosition] the array of the velocity holds the new velocity
    times [dt], and the cached speed is that of the new velocity. *)
Lemma draft_updatePosition_spec h s dt :
  wf (h, s) ->
  let v' := vec3.vadd (cell h (_velocity s)) (vec3.vscale (raw_acceleration h s) dt) in
  let l := Rmax (vec3.vlength v') (- vec3.vlength v') in
  let w' := exec (updatePosition dt) (h, s) in
  snd w' = mkSphere (_radius s) (radiusSq s) (_mass s) (_color s)
                    (_position s) (_velocity s) l (l * l) /\
  cell (fst w') (_velocity s) = vec3.vscale v' dt /\
  cell (fst w') (_position s) = vec3.vadd (cell h (_position s)) (vec3.vscale v' dt) /\
  (forall r, (r < next h)%nat -> r <> _velocity s -> r <> _position s ->
             cell (fst w') r = cell h r) /\
  (next h <= next (fst w'))%nat.
Proof.
  destruct h as [c n], s as [r rq m col p v sp sq]. cbv [wf _velocity _position next fst snd].
  intros (Hp & Hv & Hne).
  cbv [raw_acceleration]. run. eqb_simpl. repeat split; try lia.
  intros r0 H1 H2 H3. eqb_simpl. reflexivity.
Qed.

Lemma draft_updatePosition_object h s dt :
  exists sp sq,
    snd (exec (updatePosition dt) (h, s)) =
    mkSphere (_radius s) (radiusSq s) (_mass s) (_color s)
             (_position s) (_velocity s) sp sq.
Proof.
  destruct h as [c n], s as [r rq m col p v sp sq]. run. do 2 eexists. reflexivity.
Qed.

Lemma draft_tick_unfold dt w :
  exec (tick dt) w = exec (handleCollisions dt None) (exec (updatePosition dt) w).
Proof. unfold tick. apply exec_bind. Qed.

Lemma raw_acceleration_cached h s :
  cached s -> raw_acceleration h s = acceleration_of (h, s).
Proof.
  intros [Hr Hs]. unfold raw_acceleration, acceleration_of, drag, mass, speed, radius,
    velocity, deref. cbv [fst snd].
  rewrite drag_scale_negate, Hr, Hs. reflexivity.
Qed.

(** *** Assigning the radius, and the constructor *)

Lemma draft_set_radius_spec h s r :
  let w' := exec (set_radius r) (h, s) in
  let m := r * r * 0.5 in
  snd w' = mkSphere r (r * r) m (next h) (_position s) (_velocity s) (_speed s) (speedSq s) /\
  cell (fst w') (next h) =
    mkvec (255.0 * m) (255.0 * (1.0 - Rabs (1.0 - 2.0 * m))) (255.0 * (1.0 - m)) /\
  (forall r0, (r0 < next h)%nat -> cell (fst w') r0 = cell h r0) /\
  next (fst w') = S (next h).
Proof.
  destruct h as [c n], s as [r0 rq m col p v sp sq].
  run. eqb_simpl. repeat split.
  intros r1 H1. eqb_simpl. reflexivity.
Qed.

(** The world the constructor leaves, from any store and any fresh object:
    the velocity array holds the drawn vector, the cached speed is 0. *)
Lemma draft_constructor_spec d h s radius speed :
  let r := match radius with Some r => r | None => random_radius d end in
  let v := match speed with Some v => v | None => random_speed d * 200 end in
  let w' := exec (constructor d radius speed) (h, s) in
  snd w' = mkSphere r (r * r) (r * r * 0.5) (next h) (S (next h)) (S (S (next h)))
                    (Rmax (vec3.vlength vec3.vzero) (- vec3.vlength vec3.vzero))
                    (Rmax (vec3.vlength vec3.vzero) (- vec3.vlength vec3.vzero) *
                     Rmax (vec3.vlength vec3.vzero) (- vec3.vlength vec3.vzero)) /\
  cell (fst w') (S (next h)) = random_position d (1 - r) /\
  cell (fst w') (S (S (next h))) = random_velocity d v /\
  next (fst w') = S (S (S (next h))).
Proof.
  destruct h as [c n], s as [r0 rq m col p v0 sp sq], radius, speed;
    run; eqb_simpl; repeat split.
Qed.

Lemma draft_constructor_wf d h s radius speed :
  let w' := exec (constructor d radius speed) (h, s) in
  wf w' /\ cached (snd w') /\ DraftSpec.speed w' = 0.
Proof.
  intros w'. subst w'.
  destruct (draft_constructor_spec d h s radius speed) as (Hs & Hp & Hv & Hn).
  unfold wf, cached, DraftSpec.speed. rewrite Hs, Hn. cbv [_position _velocity _radius radiusSq _speed speedSq].
  rewrite vlength_zero. replace (Rmax 0 (- 0)) with 0.
  - repeat split; try lia.
  - rewrite Ropp_0. symmetry. apply Rmax_left. lra.
Qed.

(** *** The invariants of the draft along a run *)

Lemma draft_set_radius_cached h s r :
  cached s -> cached (snd (exec (set_radius r) (h, s))).
Proof.
  intros [_ Hs]. destruct (draft_set_radius_spec h s r) as (E & _). rewrite E.
  split; [reflexivity | exact Hs].
Qed.

Lemma draft_tick_wf_cached h s dt :
  cached s ->
  wf (exec (tick dt) (h, s)) /\ cached (snd (exec (tick dt) (h, s))).
Proof.
  intros [Hr _]. rewrite draft_tick_unfold.
  destruct (draft_updatePosition_object h s dt) as (sp & sq & Hs).
  destruct (exec (updatePosition dt) (h, s)) as [h1 s1]. cbn [snd] in Hs. subst s1.
  destruct (draft_handleCollisions_object h1
              (mkSphere (_radius s) (radiusSq s) (_mass s) (_color s)
                        (_position s) (_velocity s) sp sq) dt None)
    as (Er & _ & _ & Eq & _ & Esq & Hwf & _).
  split; [exact Hwf|]. split.
  - rewrite Eq. unfold radius in Er. rewrite Er. exact Hr.
  - exact Esq.
Qed.

Lemma draft_reflect_above k lo hi x v :
  lo <= hi -> x > hi -> reflect k lo hi x v = (hi, v * -1).
Proof. intros H C. unfold reflect. split_tests; try reflexivity; lra. Qed.

Lemma draft_reflect_inside k lo hi x v :
  lo <= x <= hi -> reflect k lo hi x v = (x, v).
Proof. intros H. unfold reflect. split_tests; try reflexivity; lra. Qed.

End DraftFacts.

(** * The statements of the specification *)

(** ** One-sphere worlds *)

Lemma drag_at_rest k r v : DraftSpec.drag k 0 r v = vec3.vzero.
Proof. unfold DraftSpec.drag. apply vec_eq; simpl; ring. Qed.

Lemma sphere_world_wf r m p v : SphereSpec.wf (SphereSpec.world r m p v).
Proof.
  cbv [SphereSpec.wf SphereSpec.world fst snd next Sphere._position Sphere._velocity].
  repeat split; lia.
Qed.

Lemma draft_world_wf r sp p v : DraftSpec.wf (DraftSpec.world r sp p v).
Proof.
  cbv [DraftSpec.wf DraftSpec.world fst snd next Draft._position Draft._velocity].
  repeat split; lia.
Qed.

Lemma draft_world_cached r sp p v : DraftSpec.cached (snd (DraftSpec.world r sp p v)).
Proof. split; reflexivity. Qed.

(** ** Boundary *)

Lemma sphere_tick_radius h s dt :
  SphereSpec.radius (exec (Sphere.tick dt) (h, s)) = Sphere._radius s.
Proof.
  rewrite SphereFacts.sphere_tick_unfold.
  destruct (SphereFacts.sphere_updatePosition_object h s dt) as [sp Hs].
  destruct (exec (Sphere.updatePosition dt) (h, s)) as [h1 s1]. simpl in Hs. subst s1.
  exact (proj1 (SphereFacts.sphere_handleCollisions_object h1 _ dt None)).
Qed.

(** The position [tick] leaves on an axis, from the state [updatePosition]
    leaves: only the data of that axis enter. *)
Lemma sphere_tick_axis h s dt a :
  let w1 := exec (Sphere.updatePosition dt) (h, s) in
  let w2 := exec (Sphere.tick dt) (h, s) in
  let r := SphereSpec.reflect (-10 + Sphere._radius s) (10 - Sphere._radius s)
             (coord a (SphereSpec.position w1)) (coord a (SphereSpec.velocity w1)) in
  coord a (SphereSpec.position w2) = fst r /\ coord a (SphereSpec.velocity w2) = snd r.
Proof.
  intros w1 w2 r. subst w1 w2 r.
  rewrite SphereFacts.sphere_tick_unfold.
  destruct (SphereFacts.sphere_updatePosition_object h s dt) as [sp Hs].
  destruct (exec (Sphere.updatePosition dt) (h, s)) as [h1 s1]. simpl in Hs. subst s1.
  rewrite SphereFacts.sphere_handleCollisions_position,
          SphereFacts.sphere_handleCollisions_velocity.
  unfold SphereSpec.position, SphereSpec.velocity, deref. cbv [fst snd Sphere._radius
    Sphere._position Sphere._velocity].
  destruct a; split; reflexivity.
Qed.

Lemma draft_tick_keeps_radius_and_mass h s dt :
  DraftSpec.radius (exec (Draft.tick dt) (h, s)) = Draft._radius s /\
  DraftSpec.mass (exec (Draft.tick dt) (h, s)) = Draft._mass s.
Proof.
  rewrite DraftFacts.draft_tick_unfold.
  destruct (DraftFacts.draft_updatePosition_object h s dt) as (sp & sq & Hs).
  destruct (exec (Draft.updatePosition dt) (h, s)) as [h1 s1]. cbn [snd] in Hs. subst s1.
  destruct (DraftFacts.draft_handleCollisions_object h1
              (Draft.mkSphere (Draft._radius s) (Draft.radiusSq s) (Draft._mass s)
                 (Draft._color s) (Draft._position s) (Draft._velocity s) sp sq) dt None)
    as (Hr & Hm & _).
  split; [exact Hr | exact Hm].
Qed.

Lemma draft_tick_axis h s dt a :
  let w1 := exec (Draft.updatePosition dt) (h, s) in
  let w2 := exec (Draft.tick dt) (h, s) in
  let r := DraftSpec.reflect (match a with Y => -3 | _ => -1 end)
             (-10 + Draft._radius s) (10 - Draft._radius s)
             (coord a (DraftSpec.position w1)) (coord a (DraftSpec.velocity w1)) in
  coord a (DraftSpec.position w2) = fst r /\ coord a (DraftSpec.velocity w2) = snd r.
Proof.
  intros w1 w2 r. subst w1 w2 r.
  rewrite DraftFacts.draft_tick_unfold.
  destruct (DraftFacts.draft_updatePosition_object h s dt) as (sp & sq & Hs).
  destruct (exec (Draft.updatePosition dt) (h, s)) as [h1 s1]. cbn [snd] in Hs. subst s1.
  rewrite DraftFacts.draft_handleCollisions_position,
          DraftFacts.draft_handleCollisions_velocity.
  unfold DraftSpec.position, DraftSpec.velocity, deref.
  cbv [fst snd Draft._radius Draft._position Draft._velocity].
  destruct a; split; reflexivity.
Qed.

(** With the strict tests of the draft too, a tick leaves the position of a
    sphere that fits the box within the inset interval. *)
Lemma draft_position_stays_in_inset_box h s dt a :
  Draft._radius s <= 10 ->
  -10 + Draft._radius s <= coord a (DraftSpec.position (exec (Draft.tick dt) (h, s)))
    <= 10 - Draft._radius s.
Proof.
  intros Hr. destruct (draft_tick_axis h s dt a) as [Hp _]. rewrite Hp.
  apply DraftFacts.draft_reflect_within. lra.
Qed.

Lemma draft_world_updatePosition r sp p v dt :
  let w := DraftSpec.world r sp p v in
  let v' := vec3.vadd v (vec3.vscale (DraftSpec.acceleration_of w) dt) in
  DraftSpec.velocity (exec (Draft.updatePosition dt) w) = vec3.vscale v' dt /\
  DraftSpec.position (exec (Draft.updatePosition dt) w) = vec3.vadd p (vec3.vscale v' dt).
Proof.
  intros w v'. subst v'.
  pose proof (draft_world_wf r sp p v) as W.
  pose proof (draft_world_cached r sp p v) as C. fold w in W, C.
  destruct (DraftFacts.draft_updatePosition_spec (fst w) (snd w) dt W) as (Hs & Hv & Hp & _).
  rewrite (DraftFacts.raw_acceleration_cached _ _ C) in Hv, Hp.
  change (fst w, snd w) with w in Hs, Hv, Hp.
  unfold DraftSpec.velocity, DraftSpec.position, deref. rewrite Hs.
  cbn [Draft._velocity Draft._position]. rewrite Hv, Hp. split; reflexivity.
Qed.

(** The lower y test of the draft multiplies the velocity by -3: a sphere
    dropped from rest on the floor leaves it three times as fast as it
    arrived. *)
Lemma draft_floor_triples_velocity :
  coord Y (DraftSpec.velocity
             (exec (Draft.updatePosition 1)
                   (DraftSpec.world 1 0 (mkvec 0 (-9) 0) vec3.vzero))) = -9.81 /\
  coord Y (DraftSpec.position
             (exec (Draft.updatePosition 1)
                   (DraftSpec.world 1 0 (mkvec 0 (-9) 0) vec3.vzero))) < -10 + 1 /\
  coord Y (DraftSpec.velocity
             (exec (Draft.tick 1)
                   (DraftSpec.world 1 0 (mkvec 0 (-9) 0) vec3.vzero))) = 29.43.
Proof.
  destruct (draft_world_updatePosition 1 0 (mkvec 0 (-9) 0) vec3.vzero 1) as [Hv Hp].
  destruct (draft_tick_axis (fst (DraftSpec.world 1 0 (mkvec 0 (-9) 0) vec3.vzero))
                            (snd (DraftSpec.world 1 0 (mkvec 0 (-9) 0) vec3.vzero)) 1 Y)
    as [_ Hv2].
  change (fst (DraftSpec.world 1 0 (mkvec 0 (-9) 0) vec3.vzero),
          snd (DraftSpec.world 1 0 (mkvec 0 (-9) 0) vec3.vzero))
    with (DraftSpec.world 1 0 (mkvec 0 (-9) 0) vec3.vzero) in Hv2.
  rewrite Hv2, Hp, Hv. unfold DraftSpec.acceleration_of.
  replace (DraftSpec.speed (DraftSpec.world 1 0 (mkvec 0 (-9) 0) vec3.vzero)) with 0
    by reflexivity.
  rewrite drag_at_rest.
  cbv [DraftSpec.world DraftSpec.mass fst snd cell Draft._mass Draft._radius Draft.GRAVITY
       coord c0 c1 c2 vec3.vadd vec3.vscale vec3.vzero].
  rewrite DraftFacts.draft_reflect_below by lra.
  cbv [snd]. repeat split; lra.
Qed.

(** C3, as the code has it: when the sphere fits the box (radius at most 10,
    so that the inset interval [-10 + radius, 10 - radius] is not empty),
    every tick leaves each component of the position within the inset
    interval, bounds included, and keeps the radius; in src/Sphere.js and in
    the draft of src/unnamed/part_003.  For a box given to
    [handleCollisions], the component of an axis ends within the inset
    interval of that axis when this interval is not empty. *)
Theorem tick_position_within_inset_box :
  (forall (h : heap) (s : Sphere.Sphere) (dt : R) (a : axis),
     Sphere._radius s <= 10 ->
     let w' := exec (Sphere.tick dt) (h, s) in
     SphereSpec.radius w' = Sphere._radius s /\
     -10 + SphereSpec.radius w' <= coord a (SphereSpec.position w')
       <= 10 - SphereSpec.radius w') /\
  (forall (h : heap) (s : Draft.Sphere) (dt : R) (a : axis),
     Draft._radius s <= 10 ->
     let w' := exec (Draft.tick dt) (h, s) in
     DraftSpec.radius w' = Draft._radius s /\
     -10 + DraftSpec.radius w' <= coord a (DraftSpec.position w')
       <= 10 - DraftSpec.radius w') /\
  (forall (h : heap) (s : Sphere.Sphere) (dt : R) (b : BoundingRange.t) (a : axis),
     Range.min (range a b) + Sphere._radius s <= Range.max (range a b) - Sphere._radius s ->
     let w' := exec (Sphere.handleCollisions dt (Some b)) (h, s) in
     SphereSpec.radius w' = Sphere._radius s /\
     Range.min (range a b) + SphereSpec.radius w' <= coord a (SphereSpec.position w')
       <= Range.max (range a b) - SphereSpec.radius w').
Proof.
  split; [|split].
  - intros h s dt a Hr w'. subst w'. rewrite sphere_tick_radius. split; [reflexivity|].
    destruct (sphere_tick_axis h s dt a) as [Hp _]. rewrite Hp.
    apply SphereFacts.reflect_within. lra.
  - intros h s dt a Hr w'. subst w'.
    rewrite (proj1 (draft_tick_keeps_radius_and_mass h s dt)). split; [reflexivity|].
    apply draft_position_stays_in_inset_box. exact Hr.
  - intros h s dt b a Hr w'. subst w'.
    rewrite (proj1 (SphereFacts.sphere_handleCollisions_object h s dt (Some b))).
    split; [reflexivity|].
    rewrite (SphereFacts.sphere_handleCollisions_position h s dt (Some b) a).
    apply SphereFacts.reflect_within. exact Hr.
Qed.

Lemma tick_position_within_inset_box_witness :
  (Sphere._radius (snd (SphereSpec.world 1 1 (mkvec 0 5 0) vec3.vzero)) <= 10 /\
   -10 + 1 <= coord Y (SphereSpec.position
                         (exec (Sphere.tick 0.1)
                               (SphereSpec.world 1 1 (mkvec 0 5 0) vec3.vzero))) <= 10 - 1) /\
  (Draft._radius (snd (DraftSpec.world 1 0 (mkvec 0 5 0) vec3.vzero)) <= 10 /\
   -10 + 1 <= coord Y (DraftSpec.position
                         (exec (Draft.tick 0.1)
                               (DraftSpec.world 1 0 (mkvec 0 5 0) vec3.vzero))) <= 10 - 1) /\
  (Range.min (range X (Sphere.createBoundingRange (-1) 1 (-1) 1 (-1) 1)) +
     Sphere._radius (snd (SphereSpec.world 0.25 1 (mkvec 3 0 0) vec3.vzero)) <=
   Range.max (range X (Sphere.createBoundingRange (-1) 1 (-1) 1 (-1) 1)) -
     Sphere._radius (snd (SphereSpec.world 0.25 1 (mkvec 3 0 0) vec3.vzero)) /\
   -1 + 0.25 <=
   coord X (SphereSpec.position
              (exec (Sphere.handleCollisions 0.1
                       (Some (Sphere.createBoundingRange (-1) 1 (-1) 1 (-1) 1)))
                    (SphereSpec.world 0.25 1 (mkvec 3 0 0) vec3.vzero))) <= 1 - 0.25).
Proof.
  assert (H1 : Sphere._radius (snd (SphereSpec.world 1 1 (mkvec 0 5 0) vec3.vzero)) <= 10)
    by (cbv [SphereSpec.world snd Sphere._radius]; lra).
  assert (H2 : Draft._radius (snd (DraftSpec.world 1 0 (mkvec 0 5 0) vec3.vzero)) <= 10)
    by (cbv [DraftSpec.world snd Draft._radius]; lra).
  assert (H3 : Range.min (range X (Sphere.createBoundingRange (-1) 1 (-1) 1 (-1) 1)) +
                 Sphere._radius (snd (SphereSpec.world 0.25 1 (mkvec 3 0 0) vec3.vzero)) <=
               Range.max (range X (Sphere.createBoundingRange (-1) 1 (-1) 1 (-1) 1)) -
                 Sphere._radius (snd (SphereSpec.world 0.25 1 (mkvec 3 0 0) vec3.vzero)))
    by (cbv [SphereSpec.world snd Sphere._radius Sphere.createBoundingRange range
             BoundingRange.x Range.min Range.max]; lra).
  destruct tick_position_within_inset_box as (A & B & C).
  split; [|split]; (split; [assumption|]).
  - destruct (A (fst (SphereSpec.world 1 1 (mkvec 0 5 0) vec3.vzero))
                (snd (SphereSpec.world 1 1 (mkvec 0 5 0) vec3.vzero)) 0.1 Y H1) as [Hr H].
    change (fst (SphereSpec.world 1 1 (mkvec 0 5 0) vec3.vzero),
            snd (SphereSpec.world 1 1 (mkvec 0 5 0) vec3.vzero))
      with (SphereSpec.world 1 1 (mkvec 0 5 0) vec3.vzero) in Hr, H.
    rewrite Hr in H. exact H.
  - destruct (B (fst (DraftSpec.world 1 0 (mkvec 0 5 0) vec3.vzero))
                (snd (DraftSpec.world 1 0 (mkvec 0 5 0) vec3.vzero)) 0.1 Y H2) as [Hr H].
    change (fst (DraftSpec.world 1 0 (mkvec 0 5 0) vec3.vzero),
            snd (DraftSpec.world 1 0 (mkvec 0 5 0) vec3.vzero))
      with (DraftSpec.world 1 0 (mkvec 0 5 0) vec3.vzero) in Hr, H.
    rewrite Hr in H. exact H.
  - destruct (C (fst (SphereSpec.world 0.25 1 (mkvec 3 0 0) vec3.vzero))
                (snd (SphereSpec.world 0.25 1 (mkvec 3 0 0) vec3.vzero)) 0.1
                (Sphere.createBoundingRange (-1) 1 (-1) 1 (-1) 1) X H3) as [Hr H].
    change (fst (SphereSpec.world 0.25 1 (mkvec 3 0 0) vec3.vzero),
            snd (SphereSpec.world 0.25 1 (mkvec 3 0 0) vec3.vzero))
      with (SphereSpec.world 0.25 1 (mkvec 3 0 0) vec3.vzero) in Hr, H.
    rewrite Hr in H. exact H.
Defined.

(** C3 fails for a sphere that does not fit the box: with radius 11 the
    tick leaves the x component at -1, below the lower inset bound 1. *)
Lemma tick_position_outside_inset_box :
  coord X (SphereSpec.position
             (exec (Sphere.tick 0) (SphereSpec.world 11 1 vec3.vzero vec3.vzero))) = -1 /\
  ~ (-10 + SphereSpec.radius (exec (Sphere.tick 0) (SphereSpec.world 11 1 vec3.vzero vec3.vzero))
     <= coord X (SphereSpec.position
                   (exec (Sphere.tick 0) (SphereSpec.world 11 1 vec3.vzero vec3.vzero)))
     <= 10 - SphereSpec.radius (exec (Sphere.tick 0) (SphereSpec.world 11 1 vec3.vzero vec3.vzero))).
Proof.
  unfold SphereSpec.world. rewrite sphere_tick_radius.
  destruct (sphere_tick_axis
              (mkheap (fun a => match a with O => vec3.vzero | S O => vec3.vzero | _ => vec3.vzero end) 3%nat)
              (Sphere.mkSphere 11 0%nat 1%nat (vec3.vlength vec3.vzero) 2%nat 1) 0 X) as [Hp _].
  rewrite Hp. cbv [Sphere._radius].
  rewrite SphereFacts.reflect_degenerate by lra. split; lra.
Qed.

(** The state [updatePosition] leaves in a one-sphere world. *)
Lemma sphere_world_updatePosition r m p v dt :
  let w1 := exec (Sphere.updatePosition dt) (SphereSpec.world r m p v) in
  let v' := SphereSpec.new_velocity v m dt in
  SphereSpec.velocity w1 = v' /\
  SphereSpec.position w1 = vec3.vadd p (vec3.vscale v' dt) /\
  SphereSpec.radius w1 = r.
Proof.
  intros w1 v'. subst w1 v'. unfold SphereSpec.world.
  match goal with |- context [exec _ (?h, ?s)] =>
    destruct (SphereFacts.sphere_updatePosition_spec h s dt) as (Hs & Hv & Hp & _)
  end.
  { unfold SphereSpec.wf. cbv [fst snd next Sphere._position Sphere._velocity].
    repeat split; lia. }
  unfold SphereSpec.velocity, SphereSpec.position, SphereSpec.radius, deref.
  rewrite Hs. cbv [Sphere._velocity Sphere._position Sphere._radius] in *.
  rewrite Hv, Hp. repeat split.
Qed.

Lemma new_velocity_no_time v m : SphereSpec.new_velocity v m 0 = v.
Proof.
  unfold SphereSpec.new_velocity. rewrite Rpower_O by lra.
  apply vec_eq; simpl; ring.
Qed.

Lemma new_velocity_unit_time v : 
  SphereSpec.new_velocity v 1 1 = mkvec (0.9 * c0 v) (0.9 * c1 v - 9.81) (0.9 * c2 v).
Proof.
  unfold SphereSpec.new_velocity, Sphere.GRAVITY. rewrite Rpower_1 by lra.
  apply vec_eq; simpl; lra.
Qed.

(** ** Reflection *)

(** C4, as the code has it.  In src/Sphere.js, when the inset interval is
    proper (radius below 10), a tick that clamps the position on an axis
    negates the velocity component of that axis; an axis that is not clamped
    keeps its velocity and position components; and what the tick leaves on
    an axis is computed from the components of that axis alone.  In the
    draft of src/unnamed/part_003 (strict tests, radius at most 10) the same
    holds at the upper bounds and at the lower bounds of the x and z
    axes. *)
Theorem tick_reflects_clamped_axis :
  (forall (h : heap) (s : Sphere.Sphere) (dt : R) (a : axis),
     Sphere._radius s < 10 ->
     let w1 := exec (Sphere.updatePosition dt) (h, s) in
     let w2 := exec (Sphere.tick dt) (h, s) in
     let lo := -10 + Sphere._radius s in
     let hi := 10 - Sphere._radius s in
     (coord a (SphereSpec.position w1) <= lo \/ coord a (SphereSpec.position w1) >= hi ->
      coord a (SphereSpec.velocity w2) = - coord a (SphereSpec.velocity w1)) /\
     (lo < coord a (SphereSpec.position w1) < hi ->
      coord a (SphereSpec.velocity w2) = coord a (SphereSpec.velocity w1) /\
      coord a (SphereSpec.position w2) = coord a (SphereSpec.position w1)) /\
     (coord a (SphereSpec.position w2), coord a (SphereSpec.velocity w2)) =
       SphereSpec.reflect lo hi (coord a (SphereSpec.position w1))
                                (coord a (SphereSpec.velocity w1))) /\
  (forall (h : heap) (s : Draft.Sphere) (dt : R) (a : axis),
     Draft._radius s <= 10 ->
     let w1 := exec (Draft.updatePosition dt) (h, s) in
     let w2 := exec (Draft.tick dt) (h, s) in
     let lo := -10 + Draft._radius s in
     let hi := 10 - Draft._radius s in
     (coord a (DraftSpec.position w1) > hi \/
      (a <> Y /\ coord a (DraftSpec.position w1) < lo) ->
      coord a (DraftSpec.velocity w2) = - coord a (DraftSpec.velocity w1)) /\
     (lo <= coord a (DraftSpec.position w1) <= hi ->
      coord a (DraftSpec.velocity w2) = coord a (DraftSpec.velocity w1) /\
      coord a (DraftSpec.position w2) = coord a (DraftSpec.position w1))).
Proof.
  split.
  - intros h s dt a Hr. cbv zeta.
    pose proof (sphere_tick_axis h s dt a) as H. cbv zeta in H. revert H.
    generalize (exec (Sphere.tick dt) (h, s)).
    generalize (exec (Sphere.updatePosition dt) (h, s)).
    intros w1 w2 [Hp Hv].
    split; [|split].
    + intros C. rewrite Hv. apply SphereFacts.reflect_clamped; [lra | exact C].
    + intros C. rewrite Hv, Hp, SphereFacts.reflect_inside by assumption.
      split; reflexivity.
    + rewrite Hp, Hv. symmetry. apply surjective_pairing.
  - intros h s dt a Hr. cbv zeta.
    pose proof (draft_tick_axis h s dt a) as H. cbv zeta in H. revert H.
    generalize (exec (Draft.tick dt) (h, s)).
    generalize (exec (Draft.updatePosition dt) (h, s)).
    intros w1 w2 [Hp Hv].
    assert (Hb : -10 + Draft._radius s <= 10 - Draft._radius s) by lra.
    split.
    + intros [C | [Ha C]].
      * rewrite Hv, DraftFacts.draft_reflect_above by assumption. cbn [snd]. ring.
      * rewrite Hv, DraftFacts.draft_reflect_below by assumption. cbn [snd].
        destruct a; [ring | contradiction | ring].
    + intros C. rewrite Hv, Hp, DraftFacts.draft_reflect_inside by assumption.
      split; reflexivity.
Qed.

Lemma sphere_world_no_time r m p v :
  SphereSpec.velocity (exec (Sphere.updatePosition 0) (SphereSpec.world r m p v)) = v /\
  SphereSpec.position (exec (Sphere.updatePosition 0) (SphereSpec.world r m p v)) = p.
Proof.
  destruct (sphere_world_updatePosition r m p v 0) as (Hv & Hp & _).
  rewrite Hv, Hp, new_velocity_no_time. split; [reflexivity|].
  apply vec_eq; simpl; ring.
Qed.

Lemma gravity_over_mass (one g m x : R) :
  one = 1 -> m <> 0 -> (x + (-1 * g * m + 0) * (one / m) * 1) * 1 = x - g.
Proof. intros E Hm. subst one. field. exact Hm. Qed.

Lemma half_square_nonzero (r half : R) : r <> 0 -> half <> 0 -> r * r * half <> 0.
Proof.
  intros Hr Hh E. apply Rmult_integral in E. destruct E as [E|E]; [|contradiction].
  apply Rmult_integral in E. destruct E; contradiction.
Qed.

(** From rest in the draft's cache (speed 0) the drag is zero: one second
    adds the velocity (plus gravity) to the position. *)
Lemma draft_world_unit_time r p v :
  r <> 0 ->
  DraftSpec.velocity (exec (Draft.updatePosition 1) (DraftSpec.world r 0 p v)) =
    mkvec (c0 v) (c1 v - 9.81) (c2 v) /\
  DraftSpec.position (exec (Draft.updatePosition 1) (DraftSpec.world r 0 p v)) =
    mkvec (c0 p + c0 v) (c1 p + (c1 v - 9.81)) (c2 p + c2 v).
Proof.
  intros Hr. destruct (draft_world_updatePosition r 0 p v 1) as [Hv Hp].
  rewrite Hv, Hp. unfold DraftSpec.acceleration_of.
  replace (DraftSpec.speed (DraftSpec.world r 0 p v)) with 0 by reflexivity.
  rewrite drag_at_rest.
  cbv [DraftSpec.world DraftSpec.mass fst snd Draft._mass Draft.GRAVITY].
  assert (Hm : r * r * 0.5 <> 0) by (apply half_square_nonzero; [exact Hr | lra]).
  assert (E1 : 1.0 = 1) by lra.
  split; apply vec_eq; cbn [c0 c1 c2 vec3.vadd vec3.vscale vec3.vzero];
    try rewrite (gravity_over_mass 1.0 9.81 (r * r * 0.5) _ E1 Hm); try lra.
Qed.

Lemma tick_reflects_clamped_axis_witness :
  (Sphere._radius (snd (SphereSpec.world 1 1 (mkvec (-9) 0 0) (mkvec (-1) 2 0))) < 10 /\
   (coord X (SphereSpec.position
               (exec (Sphere.updatePosition 0)
                     (SphereSpec.world 1 1 (mkvec (-9) 0 0) (mkvec (-1) 2 0)))) <= -10 + 1 /\
    coord X (SphereSpec.velocity
               (exec (Sphere.tick 0) (SphereSpec.world 1 1 (mkvec (-9) 0 0) (mkvec (-1) 2 0)))) =
    - coord X (SphereSpec.velocity
                 (exec (Sphere.updatePosition 0)
                       (SphereSpec.world 1 1 (mkvec (-9) 0 0) (mkvec (-1) 2 0))))) /\
   (-10 + 1 < coord Y (SphereSpec.position
                         (exec (Sphere.updatePosition 0)
                               (SphereSpec.world 1 1 (mkvec (-9) 0 0) (mkvec (-1) 2 0)))) < 10 - 1 /\
    coord Y (SphereSpec.velocity
               (exec (Sphere.tick 0) (SphereSpec.world 1 1 (mkvec (-9) 0 0) (mkvec (-1) 2 0)))) =
    coord Y (SphereSpec.velocity
               (exec (Sphere.updatePosition 0)
                     (SphereSpec.world 1 1 (mkvec (-9) 0 0) (mkvec (-1) 2 0)))))) /\
  (Draft._radius (snd (DraftSpec.world 1 0 (mkvec 8.5 0 0) (mkvec 1 0 0))) <= 10 /\
   (coord X (DraftSpec.position
               (exec (Draft.updatePosition 1)
                     (DraftSpec.world 1 0 (mkvec 8.5 0 0) (mkvec 1 0 0)))) > 10 - 1 /\
    coord X (DraftSpec.velocity
               (exec (Draft.tick 1) (DraftSpec.world 1 0 (mkvec 8.5 0 0) (mkvec 1 0 0)))) =
    - coord X (DraftSpec.velocity
                 (exec (Draft.updatePosition 1)
                       (DraftSpec.world 1 0 (mkvec 8.5 0 0) (mkvec 1 0 0))))) /\
   (-10 + 1 <= coord Z (DraftSpec.position
                          (exec (Draft.updatePosition 1)
                                (DraftSpec.world 1 0 (mkvec 8.5 0 0) (mkvec 1 0 0)))) <= 10 - 1 /\
    coord Z (DraftSpec.velocity
               (exec (Draft.tick 1) (DraftSpec.world 1 0 (mkvec 8.5 0 0) (mkvec 1 0 0)))) =
    coord Z (DraftSpec.velocity
               (exec (Draft.updatePosition 1)
                     (DraftSpec.world 1 0 (mkvec 8.5 0 0) (mkvec 1 0 0)))))).
Proof.
  destruct tick_reflects_clamped_axis as [A B]. split.
  - assert (Hr : Sphere._radius (snd (SphereSpec.world 1 1 (mkvec (-9) 0 0) (mkvec (-1) 2 0))) < 10)
      by (cbv [SphereSpec.world snd Sphere._radius]; lra).
    assert (Hc : coord X (SphereSpec.position
               (exec (Sphere.updatePosition 0)
                     (SphereSpec.world 1 1 (mkvec (-9) 0 0) (mkvec (-1) 2 0)))) <= -10 + 1).
    { rewrite (proj2 (sphere_world_no_time 1 1 (mkvec (-9) 0 0) (mkvec (-1) 2 0))).
      cbv [coord c0]. lra. }
    assert (Hi : -10 + 1 < coord Y (SphereSpec.position
               (exec (Sphere.updatePosition 0)
                     (SphereSpec.world 1 1 (mkvec (-9) 0 0) (mkvec (-1) 2 0)))) < 10 - 1).
    { rewrite (proj2 (sphere_world_no_time 1 1 (mkvec (-9) 0 0) (mkvec (-1) 2 0))).
      cbv [coord c1]. lra. }
    split; [exact Hr|]. split; split; [exact Hc| |exact Hi|].
    + exact (proj1 (A _ _ 0 X Hr) (or_introl Hc)).
    + exact (proj1 (proj1 (proj2 (A _ _ 0 Y Hr)) Hi)).
  - assert (Hr : Draft._radius (snd (DraftSpec.world 1 0 (mkvec 8.5 0 0) (mkvec 1 0 0))) <= 10)
      by (cbv [DraftSpec.world snd Draft._radius]; lra).
    assert (N : 1 <> 0) by lra.
    assert (Hc : coord X (DraftSpec.position
               (exec (Draft.updatePosition 1)
                     (DraftSpec.world 1 0 (mkvec 8.5 0 0) (mkvec 1 0 0)))) > 10 - 1).
    { rewrite (proj2 (draft_world_unit_time 1 (mkvec 8.5 0 0) (mkvec 1 0 0) N)).
      cbv [coord c0]. lra. }
    assert (Hi : -10 + 1 <= coord Z (DraftSpec.position
               (exec (Draft.updatePosition 1)
                     (DraftSpec.world 1 0 (mkvec 8.5 0 0) (mkvec 1 0 0)))) <= 10 - 1).
    { rewrite (proj2 (draft_world_unit_time 1 (mkvec 8.5 0 0) (mkvec 1 0 0) N)).
      cbv [coord c2]. lra. }
    split; [exact Hr|]. split; split; [exact Hc| |exact Hi|].
    + exact (proj1 (B _ _ 1 X Hr) (or_introl Hc)).
    + exact (proj1 (proj2 (B _ _ 1 Z Hr) Hi)).
Defined.

(** C4 fails when the inset interval is a point: with radius 10 both tests
    of the x axis fire, the position is clamped from -1 to 0 and the velocity
    component, negated twice, is what it was. *)
Lemma tick_clamps_without_negating :
  coord X (SphereSpec.position
             (exec (Sphere.updatePosition 0)
                   (SphereSpec.world 10 1 (mkvec (-1) 0 0) (mkvec 1 0 0)))) = -1 /\
  coord X (SphereSpec.position
             (exec (Sphere.tick 0)
                   (SphereSpec.world 10 1 (mkvec (-1) 0 0) (mkvec 1 0 0)))) = -10 + 10 /\
  coord X (SphereSpec.velocity
             (exec (Sphere.tick 0)
                   (SphereSpec.world 10 1 (mkvec (-1) 0 0) (mkvec 1 0 0)))) <>
  - coord X (SphereSpec.velocity
               (exec (Sphere.updatePosition 0)
                     (SphereSpec.world 10 1 (mkvec (-1) 0 0) (mkvec 1 0 0)))).
Proof.
  destruct (sphere_world_no_time 10 1 (mkvec (-1) 0 0) (mkvec 1 0 0)) as [Hv Hp].
  destruct (sphere_tick_axis (fst (SphereSpec.world 10 1 (mkvec (-1) 0 0) (mkvec 1 0 0)))
                             (snd (SphereSpec.world 10 1 (mkvec (-1) 0 0) (mkvec 1 0 0))) 0 X)
    as [Hp2 Hv2].
  change (fst (SphereSpec.world 10 1 (mkvec (-1) 0 0) (mkvec 1 0 0)),
          snd (SphereSpec.world 10 1 (mkvec (-1) 0 0) (mkvec 1 0 0)))
    with (SphereSpec.world 10 1 (mkvec (-1) 0 0) (mkvec 1 0 0)) in Hp2, Hv2.
  rewrite Hp2, Hv2, Hp, Hv.
  cbv [SphereSpec.world snd Sphere._radius coord c0].
  rewrite SphereFacts.reflect_twice by lra.
  cbv [fst snd]. repeat split; lra.
Qed.

(** ** A sphere on a face of the inset box *)

(** C10, as the code of src/Sphere.js has it: the tests are not strict, so a
    tick whose integration step leaves a position component exactly on an
    inset bound (of a proper inset interval) negates the velocity component
    of that axis and leaves the position component where it is, although
    nothing crossed the face.  In particular a tick of no duration negates
    the component of a sphere that lies on a bound. *)
Theorem tick_reflects_position_on_bound :
  forall (h : heap) (s : Sphere.Sphere) (a : axis),
    Sphere._radius s < 10 ->
    let lo := -10 + Sphere._radius s in
    let hi := 10 - Sphere._radius s in
    (forall dt,
       let w1 := exec (Sphere.updatePosition dt) (h, s) in
       let w2 := exec (Sphere.tick dt) (h, s) in
       coord a (SphereSpec.position w1) = lo \/ coord a (SphereSpec.position w1) = hi ->
       coord a (SphereSpec.velocity w2) = - coord a (SphereSpec.velocity w1) /\
       coord a (SphereSpec.position w2) = coord a (SphereSpec.position w1)) /\
    (SphereSpec.wf (h, s) ->
     coord a (SphereSpec.position (h, s)) = lo \/ coord a (SphereSpec.position (h, s)) = hi ->
     let w2 := exec (Sphere.tick 0) (h, s) in
     coord a (SphereSpec.velocity w2) = - coord a (SphereSpec.velocity (h, s)) /\
     coord a (SphereSpec.position w2) = coord a (SphereSpec.position (h, s))).
Proof.
  intros h s a Hr lo hi.
  assert (G : forall dt,
       let w1 := exec (Sphere.updatePosition dt) (h, s) in
       let w2 := exec (Sphere.tick dt) (h, s) in
       coord a (SphereSpec.position w1) = lo \/ coord a (SphereSpec.position w1) = hi ->
       coord a (SphereSpec.velocity w2) = - coord a (SphereSpec.velocity w1) /\
       coord a (SphereSpec.position w2) = coord a (SphereSpec.position w1)).
  { intros dt w1 w2 C.
    destruct (sphere_tick_axis h s dt a) as [Hp Hv]. fold w1 w2 lo hi in Hp, Hv.
    assert (C' : coord a (SphereSpec.position w1) <= lo \/ coord a (SphereSpec.position w1) >= hi)
      by (destruct C as [C|C]; rewrite C; [left|right]; lra).
    destruct (SphereFacts.reflect_clamped lo hi (coord a (SphereSpec.position w1))
                (coord a (SphereSpec.velocity w1))) as (E & El & Eh);
      [subst lo hi; lra | exact C' |].
    rewrite Hp, Hv. split; [exact E|].
    destruct C as [C|C]; [rewrite El | rewrite Eh]; lra. }
  split; [exact G|].
  intros Hwf C w2.
  destruct (SphereFacts.sphere_updatePosition_spec h s 0 Hwf) as (Hs & Hv & Hp & _).
  assert (E1 : SphereSpec.velocity (exec (Sphere.updatePosition 0) (h, s)) =
               SphereSpec.velocity (h, s)).
  { unfold SphereSpec.velocity, deref. rewrite Hs. cbv [Sphere._velocity snd] in *.
    rewrite Hv. apply new_velocity_no_time. }
  assert (E2 : SphereSpec.position (exec (Sphere.updatePosition 0) (h, s)) =
               SphereSpec.position (h, s)).
  { unfold SphereSpec.position, deref. rewrite Hs. cbv [Sphere._position snd] in *.
    rewrite Hp. apply vec_eq; simpl; ring. }
  specialize (G 0). cbv zeta in G. rewrite E1, E2 in G. exact (G C).
Qed.

Lemma tick_reflects_position_on_bound_witness :
  Sphere._radius (snd (SphereSpec.world 1 1 (mkvec (-9) 0 0) (mkvec 2 0 0))) < 10 /\
  SphereSpec.wf (SphereSpec.world 1 1 (mkvec (-9) 0 0) (mkvec 2 0 0)) /\
  coord X (SphereSpec.position (SphereSpec.world 1 1 (mkvec (-9) 0 0) (mkvec 2 0 0))) = -10 + 1 /\
  coord X (SphereSpec.position
             (exec (Sphere.updatePosition 0)
                   (SphereSpec.world 1 1 (mkvec (-9) 0 0) (mkvec 2 0 0)))) = -10 + 1 /\
  coord X (SphereSpec.velocity
             (exec (Sphere.tick 0) (SphereSpec.world 1 1 (mkvec (-9) 0 0) (mkvec 2 0 0)))) = -2 /\
  coord X (SphereSpec.velocity
             (exec (Sphere.tick 0) (SphereSpec.world 1 1 (mkvec (-9) 0 0) (mkvec 2 0 0)))) =
  - coord X (SphereSpec.velocity
               (exec (Sphere.updatePosition 0)
                     (SphereSpec.world 1 1 (mkvec (-9) 0 0) (mkvec 2 0 0)))).
Proof.
  assert (Hr : Sphere._radius (snd (SphereSpec.world 1 1 (mkvec (-9) 0 0) (mkvec 2 0 0))) < 10)
    by (cbv [SphereSpec.world snd Sphere._radius]; lra).
  pose proof (sphere_world_wf 1 1 (mkvec (-9) 0 0) (mkvec 2 0 0)) as Hwf.
  assert (Hc : coord X (SphereSpec.position
                          (SphereSpec.world 1 1 (mkvec (-9) 0 0) (mkvec 2 0 0))) = -10 + 1)
    by (cbv [SphereSpec.position SphereSpec.world deref fst snd cell Sphere._position coord c0];
        lra).
  assert (Hc1 : coord X (SphereSpec.position
             (exec (Sphere.updatePosition 0)
                   (SphereSpec.world 1 1 (mkvec (-9) 0 0) (mkvec 2 0 0)))) = -10 + 1).
  { rewrite (proj2 (sphere_world_no_time 1 1 (mkvec (-9) 0 0) (mkvec 2 0 0))).
    cbv [coord c0]. lra. }
  split; [exact Hr|]. split; [exact Hwf|]. split; [exact Hc|]. split; [exact Hc1|].
  destruct (tick_reflects_position_on_bound
              (fst (SphereSpec.world 1 1 (mkvec (-9) 0 0) (mkvec 2 0 0)))
              (snd (SphereSpec.world 1 1 (mkvec (-9) 0 0) (mkvec 2 0 0))) X Hr) as [A B].
  split.
  - exact (proj1 (B Hwf (or_introl Hc))).
  - exact (proj1 (A 0 (or_introl Hc1))).
Defined.

(** C10 fails as stated: a sphere on the lower x bound that moves inwards
    leaves the face during the tick and keeps the sign of its velocity
    component. *)
Lemma tick_keeps_velocity_off_the_face :
  coord X (SphereSpec.position (SphereSpec.world 1 1 (mkvec (-9) 0 0) (mkvec 1 0 0))) = -10 + 1 /\
  coord X (SphereSpec.velocity
             (exec (Sphere.tick 1) (SphereSpec.world 1 1 (mkvec (-9) 0 0) (mkvec 1 0 0)))) = 0.9 /\
  coord X (SphereSpec.velocity
             (exec (Sphere.updatePosition 1)
                   (SphereSpec.world 1 1 (mkvec (-9) 0 0) (mkvec 1 0 0)))) = 0.9 /\
  coord X (SphereSpec.velocity
             (exec (Sphere.tick 1) (SphereSpec.world 1 1 (mkvec (-9) 0 0) (mkvec 1 0 0)))) <>
  - coord X (SphereSpec.velocity
               (exec (Sphere.updatePosition 1)
                     (SphereSpec.world 1 1 (mkvec (-9) 0 0) (mkvec 1 0 0)))).
Proof.
  destruct (sphere_world_updatePosition 1 1 (mkvec (-9) 0 0) (mkvec 1 0 0) 1) as (Hv & Hp & _).
  destruct (sphere_tick_axis (fst (SphereSpec.world 1 1 (mkvec (-9) 0 0) (mkvec 1 0 0)))
                             (snd (SphereSpec.world 1 1 (mkvec (-9) 0 0) (mkvec 1 0 0))) 1 X)
    as [_ Hv2].
  change (fst (SphereSpec.world 1 1 (mkvec (-9) 0 0) (mkvec 1 0 0)),
          snd (SphereSpec.world 1 1 (mkvec (-9) 0 0) (mkvec 1 0 0)))
    with (SphereSpec.world 1 1 (mkvec (-9) 0 0) (mkvec 1 0 0)) in Hv2.
  rewrite Hv2, Hp, Hv, new_velocity_unit_time.
  cbv [SphereSpec.world SphereSpec.position deref fst snd cell Sphere._radius Sphere._position
       coord c0 vec3.vadd vec3.vscale].
  rewrite SphereFacts.reflect_inside by lra.
  cbv [snd]. repeat split; lra.
Qed.

(** ** Integration *)

(** C2, as the code has it.  In src/Sphere.js the velocity is first damped
    by the factor 0.9 ^ dt and accelerated by gravity / mass, and only then
    the position is displaced by the new velocity times dt.  In the draft of
    src/unnamed/part_003 the acceleration is (gravity + drag) / mass,
    [updateVelocity] adds acceleration times dt to the velocity, and the
    position is displaced by that new velocity times dt. *)
Theorem velocity_is_updated_before_position :
  (forall (h : heap) (s : Sphere.Sphere) (dt : R),
     SphereSpec.wf (h, s) ->
     let w1 := exec (Sphere.updatePosition dt) (h, s) in
     SphereSpec.velocity w1 =
       vec3.vadd (vec3.vscale (SphereSpec.velocity (h, s)) (Rpower 0.9 dt))
                 (vec3.vscale (vec3.vscale (mkvec 0 (-9.81 * SphereSpec.mass (h, s)) 0)
                                           (1 / SphereSpec.mass (h, s))) dt) /\
     SphereSpec.position w1 =
       vec3.vadd (SphereSpec.position (h, s)) (vec3.vscale (SphereSpec.velocity w1) dt)) /\
  (forall (h : heap) (s : Draft.Sphere) (dt : R),
     DraftSpec.wf (h, s) -> DraftSpec.cached s ->
     let v' := vec3.vadd (DraftSpec.velocity (h, s))
                         (vec3.vscale (DraftSpec.acceleration_of (h, s)) dt) in
     DraftSpec.velocity (exec (Draft.updateVelocity dt) (h, s)) = v' /\
     DraftSpec.position (exec (Draft.updatePosition dt) (h, s)) =
       vec3.vadd (DraftSpec.position (h, s)) (vec3.vscale v' dt)).
Proof.
  split.
  - intros h s dt Hwf w1. subst w1.
    destruct (SphereFacts.sphere_updatePosition_spec h s dt Hwf) as (Hs & Hv & Hp & _).
    unfold SphereSpec.velocity, SphereSpec.position, SphereSpec.mass, deref.
    rewrite Hs. cbn [Sphere._velocity Sphere._position Sphere._mass snd fst].
    rewrite Hv, Hp. split; reflexivity.
  - intros h s dt Hwf Hc v'. subst v'.
    destruct (DraftFacts.draft_updatePosition_spec h s dt Hwf) as (Hs & _ & Hp & _).
    destruct (DraftFacts.draft_updateVelocity_spec h s dt (proj1 (proj2 Hwf)))
      as (_ & Hs' & Hv' & _).
    rewrite <- (DraftFacts.raw_acceleration_cached h s Hc).
    unfold DraftSpec.velocity, DraftSpec.position, deref.
    rewrite Hs, Hs'. cbn [Draft._velocity Draft._position snd fst].
    rewrite Hv', Hp. split; reflexivity.
Qed.

Lemma velocity_is_updated_before_position_witness :
  SphereSpec.wf (SphereSpec.world 1 1 (mkvec 0 5 0) vec3.vzero) /\
  DraftSpec.wf (DraftSpec.world 1 0 (mkvec 0 5 0) vec3.vzero) /\
  DraftSpec.cached (snd (DraftSpec.world 1 0 (mkvec 0 5 0) vec3.vzero)) /\
  coord Y (SphereSpec.position
             (exec (Sphere.updatePosition 0.1)
                   (SphereSpec.world 1 1 (mkvec 0 5 0) vec3.vzero))) = 4.9019 /\
  coord Y (DraftSpec.position
             (exec (Draft.updatePosition 0.1)
                   (DraftSpec.world 1 0 (mkvec 0 5 0) vec3.vzero))) = 4.9019.
Proof.
  pose proof (sphere_world_wf 1 1 (mkvec 0 5 0) vec3.vzero) as W1.
  pose proof (draft_world_wf 1 0 (mkvec 0 5 0) vec3.vzero) as W2.
  pose proof (draft_world_cached 1 0 (mkvec 0 5 0) vec3.vzero) as W3.
  split; [exact W1|]. split; [exact W2|]. split; [exact W3|].
  destruct velocity_is_updated_before_position as [A B]. split.
  - destruct (A (fst (SphereSpec.world 1 1 (mkvec 0 5 0) vec3.vzero))
                (snd (SphereSpec.world 1 1 (mkvec 0 5 0) vec3.vzero)) 0.1 W1) as [Hv Hp].
    change (fst (SphereSpec.world 1 1 (mkvec 0 5 0) vec3.vzero),
            snd (SphereSpec.world 1 1 (mkvec 0 5 0) vec3.vzero))
      with (SphereSpec.world 1 1 (mkvec 0 5 0) vec3.vzero) in Hv, Hp.
    rewrite Hp, Hv.
    cbv [SphereSpec.world SphereSpec.position SphereSpec.velocity SphereSpec.mass deref
         fst snd cell Sphere._position Sphere._velocity Sphere._mass
         coord c0 c1 c2 vec3.vadd vec3.vscale vec3.vzero].
    lra.
  - destruct (B (fst (DraftSpec.world 1 0 (mkvec 0 5 0) vec3.vzero))
                (snd (DraftSpec.world 1 0 (mkvec 0 5 0) vec3.vzero)) 0.1 W2 W3) as [_ Hp].
    change (fst (DraftSpec.world 1 0 (mkvec 0 5 0) vec3.vzero),
            snd (DraftSpec.world 1 0 (mkvec 0 5 0) vec3.vzero))
      with (DraftSpec.world 1 0 (mkvec 0 5 0) vec3.vzero) in Hp.
    rewrite Hp.
    unfold DraftSpec.acceleration_of.
    replace (DraftSpec.speed (DraftSpec.world 1 0 (mkvec 0 5 0) vec3.vzero)) with 0
      by reflexivity.
    rewrite drag_at_rest.
    cbv [DraftSpec.world DraftSpec.position DraftSpec.velocity DraftSpec.mass deref
         fst snd cell Draft._position Draft._velocity Draft._mass Draft.GRAVITY
         coord c0 c1 c2 vec3.vadd vec3.vscale vec3.vzero].
    lra.
Defined.

Lemma vlength_unit_x : vec3.vlength (mkvec 1 0 0) = 1.
Proof.
  unfold vec3.vlength; cbn [c0 c1 c2].
  replace (1 * 1 + 0 * 0 + 0 * 0) with 1 by ring. apply sqrt_1.
Qed.

Lemma vnormalize_unit_x : vec3.vnormalize (mkvec 1 0 0) = mkvec 1 0 0.
Proof.
  unfold vec3.vnormalize; cbn [c0 c1 c2].
  replace (1 * 1 + 0 * 0 + 0 * 0) with 1 by ring. rewrite sqrt_1.
  destruct (Rlt_dec 0 1) as [_|N]; [|exfalso; lra].
  apply vec_eq; simpl; lra.
Qed.

Lemma sphere_world_updateVelocity r m p v dt :
  SphereSpec.velocity (exec (Sphere.updateVelocity dt) (SphereSpec.world r m p v)) =
  SphereSpec.new_velocity v m dt.
Proof.
  unfold SphereSpec.world.
  match goal with |- context [exec _ (?h, ?s)] =>
    destruct (SphereFacts.sphere_updateVelocity_spec h s dt) as (_ & Hs & Hv & _)
  end.
  { cbv [next Sphere._velocity]. lia. }
  unfold SphereSpec.velocity, deref. rewrite Hs.
  cbn [Sphere._velocity snd] in *. rewrite Hv. reflexivity.
Qed.

(** C2 fails on src/Sphere.js: its update of the velocity is not the step
    [velocity += ((gravity + drag) / mass) * dt] of the spec, whatever the
    constant of the drag force is.  From velocity (1, 0, 0) the x component
    becomes 0.9 after one second and 0.81 after two; the step of the spec
    gives 1 - k and 1 - 2 k. *)
Lemma sphere_velocity_update_is_no_drag_force :
  ~ exists k : R,
      SphereSpec.velocity
        (exec (Sphere.updateVelocity 1) (SphereSpec.world 1 1 vec3.vzero (mkvec 1 0 0))) =
      euler_velocity k (-9.81) (mkvec 1 0 0) 1 1 1 /\
      SphereSpec.velocity
        (exec (Sphere.updateVelocity 2) (SphereSpec.world 1 1 vec3.vzero (mkvec 1 0 0))) =
      euler_velocity k (-9.81) (mkvec 1 0 0) 1 1 2.
Proof.
  intros [k [H1 H2]].
  rewrite sphere_world_updateVelocity in H1, H2.
  apply (f_equal c0) in H1. apply (f_equal c0) in H2.
  unfold SphereSpec.new_velocity, euler_velocity, DraftSpec.drag in H1, H2.
  rewrite vlength_unit_x, vnormalize_unit_x in H1, H2.
  replace 2 with (1 + 1) in H2 at 1 by ring.
  rewrite Rpower_plus in H2. rewrite Rpower_1 in H1, H2 by lra.
  cbn [c0 c1 c2 vec3.vadd vec3.vscale] in H1, H2.
  lra.
Qed.

(** The draft scales the array of the velocity in place: after
    [updatePosition] the sphere's velocity is the new velocity times dt.
    From rest, a tenth of a second leaves -0.0981 where [updateVelocity]
    had computed -0.981. *)
Lemma draft_updatePosition_scales_velocity :
  coord Y (DraftSpec.velocity
             (exec (Draft.updateVelocity 0.1)
                   (DraftSpec.world 1 0 (mkvec 0 5 0) vec3.vzero))) = -0.981 /\
  coord Y (DraftSpec.velocity
             (exec (Draft.updatePosition 0.1)
                   (DraftSpec.world 1 0 (mkvec 0 5 0) vec3.vzero))) = -0.0981.
Proof.
  pose proof (draft_world_wf 1 0 (mkvec 0 5 0) vec3.vzero) as W.
  destruct (DraftFacts.draft_updateVelocity_spec
              (fst (DraftSpec.world 1 0 (mkvec 0 5 0) vec3.vzero))
              (snd (DraftSpec.world 1 0 (mkvec 0 5 0) vec3.vzero)) 0.1 (proj1 (proj2 W)))
    as (_ & Hs1 & Hv1 & _).
  destruct (DraftFacts.draft_updatePosition_spec
              (fst (DraftSpec.world 1 0 (mkvec 0 5 0) vec3.vzero))
              (snd (DraftSpec.world 1 0 (mkvec 0 5 0) vec3.vzero)) 0.1 W)
    as (Hs2 & Hv2 & _).
  change (fst (DraftSpec.world 1 0 (mkvec 0 5 0) vec3.vzero),
          snd (DraftSpec.world 1 0 (mkvec 0 5 0) vec3.vzero))
    with (DraftSpec.world 1 0 (mkvec 0 5 0) vec3.vzero) in Hs1, Hv1, Hs2, Hv2.
  unfold DraftSpec.velocity, deref. rewrite Hs1, Hs2.
  cbn [Draft._velocity]. rewrite Hv1, Hv2.
  rewrite (DraftFacts.raw_acceleration_cached _ _
             (draft_world_cached 1 0 (mkvec 0 5 0) vec3.vzero)).
  unfold DraftSpec.acceleration_of.
  change (fst (DraftSpec.world 1 0 (mkvec 0 5 0) vec3.vzero),
          snd (DraftSpec.world 1 0 (mkvec 0 5 0) vec3.vzero))
    with (DraftSpec.world 1 0 (mkvec 0 5 0) vec3.vzero).
  replace (DraftSpec.speed (DraftSpec.world 1 0 (mkvec 0 5 0) vec3.vzero)) with 0
    by reflexivity.
  rewrite drag_at_rest.
  cbv [DraftSpec.world DraftSpec.mass fst snd cell Draft._mass Draft.GRAVITY
       Draft._velocity Draft._position
       coord c0 c1 c2 vec3.vadd vec3.vscale vec3.vzero].
  split; lra.
Qed.

(** ** The force of drag *)

Lemma draft_dragForce_value h s :
  DraftSpec.cached s ->
  deref (exec Draft.dragForce (h, s)) (result Draft.dragForce (h, s)) =
  DraftSpec.drag Draft.HALFCDRHO (Draft._speed s) (Draft._radius s) (cell h (Draft._velocity s)).
Proof.
  intros [Hrq Hsq]. destruct (DraftFacts.draft_dragForce_spec h s) as (Hr & _ & Hcell & _).
  unfold deref. rewrite Hcell, DraftFacts.drag_scale_negate, Hrq, Hsq. reflexivity.
Qed.

(** A moving sphere of the draft: the force opposes the velocity. *)
Lemma dragForce_opposes_velocity :
  deref (exec Draft.dragForce (DraftSpec.world 1 1 vec3.vzero (mkvec 1 0 0)))
        (result Draft.dragForce (DraftSpec.world 1 1 vec3.vzero (mkvec 1 0 0))) =
  mkvec (- 0.90438598515) 0 0.
Proof.
  pose proof (draft_dragForce_value
                (fst (DraftSpec.world 1 1 vec3.vzero (mkvec 1 0 0)))
                (snd (DraftSpec.world 1 1 vec3.vzero (mkvec 1 0 0)))
                (draft_world_cached 1 1 vec3.vzero (mkvec 1 0 0))) as H.
  change (fst (DraftSpec.world 1 1 vec3.vzero (mkvec 1 0 0)),
          snd (DraftSpec.world 1 1 vec3.vzero (mkvec 1 0 0)))
    with (DraftSpec.world 1 1 vec3.vzero (mkvec 1 0 0)) in H.
  rewrite H.
  cbv [DraftSpec.world fst snd cell Draft._velocity Draft._speed Draft._radius].
  unfold DraftSpec.drag, Draft.HALFCDRHO. rewrite vnormalize_unit_x.
  apply vec_eq; simpl; lra.
Qed.



Lemma draft_rest_acceleration h s :
  Draft.speedSq s = 0 -> Draft._mass s <> 0 ->
  DraftSpec.raw_acceleration h s = mkvec 0 (-9.81) 0.
Proof.
  intros Hs Hm. unfold DraftSpec.raw_acceleration, Draft.GRAVITY. rewrite Hs.
  generalize (vec3.vnormalize (cell h (Draft._velocity s))). intros u.
  replace 1.0 with 1 by lra.
  assert (I : Draft._mass s * (1 / Draft._mass s) = 1) by (field; exact Hm).
  apply vec_eq; cbn [c0 c1 c2 vec3.vadd vec3.vscale vec3.vnegate].
  - ring.
  - replace ((-1 * 9.81 * Draft._mass s +
              - c1 u * (Draft.HALFCDRHO * 0 * Draft.radiusSq s)) * (1 / Draft._mass s))
      with (-1 * 9.81 * (Draft._mass s * (1 / Draft._mass s))) by ring.
    rewrite I. lra.
  - ring.
Qed.

Lemma sphere_acceleration_spec h s :
  let w' := exec Sphere.acceleration (h, s) in
  let a := result Sphere.acceleration (h, s) in
  a = next h /\ snd w' = s /\
  cell (fst w') a = vec3.vscale (mkvec 0 (Sphere.GRAVITY * Sphere._mass s) 0) (1 / Sphere._mass s) /\
  (forall r, (r < next h)%nat -> cell (fst w') r = cell h r).
Proof.
  destruct h as [c n], s as [r p v sp col m].
  SphereFacts.run. eqb_simpl. repeat split.
  intros r0 H1. eqb_simpl. reflexivity.
Qed.






(** ** Radius, mass and colour *)


(** C5, as the code has it.  In the draft of src/unnamed/part_003 every
    assignment of the radius, by the setter or by the constructor, sets the
    mass to 0.5 radius^2 (for any radius), and a tick keeps radius and mass.
    In src/Sphere.js the setter of the radius stores the radius and leaves
    the mass alone, and the constructor sets the mass to 1. *)
Theorem mass_follows_radius_in_the_draft_only :
  (forall (h : heap) (s : Draft.Sphere) (r : R),
     let w' := exec (Draft.set_radius r) (h, s) in
     DraftSpec.radius w' = r /\ DraftSpec.mass w' = 0.5 * (r * r)) /\
  (forall (d : Draft.Draws) (h : heap) (s : Draft.Sphere) (radius speed : option R),
     let w' := exec (Draft.constructor d radius speed) (h, s) in
     DraftSpec.radius w' = match radius with Some r => r | None => Draft.random_radius d end /\
     DraftSpec.mass w' = 0.5 * (DraftSpec.radius w' * DraftSpec.radius w')) /\
  (forall (h : heap) (s : Draft.Sphere) (dt : R),
     let w' := exec (Draft.tick dt) (h, s) in
     DraftSpec.radius w' = Draft._radius s /\ DraftSpec.mass w' = Draft._mass s) /\
  (forall (h : heap) (s : Sphere.Sphere) (r : R),
     let w' := exec (Sphere.set_radius r) (h, s) in
     SphereSpec.radius w' = r /\ SphereSpec.mass w' = Sphere._mass s) /\
  (forall (d : Sphere.Draws) (h : heap) (s : Sphere.Sphere) (radius speed : option R),
     let w' := exec (Sphere.constructor d radius speed) (h, s) in
     SphereSpec.radius w' = match radius with Some r => r | None => Sphere.random_radius d * 2 end /\
     SphereSpec.mass w' = 1).
Proof.
  split; [|split; [|split; [|split]]].
  - intros h s r w'. subst w'.
    destruct (DraftFacts.draft_set_radius_spec h s r) as (Hs & _).
    unfold DraftSpec.radius, DraftSpec.mass. rewrite Hs.
    cbn [Draft._mass Draft._radius]. split; lra.
  - intros d h s radius speed w'. subst w'.
    destruct (DraftFacts.draft_constructor_spec d h s radius speed) as (Hs & _).
    unfold DraftSpec.mass, DraftSpec.radius. rewrite Hs.
    cbn [Draft._mass Draft._radius]. split; [reflexivity | lra].
  - intros h s dt w'. apply draft_tick_keeps_radius_and_mass.
  - intros h s r w'. subst w'.
    unfold SphereSpec.radius, SphereSpec.mass.
    rewrite SphereFacts.sphere_set_radius_spec. split; reflexivity.
  - intros d h s radius speed w'. subst w'.
    destruct (SphereFacts.sphere_constructor_spec d h s radius speed) as (Hs & _).
    unfold SphereSpec.radius, SphereSpec.mass. rewrite Hs. split; reflexivity.
Qed.

(** C5 fails on src/Sphere.js: a sphere constructed with radius 2 has mass
    1, not 0.5 * 2^2 = 2; and assigning radius 2 to a sphere of mass 1
    leaves the mass at 1. *)
Lemma sphere_mass_ignores_radius :
  (SphereSpec.radius (exec (Sphere.constructor SphereSpec.draws (Some 2) None)
                           (SphereSpec.world 0 0 vec3.vzero vec3.vzero)) = 2 /\
   SphereSpec.mass (exec (Sphere.constructor SphereSpec.draws (Some 2) None)
                         (SphereSpec.world 0 0 vec3.vzero vec3.vzero)) = 1 /\
   SphereSpec.mass (exec (Sphere.constructor SphereSpec.draws (Some 2) None)
                         (SphereSpec.world 0 0 vec3.vzero vec3.vzero)) <> 0.5 * (2 * 2)) /\
  (SphereSpec.radius (exec (Sphere.set_radius 2)
                           (SphereSpec.world 1 1 vec3.vzero vec3.vzero)) = 2 /\
   SphereSpec.mass (exec (Sphere.set_radius 2)
                         (SphereSpec.world 1 1 vec3.vzero vec3.vzero)) = 1 /\
   SphereSpec.mass (exec (Sphere.set_radius 2)
                         (SphereSpec.world 1 1 vec3.vzero vec3.vzero)) <> 0.5 * (2 * 2)).
Proof.
  unfold SphereSpec.world. split.
  - match goal with |- context [exec _ (?h, ?s)] =>
      destruct (SphereFacts.sphere_constructor_spec SphereSpec.draws h s (Some 2) None)
        as (Hs & _)
    end.
    unfold SphereSpec.radius, SphereSpec.mass. rewrite Hs.
    cbn [Sphere._radius Sphere._mass]. repeat split; lra.
  - unfold SphereSpec.radius, SphereSpec.mass.
    rewrite SphereFacts.sphere_set_radius_spec.
    cbn [snd Sphere._radius Sphere._mass]. repeat split; lra.
Qed.

Lemma draft_set_radius_color h s r :
  let w' := exec (Draft.set_radius r) (h, s) in
  let m := r * r * 0.5 in
  DraftSpec.color w' =
  mkvec (255.0 * m) (255.0 * (1.0 - Rabs (1.0 - 2.0 * m))) (255.0 * (1.0 - m)).
Proof.
  intros w' m. subst w' m.
  destruct (DraftFacts.draft_set_radius_spec h s r) as (Hs & Hc & _).
  unfold DraftSpec.color, deref. rewrite Hs. cbn [Draft._color]. exact Hc.
Qed.

(** C6, as the code has it: assigning the radius recomputes the colour from
    the new mass by the three formulas, without clamping; the components lie
    within [0, 255] when the mass is at most 1, that is when radius^2 <= 2. *)
Theorem color_follows_mass_unclamped :
  forall (h : heap) (s : Draft.Sphere) (r : R),
    let w' := exec (Draft.set_radius r) (h, s) in
    let m := DraftSpec.mass w' in
    m = 0.5 * (r * r) /\
    DraftSpec.color w' =
      mkvec (255 * m) (255 * (1 - Rabs (1 - 2 * m))) (255 * (1 - m)) /\
    (r * r <= 2 -> forall a : axis, 0 <= coord a (DraftSpec.color w') <= 255).
Proof.
  intros h s r w' m.
  assert (Hm : m = 0.5 * (r * r)).
  { subst m w'. destruct (DraftFacts.draft_set_radius_spec h s r) as (Hs & _).
    unfold DraftSpec.mass. rewrite Hs. cbn [Draft._mass]. lra. }
  assert (Hc : DraftSpec.color w' =
               mkvec (255 * m) (255 * (1 - Rabs (1 - 2 * m))) (255 * (1 - m))).
  { subst w'. rewrite draft_set_radius_color, Hm.
    replace (r * r * 0.5) with (0.5 * (r * r)) by lra.
    replace (1.0 - 2.0 * (0.5 * (r * r))) with (1 - 2 * (0.5 * (r * r))) by lra.
    apply vec_eq; cbn [c0 c1 c2]; lra. }
  split; [exact Hm|]. split; [exact Hc|].
  intros Hr a. rewrite Hc.
  assert (H0 : 0 <= r * r) by nra.
  assert (Habs : 0 <= Rabs (1 - 2 * m) <= 1).
  { split; [apply Rabs_pos|]. apply Rabs_le. lra. }
  destruct a; cbn [coord c0 c1 c2]; lra.
Qed.

Lemma color_follows_mass_unclamped_witness :
  1 * 1 <= 2 /\
  0 <= coord Y (DraftSpec.color
                  (exec (Draft.set_radius 1) (DraftSpec.world 2 0 vec3.vzero vec3.vzero)))
    <= 255.
Proof.
  assert (H : 1 * 1 <= 2) by lra.
  split; [exact H|].
  exact (proj2 (proj2 (color_follows_mass_unclamped
                         (fst (DraftSpec.world 2 0 vec3.vzero vec3.vzero))
                         (snd (DraftSpec.world 2 0 vec3.vzero vec3.vzero)) 1)) H Y).
Defined.

(** C6 fails for a radius whose mass exceeds 1: radius 2 gives mass 2 and
    the colour (510, -510, -255), no component of which is within
    [0, 255]. *)
Lemma color_is_not_clamped :
  DraftSpec.color (exec (Draft.set_radius 2) (DraftSpec.world 1 0 vec3.vzero vec3.vzero)) =
    mkvec 510 (-510) (-255) /\
  ~ (0 <= coord X (DraftSpec.color
                     (exec (Draft.set_radius 2) (DraftSpec.world 1 0 vec3.vzero vec3.vzero)))
       <= 255).
Proof.
  unfold DraftSpec.world. rewrite draft_set_radius_color.
  assert (E : mkvec (255.0 * (2 * 2 * 0.5)) (255.0 * (1.0 - Rabs (1.0 - 2.0 * (2 * 2 * 0.5))))
                    (255.0 * (1.0 - 2 * 2 * 0.5)) = mkvec 510 (-510) (-255)).
  { replace (1.0 - 2.0 * (2 * 2 * 0.5)) with (-3) by lra.
    replace (Rabs (-3)) with 3
      by (unfold Rabs; destruct (Rcase_abs (-3)); lra).
    apply vec_eq; cbn [c0 c1 c2]; lra. }
  rewrite E. split; [reflexivity|]. cbn [coord c0]. lra.
Qed.

(** ** Failure *)

(** C7, as the code has it: every radius is accepted.  Neither class tests
    the radius it is given.  In src/Sphere.js the setter stores the radius,
    whatever it is, and changes nothing else; the constructor stores the
    radius it is given and draws the position with the scale 10 - radius.
    In the draft of src/unnamed/part_003 the setter stores the radius and
    derives from it the cached square, the mass 0.5 radius^2 and the
    colour, in a new array; so does the constructor. *)
Theorem radius_assignment_stores_any_radius :
  (forall (h : heap) (s : Sphere.Sphere) (r : R),
     exec (Sphere.set_radius r) (h, s) =
     (h, Sphere.mkSphere r (Sphere._position s) (Sphere._velocity s) (Sphere._speed s)
                         (Sphere._color s) (Sphere._mass s))) /\
  (forall (d : Sphere.Draws) (h : heap) (s : Sphere.Sphere) (r : R) (speed : option R),
     let w' := exec (Sphere.constructor d (Some r) speed) (h, s) in
     SphereSpec.radius w' = r /\
     SphereSpec.position w' = Sphere.random_position d (10 - r)) /\
  (forall (h : heap) (s : Draft.Sphere) (r : R),
     let w' := exec (Draft.set_radius r) (h, s) in
     snd w' = Draft.mkSphere r (r * r) (r * r * 0.5) (next h) (Draft._position s)
                             (Draft._velocity s) (Draft._speed s) (Draft.speedSq s) /\
     DraftSpec.color w' =
       mkvec (255.0 * (r * r * 0.5)) (255.0 * (1.0 - Rabs (1.0 - 2.0 * (r * r * 0.5))))
             (255.0 * (1.0 - r * r * 0.5)) /\
     (forall a : ref, (a < next h)%nat -> cell (fst w') a = cell h a)) /\
  (forall (d : Draft.Draws) (h : heap) (s : Draft.Sphere) (r : R) (speed : option R),
     let w' := exec (Draft.constructor d (Some r) speed) (h, s) in
     DraftSpec.radius w' = r /\ Draft.radiusSq (snd w') = r * r /\
     DraftSpec.mass w' = r * r * 0.5 /\
     DraftSpec.position w' = Draft.random_position d (1 - r)).
Proof.
  split; [|split; [|split]].
  - intros h s r. apply SphereFacts.sphere_set_radius_spec.
  - intros d h s r speed. cbv zeta.
    destruct (SphereFacts.sphere_constructor_spec d h s (Some r) speed) as (Hs & Hp & _).
    unfold SphereSpec.radius, SphereSpec.position, deref. rewrite Hs.
    cbn [Sphere._radius Sphere._position]. split; [reflexivity | exact Hp].
  - intros h s r. cbv zeta.
    destruct (DraftFacts.draft_set_radius_spec h s r) as (Hs & Hc & Hf & _).
    split; [exact Hs|]. split; [|exact Hf].
    unfold DraftSpec.color, deref. rewrite Hs. cbn [Draft._color]. exact Hc.
  - intros d h s r speed. cbv zeta.
    destruct (DraftFacts.draft_constructor_spec d h s (Some r) speed) as (Hs & Hp & _).
    unfold DraftSpec.radius, DraftSpec.mass, DraftSpec.position, deref. rewrite Hs.
    cbn [Draft._radius Draft.radiusSq Draft._mass Draft._position].
    split; [reflexivity|]. split; [reflexivity|]. split; [reflexivity | exact Hp].
Qed.

(** C7 fails: the radius -1 is assigned like any other.  In src/Sphere.js
    the sphere of radius 1 has the radius -1 after the assignment; so has
    the sphere of the draft, with the mass 0.5 and the cached square 1
    derived from -1. *)
Lemma negative_radius_is_accepted :
  -1 <= 0 /\
  exec (Sphere.set_radius (-1)) (SphereSpec.world 1 1 vec3.vzero vec3.vzero) =
    SphereSpec.world (-1) 1 vec3.vzero vec3.vzero /\
  complete (Sphere.set_radius (-1)) (SphereSpec.world 1 1 vec3.vzero vec3.vzero) =
    Normal tt (SphereSpec.world (-1) 1 vec3.vzero vec3.vzero) /\
  DraftSpec.radius (exec (Draft.set_radius (-1)) (DraftSpec.world 1 0 vec3.vzero vec3.vzero)) = -1 /\
  DraftSpec.mass (exec (Draft.set_radius (-1)) (DraftSpec.world 1 0 vec3.vzero vec3.vzero)) = 0.5 /\
  Draft.radiusSq (snd (exec (Draft.set_radius (-1)) (DraftSpec.world 1 0 vec3.vzero vec3.vzero))) = 1.
Proof.
  split; [lra|]. split; [reflexivity|]. split; [reflexivity|].
  destruct (DraftFacts.draft_set_radius_spec
              (fst (DraftSpec.world 1 0 vec3.vzero vec3.vzero))
              (snd (DraftSpec.world 1 0 vec3.vzero vec3.vzero)) (-1)) as (Hs & _).
  change (fst (DraftSpec.world 1 0 vec3.vzero vec3.vzero),
          snd (DraftSpec.world 1 0 vec3.vzero vec3.vzero))
    with (DraftSpec.world 1 0 vec3.vzero vec3.vzero) in Hs.
  unfold DraftSpec.radius, DraftSpec.mass. rewrite Hs.
  cbn [Draft._radius Draft._mass Draft.radiusSq].
  split; [reflexivity|]. split; lra.
Qed.

(** ** The cached speed *)

Lemma sphere_updateVelocity_speed h s dt :
  SphereSpec.speed (exec (Sphere.updateVelocity dt) (h, s)) =
  vec3.vlength (SphereSpec.velocity (exec (Sphere.updateVelocity dt) (h, s))).
Proof.
  destruct h as [c n], s as [r p v sp col m].
  SphereFacts.run. apply speed_setter_abs, vlength_nonneg.
Qed.

Lemma sphere_tick_speed h s dt :
  SphereSpec.speed (exec (Sphere.tick dt) (h, s)) =
  vec3.vlength (SphereSpec.velocity (exec (Sphere.tick dt) (h, s))).
Proof.
  rewrite SphereFacts.sphere_tick_unfold.
  destruct (exec (Sphere.updatePosition dt) (h, s)) as [h1 s1].
  apply SphereFacts.sphere_handleCollisions_object.
Qed.

Lemma draft_set_velocity_speed h s v :
  let w' := exec (Draft.set_velocity v) (h, s) in
  DraftSpec.velocity w' = cell h v /\
  DraftSpec.speed w' = vec3.vlength (cell h v) /\
  Draft.speedSq (snd w') = DraftSpec.speed w' * DraftSpec.speed w'.
Proof.
  destruct h as [c n], s as [r rq m col p v0 sp sq].
  DraftFacts.run. repeat split.
  apply speed_setter_abs, vlength_nonneg.
Qed.

Lemma draft_tick_speed h s dt :
  DraftSpec.speed (exec (Draft.tick dt) (h, s)) =
  vec3.vlength (DraftSpec.velocity (exec (Draft.tick dt) (h, s))).
Proof.
  rewrite DraftFacts.draft_tick_unfold.
  destruct (exec (Draft.updatePosition dt) (h, s)) as [h1 s1].
  apply DraftFacts.draft_handleCollisions_object.
Qed.

(** Where the cached speed is the length of the velocity: after the
    assignment of a velocity, after the constructor, [updateVelocity],
    [handleCollisions] and [tick] of src/Sphere.js, and after [tick] of the
    draft. *)
Lemma speed_after_assignments :
  (forall (h : heap) (s : Sphere.Sphere) (v : ref),
     let w' := exec (Sphere.set_velocity v) (h, s) in
     SphereSpec.velocity w' = cell h v /\
     SphereSpec.speed w' = vec3.vlength (cell h v)) /\
  (forall (d : Sphere.Draws) (h : heap) (s : Sphere.Sphere) (radius speed : option R),
     let w' := exec (Sphere.constructor d radius speed) (h, s) in
     SphereSpec.speed w' = vec3.vlength (SphereSpec.velocity w')) /\
  (forall (h : heap) (s : Sphere.Sphere) (dt : R),
     let w' := exec (Sphere.updateVelocity dt) (h, s) in
     SphereSpec.speed w' = vec3.vlength (SphereSpec.velocity w')) /\
  (forall (h : heap) (s : Sphere.Sphere) (dt : R) (b : option BoundingRange.t),
     let w' := exec (Sphere.handleCollisions dt b) (h, s) in
     SphereSpec.speed w' = vec3.vlength (SphereSpec.velocity w')) /\
  (forall (h : heap) (s : Sphere.Sphere) (dt : R),
     let w' := exec (Sphere.tick dt) (h, s) in
     SphereSpec.speed w' = vec3.vlength (SphereSpec.velocity w')) /\
  (forall (h : heap) (s : Draft.Sphere) (v : ref),
     let w' := exec (Draft.set_velocity v) (h, s) in
     DraftSpec.velocity w' = cell h v /\
     DraftSpec.speed w' = vec3.vlength (cell h v)) /\
  (forall (h : heap) (s : Draft.Sphere) (dt : R),
     let w' := exec (Draft.tick dt) (h, s) in
     DraftSpec.speed w' = vec3.vlength (DraftSpec.velocity w')).
Proof.
  split; [|split; [|split; [|split; [|split; [|split]]]]].
  - intros h s v w'. subst w'. rewrite SphereFacts.sphere_set_velocity_spec.
    unfold SphereSpec.velocity, SphereSpec.speed, deref. cbn [fst snd Sphere._velocity Sphere._speed].
    split; [reflexivity | apply speed_setter_abs, vlength_nonneg].
  - intros d h s radius speed w'. subst w'.
    destruct (SphereFacts.sphere_constructor_spec d h s radius speed) as (Hs & _ & Hv & _).
    unfold SphereSpec.velocity, SphereSpec.speed, deref. rewrite Hs.
    cbn [Sphere._velocity Sphere._speed]. rewrite Hv.
    apply speed_setter_abs, vlength_nonneg.
  - intros h s dt w'. apply sphere_updateVelocity_speed.
  - intros h s dt b w'. apply SphereFacts.sphere_handleCollisions_object.
  - intros h s dt w'. apply sphere_tick_speed.
  - intros h s v w'. destruct (draft_set_velocity_speed h s v) as (A & B & _).
    split; [exact A | exact B].
  - intros h s dt w'. apply draft_tick_speed.
Qed.

(** The constructor of the draft fills the array of the velocity after the
    assignment: the cached speed stays 0 whatever velocity is drawn. *)
Lemma draft_constructor_leaves_speed_stale :
  DraftSpec.speed
    (exec (Draft.constructor (Draft.mkDraws 0 0 (fun _ => vec3.vzero) (fun _ => mkvec 1 0 0))
                             (Some 1) (Some 1))
          (DraftSpec.world 0 0 vec3.vzero vec3.vzero)) = 0 /\
  vec3.vlength
    (DraftSpec.velocity
       (exec (Draft.constructor (Draft.mkDraws 0 0 (fun _ => vec3.vzero) (fun _ => mkvec 1 0 0))
                                (Some 1) (Some 1))
             (DraftSpec.world 0 0 vec3.vzero vec3.vzero))) = 1.
Proof.
  unfold DraftSpec.world.
  match goal with |- context [exec (Draft.constructor ?d _ _) (?h, ?s)] =>
    destruct (DraftFacts.draft_constructor_spec d h s (Some 1) (Some 1)) as (Hs & _ & Hv & _);
    destruct (DraftFacts.draft_constructor_wf d h s (Some 1) (Some 1)) as (_ & _ & H0)
  end.
  split; [exact H0|].
  unfold DraftSpec.velocity, deref. rewrite Hs. cbn [Draft._velocity]. rewrite Hv.
  cbn [Draft.random_velocity]. apply vlength_unit_x.
Qed.

Lemma vlength_vertical (y : R) : vec3.vlength (mkvec 0 y 0) = Rabs y.
Proof.
  unfold vec3.vlength. cbn [c0 c1 c2].
  replace (0 * 0 + y * y + 0 * 0) with (Rsqr y) by (unfold Rsqr; ring).
  apply sqrt_Rsqr_abs.
Qed.

(** The draft at rest in mid-air, a tenth of a second on: [updatePosition]
    leaves the velocity (0, -0.0981, 0), a tenth of the velocity
    (0, -0.981, 0) whose length the speed caches. *)
Lemma draft_updatePosition_leaves_speed_stale :
  DraftSpec.speed
    (exec (Draft.updatePosition 0.1) (DraftSpec.world 1 0 (mkvec 0 5 0) vec3.vzero)) = 0.981 /\
  vec3.vlength
    (DraftSpec.velocity
       (exec (Draft.updatePosition 0.1) (DraftSpec.world 1 0 (mkvec 0 5 0) vec3.vzero))) = 0.0981.
Proof.
  pose proof (draft_world_wf 1 0 (mkvec 0 5 0) vec3.vzero) as W.
  destruct (DraftFacts.draft_updatePosition_spec
              (fst (DraftSpec.world 1 0 (mkvec 0 5 0) vec3.vzero))
              (snd (DraftSpec.world 1 0 (mkvec 0 5 0) vec3.vzero)) 0.1 W) as (Hs & Hv & _).
  assert (A : DraftSpec.raw_acceleration
                (fst (DraftSpec.world 1 0 (mkvec 0 5 0) vec3.vzero))
                (snd (DraftSpec.world 1 0 (mkvec 0 5 0) vec3.vzero)) = mkvec 0 (-9.81) 0).
  { apply draft_rest_acceleration.
    - cbv [DraftSpec.world snd Draft.speedSq]. ring.
    - cbv [DraftSpec.world snd Draft._mass]. lra. }
  rewrite A in Hs, Hv.
  change (fst (DraftSpec.world 1 0 (mkvec 0 5 0) vec3.vzero),
          snd (DraftSpec.world 1 0 (mkvec 0 5 0) vec3.vzero))
    with (DraftSpec.world 1 0 (mkvec 0 5 0) vec3.vzero) in Hs, Hv.
  unfold DraftSpec.speed, DraftSpec.velocity, deref. rewrite Hs.
  cbn [Draft._speed Draft._velocity]. rewrite Hv.
  cbv [DraftSpec.world fst snd cell Draft._velocity].
  replace (vec3.vadd vec3.vzero (vec3.vscale (mkvec 0 (-9.81) 0) 0.1)) with (mkvec 0 (-0.981) 0)
    by (apply vec_eq; cbn [c0 c1 c2 vec3.vadd vec3.vscale vec3.vzero]; lra).
  replace (vec3.vscale (mkvec 0 (-0.981) 0) 0.1) with (mkvec 0 (-0.0981) 0)
    by (apply vec_eq; cbn [c0 c1 c2 vec3.vscale]; lra).
  rewrite !vlength_vertical.
  replace (Rabs (-0.981)) with 0.981
    by (unfold Rabs; destruct (Rcase_abs (-0.981)); lra).
  replace (Rabs (-0.0981)) with 0.0981
    by (unfold Rabs; destruct (Rcase_abs (-0.0981)); lra).
  split; [|reflexivity].
  apply Rmax_left. lra.
Qed.

Lemma draft_updateVelocity_speed h s dt :
  DraftSpec.speed (exec (Draft.updateVelocity dt) (h, s)) =
  vec3.vlength (DraftSpec.velocity (exec (Draft.updateVelocity dt) (h, s))).
Proof.
  destruct h as [c n], s as [r rq m col p v sp sq].
  DraftFacts.run. apply speed_setter_abs, vlength_nonneg.
Qed.

Lemma sphere_updatePosition_speed h s dt :
  SphereSpec.wf (h, s) ->
  SphereSpec.speed (exec (Sphere.updatePosition dt) (h, s)) =
  vec3.vlength (SphereSpec.velocity (exec (Sphere.updatePosition dt) (h, s))).
Proof.
  intros Hwf.
  destruct (SphereFacts.sphere_updatePosition_spec h s dt Hwf) as (Hs & Hv & _).
  unfold SphereSpec.speed, SphereSpec.velocity, deref. rewrite Hs.
  cbn [Sphere._speed Sphere._velocity]. rewrite Hv.
  apply speed_setter_abs, vlength_nonneg.
Qed.

(** C8, on the code.  Assigning a velocity stores it and sets the cached
    speed to its length, in both classes.  In src/Sphere.js the constructor,
    [updateVelocity], [updatePosition], [handleCollisions] and [tick] all
    leave the cached speed equal to the length of the velocity; so do
    [updateVelocity], [handleCollisions] and [tick] of the draft of
    src/unnamed/part_003.  The draft breaks the invariant twice, by writing
    into the array of the velocity after it has assigned it.  Its
    constructor leaves the cached speed 0 whatever vector it draws: for
    [new Sphere (1, 1)] and the draw (1, 0, 0) the speed is 0 and the
    velocity has length 1.  Its [updatePosition] leaves the speed of the
    velocity before the scaling: for the sphere at rest and dt = 0.1 the
    speed is 0.981 and the velocity has length 0.0981. *)
Theorem draft_leaves_the_cached_speed_stale :
  (forall (h : heap) (s : Sphere.Sphere) (v : ref),
     let w' := exec (Sphere.set_velocity v) (h, s) in
     SphereSpec.velocity w' = cell h v /\
     SphereSpec.speed w' = vec3.vlength (cell h v)) /\
  (forall (h : heap) (s : Draft.Sphere) (v : ref),
     let w' := exec (Draft.set_velocity v) (h, s) in
     DraftSpec.velocity w' = cell h v /\
     DraftSpec.speed w' = vec3.vlength (cell h v)) /\
  (forall (d : Sphere.Draws) (h : heap) (s : Sphere.Sphere) (radius speed : option R),
     let w' := exec (Sphere.constructor d radius speed) (h, s) in
     SphereSpec.speed w' = vec3.vlength (SphereSpec.velocity w')) /\
  (forall (h : heap) (s : Sphere.Sphere) (dt : R),
     let w' := exec (Sphere.updateVelocity dt) (h, s) in
     SphereSpec.speed w' = vec3.vlength (SphereSpec.velocity w')) /\
  (forall (h : heap) (s : Sphere.Sphere) (dt : R),
     SphereSpec.wf (h, s) ->
     let w' := exec (Sphere.updatePosition dt) (h, s) in
     SphereSpec.speed w' = vec3.vlength (SphereSpec.velocity w')) /\
  (forall (h : heap) (s : Sphere.Sphere) (dt : R) (b : option BoundingRange.t),
     let w' := exec (Sphere.handleCollisions dt b) (h, s) in
     SphereSpec.speed w' = vec3.vlength (SphereSpec.velocity w')) /\
  (forall (h : heap) (s : Sphere.Sphere) (dt : R),
     let w' := exec (Sphere.tick dt) (h, s) in
     SphereSpec.speed w' = vec3.vlength (SphereSpec.velocity w')) /\
  (forall (h : heap) (s : Draft.Sphere) (dt : R),
     let w' := exec (Draft.updateVelocity dt) (h, s) in
     DraftSpec.speed w' = vec3.vlength (DraftSpec.velocity w')) /\
  (forall (h : heap) (s : Draft.Sphere) (dt : R) (b : option BoundingRange.t),
     let w' := exec (Draft.handleCollisions dt b) (h, s) in
     DraftSpec.speed w' = vec3.vlength (DraftSpec.velocity w')) /\
  (forall (h : heap) (s : Draft.Sphere) (dt : R),
     let w' := exec (Draft.tick dt) (h, s) in
     DraftSpec.speed w' = vec3.vlength (DraftSpec.velocity w')) /\
  (forall (d : Draft.Draws) (h : heap) (s : Draft.Sphere) (radius speed : option R),
     let w' := exec (Draft.constructor d radius speed) (h, s) in
     DraftSpec.speed w' = 0 /\
     DraftSpec.velocity w' =
       Draft.random_velocity d
         (match speed with Some v => v | None => Draft.random_speed d * 200 end)) /\
  (DraftSpec.speed
     (exec (Draft.constructor (Draft.mkDraws 0 0 (fun _ => vec3.vzero) (fun _ => mkvec 1 0 0))
                              (Some 1) (Some 1))
           (DraftSpec.world 0 0 vec3.vzero vec3.vzero)) = 0 /\
   vec3.vlength
     (DraftSpec.velocity
        (exec (Draft.constructor (Draft.mkDraws 0 0 (fun _ => vec3.vzero) (fun _ => mkvec 1 0 0))
                                 (Some 1) (Some 1))
              (DraftSpec.world 0 0 vec3.vzero vec3.vzero))) = 1) /\
  (DraftSpec.speed
     (exec (Draft.updatePosition 0.1) (DraftSpec.world 1 0 (mkvec 0 5 0) vec3.vzero)) = 0.981 /\
   vec3.vlength
     (DraftSpec.velocity
        (exec (Draft.updatePosition 0.1) (DraftSpec.world 1 0 (mkvec 0 5 0) vec3.vzero))) =
   0.0981).
Proof.
  destruct speed_after_assignments as (A1 & A2 & A3 & A4 & A5 & A6 & A7).
  split; [exact A1|]. split; [exact A6|]. split; [exact A2|]. split; [exact A3|].
  split; [intros h s dt Hwf; apply sphere_updatePosition_speed, Hwf|].
  split; [exact A4|]. split; [exact A5|].
  split; [intros h s dt; apply draft_updateVelocity_speed|].
  split; [intros h s dt b; apply DraftFacts.draft_handleCollisions_object|].
  split; [exact A7|].
  split; [|split; [exact draft_constructor_leaves_speed_stale
                  | exact draft_updatePosition_leaves_speed_stale]].
  intros d h s radius speed. cbv zeta.
  destruct (DraftFacts.draft_constructor_spec d h s radius speed) as (Hs & _ & Hv & _).
  destruct (DraftFacts.draft_constructor_wf d h s radius speed) as (_ & _ & H0).
  split; [exact H0|].
  unfold DraftSpec.velocity, deref. rewrite Hs. cbn [Draft._velocity]. exact Hv.
Qed.

Lemma draft_leaves_the_cached_speed_stale_witness :
  SphereSpec.wf (SphereSpec.world 1 1 (mkvec 0 5 0) (mkvec 1 0 0)) /\
  SphereSpec.speed
    (exec (Sphere.updatePosition 0.1)
          (fst (SphereSpec.world 1 1 (mkvec 0 5 0) (mkvec 1 0 0)),
           snd (SphereSpec.world 1 1 (mkvec 0 5 0) (mkvec 1 0 0)))) =
  vec3.vlength
    (SphereSpec.velocity
       (exec (Sphere.updatePosition 0.1)
             (fst (SphereSpec.world 1 1 (mkvec 0 5 0) (mkvec 1 0 0)),
              snd (SphereSpec.world 1 1 (mkvec 0 5 0) (mkvec 1 0 0))))).
Proof.
  pose proof (sphere_world_wf 1 1 (mkvec 0 5 0) (mkvec 1 0 0)) as W.
  split; [exact W|].
  exact (proj1 (proj2 (proj2 (proj2 (proj2 draft_leaves_the_cached_speed_stale))))
           (fst (SphereSpec.world 1 1 (mkvec 0 5 0) (mkvec 1 0 0)))
           (snd (SphereSpec.world 1 1 (mkvec 0 5 0) (mkvec 1 0 0))) 0.1 W).
Defined.

(** ** The engine *)

Lemma engine_tick_of_empty_list dt (h : heap) (e : PhysicsEngine.State) :
  PhysicsEngine._sphereList e = [] ->
  PhysicsEngine.tick dt (h, e) = (tt, (h, e)).
Proof.
  intros H. unfold PhysicsEngine.tick, PhysicsEngine.get_sphereList, bind, this.
  cbn [snd]. rewrite H. reflexivity.
Qed.

Lemma engine_addSphere_count d o (w : heap * PhysicsEngine.State) :
  List.length (PhysicsEngine._sphereList (snd (exec (PhysicsEngine.addSphere d o) w))) =
  S (List.length (PhysicsEngine._sphereList (snd w))).
Proof.
  destruct w as [h e], o as [o|].
  - unfold exec, PhysicsEngine.addSphere, PhysicsEngine.get_sphereList,
      PhysicsEngine.set_sphereList, bind, ret, this, modify.
    cbn [fst snd PhysicsEngine._sphereList]. rewrite length_app. simpl. lia.
  - unfold exec, PhysicsEngine.addSphere, PhysicsEngine.new_Sphere, PhysicsEngine.call,
      PhysicsEngine.get_sphereList, PhysicsEngine.set_sphereList, bind, ret, this, modify.
    cbn [fst snd PhysicsEngine._sphereList PhysicsEngine.spheres PhysicsEngine.next_sphere].
    destruct (Sphere.constructor d None None (h, PhysicsEngine.spheres e (PhysicsEngine.next_sphere e)))
      as [u [h' s']].
    cbn [fst snd PhysicsEngine._sphereList]. rewrite length_app. simpl. lia.
Qed.

(** C9: [resetSpheres] leaves the list of spheres empty, whatever it held;
    a following [tick] completes normally and leaves the whole world as it
    is: the list, the sphere objects and the arrays. *)
Theorem reset_then_tick_changes_nothing :
  forall (w : heap * PhysicsEngine.State) (dt : R),
    let w1 := exec PhysicsEngine.resetSpheres w in
    PhysicsEngine._sphereList (snd w1) = [] /\
    List.length (PhysicsEngine._sphereList (snd w1)) = 0%nat /\
    fst w1 = fst w /\
    PhysicsEngine.spheres (snd w1) = PhysicsEngine.spheres (snd w) /\
    complete (PhysicsEngine.tick dt) w1 = Normal tt w1 /\
    List.length (PhysicsEngine._sphereList (snd (exec (PhysicsEngine.tick dt) w1))) = 0%nat.
Proof.
  intros [h e] dt w1. subst w1.
  unfold exec at 1 2 3 4 5 6. unfold PhysicsEngine.resetSpheres, PhysicsEngine.set_sphereList, modify.
  cbn [fst snd PhysicsEngine._sphereList PhysicsEngine.spheres].
  unfold complete, exec, result.
  rewrite engine_tick_of_empty_list by reflexivity.
  cbn [fst snd PhysicsEngine._sphereList]. repeat split.
Qed.

(** The count of spheres along [addSphere (); addSphere (); resetSpheres ()]
    from a new engine: 0, 1, 2, 0. *)
Lemma engine_count_scenario (d1 d2 : Sphere.Draws) (w : heap * PhysicsEngine.State) :
  let count (w : heap * PhysicsEngine.State) := List.length (PhysicsEngine._sphereList (snd w)) in
  let w0 := exec PhysicsEngine.constructor w in
  let w1 := exec (PhysicsEngine.addSphere d1 None) w0 in
  let w2 := exec (PhysicsEngine.addSphere d2 None) w1 in
  let w3 := exec PhysicsEngine.resetSpheres w2 in
  count w0 = 0%nat /\ count w1 = 1%nat /\ count w2 = 2%nat /\ count w3 = 0%nat.
Proof.
  intros count w0 w1 w2 w3. subst count w1 w2 w3. cbv beta.
  assert (H0 : List.length (PhysicsEngine._sphereList (snd w0)) = 0%nat)
    by (subst w0; destruct w; reflexivity).
  rewrite !engine_addSphere_count, H0. repeat split.
Qed.

(** * Further properties of the code *)

(** ** src/Sphere.js: what a tick computes and what it leaves alone *)

Lemma vec_eta (v : vec) : v = mkvec (c0 v) (c1 v) (c2 v).
Proof. destruct v; reflexivity. Qed.

Lemma sphere_tick_summary h s dt :
  SphereSpec.wf (h, s) ->
  SphereSpec.position (exec (Sphere.tick dt) (h, s)) =
    SphereSummary.reflected_position (Sphere._radius s)
      (SphereSummary.integrated_position (h, s) dt)
      (SphereSummary.integrated_velocity (h, s) dt) /\
  SphereSpec.velocity (exec (Sphere.tick dt) (h, s)) =
    SphereSummary.reflected_velocity (Sphere._radius s)
      (SphereSummary.integrated_position (h, s) dt)
      (SphereSummary.integrated_velocity (h, s) dt).
Proof.
  intros Hwf.
  destruct (SphereFacts.sphere_updatePosition_spec h s dt Hwf) as (Hs & Hv & Hp & _).
  assert (E1 : SphereSpec.velocity (exec (Sphere.updatePosition dt) (h, s)) =
               SphereSummary.integrated_velocity (h, s) dt).
  { unfold SphereSpec.velocity at 1. unfold deref. rewrite Hs.
    cbn [Sphere._velocity]. rewrite Hv. reflexivity. }
  assert (E2 : SphereSpec.position (exec (Sphere.updatePosition dt) (h, s)) =
               SphereSummary.integrated_position (h, s) dt).
  { unfold SphereSpec.position at 1. unfold deref. rewrite Hs.
    cbn [Sphere._position]. rewrite Hp. reflexivity. }
  pose proof (sphere_tick_axis h s dt X) as HX.
  pose proof (sphere_tick_axis h s dt Y) as HY.
  pose proof (sphere_tick_axis h s dt Z) as HZ.
  cbv zeta in HX, HY, HZ. rewrite E1, E2 in HX, HY, HZ.
  revert HX HY HZ.
  generalize (SphereSpec.position (exec (Sphere.tick dt) (h, s))).
  generalize (SphereSpec.velocity (exec (Sphere.tick dt) (h, s))).
  intros v2 p2 [HX1 HX2] [HY1 HY2] [HZ1 HZ2].
  cbn [coord] in *.
  unfold SphereSummary.reflected_position, SphereSummary.reflected_velocity.
  rewrite <- HX1, <- HY1, <- HZ1, <- HX2, <- HY2, <- HZ2.
  split; apply vec_eta.
Qed.

Lemma sphere_tick_frame h s dt :
  SphereSpec.wf (h, s) ->
  let w' := exec (Sphere.tick dt) (h, s) in
  (next h <= Sphere._position (snd w'))%nat /\
  (next h <= Sphere._velocity (snd w'))%nat /\
  (Sphere._position (snd w') < next (fst w'))%nat /\
  (Sphere._velocity (snd w') < next (fst w'))%nat /\
  Sphere._position (snd w') <> Sphere._velocity (snd w') /\
  Sphere._color (snd w') = Sphere._color s /\
  Sphere._radius (snd w') = Sphere._radius s /\
  Sphere._mass (snd w') = Sphere._mass s /\
  (forall r, (r < next h)%nat -> r <> Sphere._position s -> r <> Sphere._velocity s ->
             cell (fst w') r = cell h r) /\
  cell (fst w') (Sphere._position s) = SphereSummary.integrated_position (h, s) dt /\
  cell (fst w') (Sphere._velocity s) = SphereSummary.integrated_velocity (h, s) dt.
Proof.
  intros Hwf. cbv zeta.
  destruct (SphereFacts.sphere_updatePosition_spec h s dt Hwf) as (Hs & Hv & Hp & Hf & Hn).
  rewrite SphereFacts.sphere_tick_unfold.
  revert Hs Hv Hp Hf Hn.
  generalize (exec (Sphere.updatePosition dt) (h, s)). intros [h1 s1].
  cbn [fst snd]. intros Hs Hv Hp Hf Hn. subst s1.
  rewrite SphereFacts.sphere_handleCollisions_run.
  destruct Hwf as (Wp & Wv & Wne). cbn [fst snd] in Wp, Wv, Wne.
  unfold alloc.
  cbn [fst snd cell next Sphere._position Sphere._velocity Sphere._color
       Sphere._radius Sphere._mass].
  split; [lia|]. split; [lia|]. split; [lia|]. split; [lia|]. split; [lia|].
  split; [reflexivity|]. split; [reflexivity|]. split; [reflexivity|].
  split; [|split].
  - intros r Hr H1 H2.
    replace (Nat.eqb r (S (next h1))) with false by (symmetry; apply Nat.eqb_neq; lia).
    replace (Nat.eqb r (next h1)) with false by (symmetry; apply Nat.eqb_neq; lia).
    apply Hf; assumption.
  - replace (Nat.eqb (Sphere._position s) (S (next h1))) with false
      by (symmetry; apply Nat.eqb_neq; lia).
    replace (Nat.eqb (Sphere._position s) (next h1)) with false
      by (symmetry; apply Nat.eqb_neq; lia).
    exact Hp.
  - replace (Nat.eqb (Sphere._velocity s) (S (next h1))) with false
      by (symmetry; apply Nat.eqb_neq; lia).
    replace (Nat.eqb (Sphere._velocity s) (next h1)) with false
      by (symmetry; apply Nat.eqb_neq; lia).
    exact Hv.
Qed.

Lemma reflect_keeps_square lo hi x v :
  snd (SphereSpec.reflect lo hi x v) * snd (SphereSpec.reflect lo hi x v) = v * v.
Proof. unfold SphereSpec.reflect. split_tests; cbn [snd]; ring. Qed.

Lemma reflect_keeps_abs lo hi x v :
  Rabs (snd (SphereSpec.reflect lo hi x v)) = Rabs v.
Proof.
  unfold SphereSpec.reflect. split_tests; cbn [snd]; try reflexivity.
  - replace (v * -1 * -1) with v by ring. reflexivity.
  - replace (v * -1) with (- v) by ring. apply Rabs_Ropp.
  - replace (v * -1) with (- v) by ring. apply Rabs_Ropp.
Qed.

(** X1: [handleCollisions] of src/Sphere.js never changes the speed: whatever
    the box, the radius and the state, every component of the velocity
    keeps its absolute value, and the cached speed it leaves is the length
    of the velocity before the call. *)
Theorem handleCollisions_keeps_speed :
  forall (h : heap) (s : Sphere.Sphere) (dt : R) (b : option BoundingRange.t),
    let w' := exec (Sphere.handleCollisions dt b) (h, s) in
    (forall a : axis,
       Rabs (coord a (SphereSpec.velocity w')) = Rabs (coord a (SphereSpec.velocity (h, s)))) /\
    vec3.vlength (SphereSpec.velocity w') = vec3.vlength (SphereSpec.velocity (h, s)) /\
    SphereSpec.speed w' = vec3.vlength (SphereSpec.velocity (h, s)).
Proof.
  intros h s dt b. cbv zeta.
  pose proof (SphereFacts.sphere_handleCollisions_velocity h s dt b) as Hv. cbv zeta in Hv.
  destruct (SphereFacts.sphere_handleCollisions_object h s dt b) as (_ & _ & _ & Hsp & _).
  rewrite Hsp. revert Hv.
  generalize (SphereSpec.velocity (exec (Sphere.handleCollisions dt b) (h, s))).
  intros v' Hv.
  assert (Ha : forall a, Rabs (coord a v') = Rabs (coord a (SphereSpec.velocity (h, s)))).
  { intros a. rewrite Hv. apply reflect_keeps_abs. }
  assert (Hl : vec3.vlength v' = vec3.vlength (SphereSpec.velocity (h, s))).
  { unfold vec3.vlength. f_equal.
    pose proof (Hv X) as HX. pose proof (Hv Y) as HY. pose proof (Hv Z) as HZ.
    cbn [coord] in HX, HY, HZ. rewrite HX, HY, HZ, !reflect_keeps_square.
    reflexivity. }
  split; [exact Ha|]. split; exact Hl.
Qed.

(** X2: A tick of src/Sphere.js touches only the arrays of the sphere it
    advances.  For a sphere whose position and velocity are two allocated
    arrays, [tick] leaves every other allocated array as it is (the colour
    and the arrays of other spheres among them), keeps radius, mass and the
    colour reference, and stores the clamped position and the reflected
    velocity in two new arrays: the two old arrays are left holding the
    position and velocity of the integration step, before clamping. *)
Theorem tick_touches_only_its_own_arrays :
  forall (h : heap) (s : Sphere.Sphere) (dt : R),
    SphereSpec.wf (h, s) ->
    let w' := exec (Sphere.tick dt) (h, s) in
    (forall r : ref,
       (r < next h)%nat -> r <> Sphere._position s -> r <> Sphere._velocity s ->
       cell (fst w') r = cell h r) /\
    (next h <= Sphere._position (snd w') < next (fst w'))%nat /\
    (next h <= Sphere._velocity (snd w') < next (fst w'))%nat /\
    Sphere._position (snd w') <> Sphere._velocity (snd w') /\
    Sphere._color (snd w') = Sphere._color s /\
    SphereSpec.radius w' = Sphere._radius s /\
    SphereSpec.mass w' = Sphere._mass s /\
    cell (fst w') (Sphere._position s) = SphereSummary.integrated_position (h, s) dt /\
    cell (fst w') (Sphere._velocity s) = SphereSummary.integrated_velocity (h, s) dt.
Proof.
  intros h s dt Hwf. cbv zeta.
  destruct (sphere_tick_frame h s dt Hwf)
    as (A1 & A2 & A3 & A4 & A5 & A6 & A7 & A8 & A9 & A10 & A11).
  split; [exact A9|]. split; [split; assumption|]. split; [split; assumption|].
  split; [exact A5|]. split; [exact A6|]. split; [exact A7|]. split; [exact A8|].
  split; [exact A10 | exact A11].
Qed.

Lemma tick_touches_only_its_own_arrays_witness :
  SphereSpec.wf (SphereSpec.world 1 1 (mkvec 0 5 0) (mkvec 1 0 0)) /\
  (2 < next (fst (SphereSpec.world 1 1 (mkvec 0 5 0) (mkvec 1 0 0))))%nat /\
  cell (fst (exec (Sphere.tick 0.1) (SphereSpec.world 1 1 (mkvec 0 5 0) (mkvec 1 0 0)))) 2%nat =
  cell (fst (SphereSpec.world 1 1 (mkvec 0 5 0) (mkvec 1 0 0))) 2%nat.
Proof.
  pose proof (sphere_world_wf 1 1 (mkvec 0 5 0) (mkvec 1 0 0)) as W.
  assert (L : (2 < next (fst (SphereSpec.world 1 1 (mkvec 0 5 0) (mkvec 1 0 0))))%nat)
    by (cbv [SphereSpec.world fst next]; lia).
  split; [exact W|]. split; [exact L|].
  refine (proj1 (tick_touches_only_its_own_arrays
                   (fst (SphereSpec.world 1 1 (mkvec 0 5 0) (mkvec 1 0 0)))
                   (snd (SphereSpec.world 1 1 (mkvec 0 5 0) (mkvec 1 0 0))) 0.1 W)
                2%nat L _ _);
    cbv [SphereSpec.world snd Sphere._position Sphere._velocity]; lia.
Defined.

Lemma sphere_constructor_frame d h s radius speed :
  forall r, (r < next h)%nat ->
            cell (fst (exec (Sphere.constructor d radius speed) (h, s))) r = cell h r.
Proof.
  destruct h as [c n], s as [r0 p v0 sp col m], radius as [rad|], speed as [spd|];
    intros a Ha; cbn [next] in Ha; SphereFacts.run; eqb_simpl; reflexivity.
Qed.

(** X3: The constructor of src/Sphere.js gives a sphere three new arrays of its
    own, for position, velocity and colour, and leaves the arrays that exist
    untouched: spheres never share an array with an earlier sphere.  The
    position and velocity of the new sphere are two allocated, different
    arrays, and every tick keeps them so. *)
Theorem constructor_allocates_its_own_arrays :
  forall (d : Sphere.Draws) (h : heap) (s : Sphere.Sphere) (radius speed : option R) (dt : R),
    let w' := exec (Sphere.constructor d radius speed) (h, s) in
    Sphere._position (snd w') = next h /\
    Sphere._velocity (snd w') = S (next h) /\
    Sphere._color (snd w') = S (S (next h)) /\
    next (fst w') = S (S (S (next h))) /\
    (forall r : ref, (r < next h)%nat -> cell (fst w') r = cell h r) /\
    SphereSpec.wf w' /\
    SphereSpec.wf (exec (Sphere.tick dt) w').
Proof.
  intros d h s radius speed dt. cbv zeta.
  destruct (SphereFacts.sphere_constructor_spec d h s radius speed) as (Hs & _ & _ & _ & Hn).
  pose proof (sphere_constructor_frame d h s radius speed) as Hf.
  pose proof (SphereFacts.sphere_constructor_wf d h s radius speed) as Hwf.
  pose proof (SphereFacts.sphere_tick_wf dt (exec (Sphere.constructor d radius speed) (h, s)))
    as Hwf'.
  revert Hs Hn Hf Hwf Hwf'.
  generalize (exec (Sphere.constructor d radius speed) (h, s)). intros [h1 s1].
  cbn [fst snd]. intros Hs Hn Hf Hwf Hwf'. subst s1.
  cbn [Sphere._position Sphere._velocity Sphere._color].
  split; [reflexivity|]. split; [reflexivity|]. split; [reflexivity|].
  split; [exact Hn|]. split; [exact Hf|]. split; [exact Hwf | exact Hwf'].
Qed.

(** ** src/Sphere.js: drag and gravity *)

Lemma ln_nine_tenths : ln 0.9 < 0.
Proof. rewrite <- ln_1. apply ln_increasing; lra. Qed.

Lemma drag_factor_range dt :
  0 < Rpower 0.9 dt /\
  (0 <= dt -> Rpower 0.9 dt <= 1) /\
  (dt < 0 -> 1 < Rpower 0.9 dt).
Proof.
  pose proof ln_nine_tenths as L. unfold Rpower. split; [apply exp_pos|]. split.
  - intros H. rewrite <- exp_0. destruct H as [H|H].
    + left. apply exp_increasing. nra.
    + subst dt. rewrite Rmult_0_l. right. reflexivity.
  - intros H. rewrite <- exp_0. apply exp_increasing. nra.
Qed.

Lemma sphere_updateVelocity_value h s dt :
  (Sphere._velocity s < next h)%nat ->
  SphereSpec.velocity (exec (Sphere.updateVelocity dt) (h, s)) =
  SphereSpec.new_velocity (cell h (Sphere._velocity s)) (Sphere._mass s) dt.
Proof.
  intros Hv. destruct (SphereFacts.sphere_updateVelocity_spec h s dt Hv) as (_ & Hs & Hc & _).
  unfold SphereSpec.velocity, deref. rewrite Hs. cbn [Sphere._velocity]. exact Hc.
Qed.

Lemma new_velocity_horizontal v m dt a :
  a <> Y -> coord a (SphereSpec.new_velocity v m dt) = coord a v * Rpower 0.9 dt.
Proof.
  intros Ha. unfold SphereSpec.new_velocity.
  destruct a; [|contradiction|]; cbn [coord c0 c1 c2 vec3.vadd vec3.vscale]; ring.
Qed.

(** X4: The drag of src/Sphere.js on the horizontal axes does not depend on how
    time is cut into steps: [updateVelocity] multiplies the x and z
    components of the velocity by 0.9 ^ dt, so two updates of d1 and d2
    seconds leave the same x and z components as one update of d1 + d2
    seconds. *)
Theorem horizontal_drag_composes :
  forall (h : heap) (s : Sphere.Sphere) (d1 d2 : R) (a : axis),
    (Sphere._velocity s < next h)%nat -> a <> Y ->
    coord a (SphereSpec.velocity (exec (Sphere.updateVelocity d1) (h, s))) =
      coord a (SphereSpec.velocity (h, s)) * Rpower 0.9 d1 /\
    coord a (SphereSpec.velocity
               (exec (Sphere.updateVelocity d2) (exec (Sphere.updateVelocity d1) (h, s)))) =
    coord a (SphereSpec.velocity (exec (Sphere.updateVelocity (d1 + d2)) (h, s))).
Proof.
  intros h s d1 d2 a Hv Ha.
  rewrite (sphere_updateVelocity_value h s d1 Hv), (sphere_updateVelocity_value h s (d1 + d2) Hv).
  rewrite !new_velocity_horizontal by exact Ha.
  split; [reflexivity|].
  destruct (SphereFacts.sphere_updateVelocity_spec h s d1 Hv) as (_ & Hs & Hc & _ & Hn).
  revert Hs Hc Hn. generalize (exec (Sphere.updateVelocity d1) (h, s)). intros [h1 s1].
  cbn [fst snd]. intros Hs Hc Hn. subst s1.
  rewrite sphere_updateVelocity_value by (cbn [Sphere._velocity]; lia).
  cbn [Sphere._velocity Sphere._mass]. rewrite Hc.
  rewrite !new_velocity_horizontal by exact Ha.
  rewrite Rpower_plus. ring.
Qed.

Lemma horizontal_drag_composes_witness :
  (Sphere._velocity (snd (SphereSpec.world 1 1 vec3.vzero (mkvec 1 0 0))) <
   next (fst (SphereSpec.world 1 1 vec3.vzero (mkvec 1 0 0))))%nat /\
  X <> Y /\
  coord X (SphereSpec.velocity
             (exec (Sphere.updateVelocity 1)
                   (exec (Sphere.updateVelocity 1)
                         (SphereSpec.world 1 1 vec3.vzero (mkvec 1 0 0))))) =
  coord X (SphereSpec.velocity
             (exec (Sphere.updateVelocity (1 + 1))
                   (SphereSpec.world 1 1 vec3.vzero (mkvec 1 0 0)))).
Proof.
  assert (V : (Sphere._velocity (snd (SphereSpec.world 1 1 vec3.vzero (mkvec 1 0 0))) <
               next (fst (SphereSpec.world 1 1 vec3.vzero (mkvec 1 0 0))))%nat)
    by (cbv [SphereSpec.world fst snd next Sphere._velocity]; lia).
  assert (N : X <> Y) by discriminate.
  split; [exact V|]. split; [exact N|].
  exact (proj2 (horizontal_drag_composes
                  (fst (SphereSpec.world 1 1 vec3.vzero (mkvec 1 0 0)))
                  (snd (SphereSpec.world 1 1 vec3.vzero (mkvec 1 0 0))) 1 1 X V N)).
Defined.

(** X5: The drag of src/Sphere.js damps only forwards in time: an update of
    dt >= 0 seconds never increases the absolute value of a horizontal
    component of the velocity, and an update of dt < 0 seconds never
    decreases it (it increases it when the component is not 0). *)
Theorem horizontal_drag_damps_forwards_only :
  forall (h : heap) (s : Sphere.Sphere) (dt : R) (a : axis),
    (Sphere._velocity s < next h)%nat -> a <> Y ->
    let v := coord a (SphereSpec.velocity (h, s)) in
    let v' := coord a (SphereSpec.velocity (exec (Sphere.updateVelocity dt) (h, s))) in
    (0 <= dt -> Rabs v' <= Rabs v) /\
    (dt < 0 -> Rabs v <= Rabs v' /\ (v <> 0 -> Rabs v < Rabs v')).
Proof.
  intros h s dt a Hv Ha. cbv zeta.
  rewrite (sphere_updateVelocity_value h s dt Hv), new_velocity_horizontal by exact Ha.
  fold (SphereSpec.velocity (h, s)).
  change (cell h (Sphere._velocity s)) with (SphereSpec.velocity (h, s)).
  generalize (coord a (SphereSpec.velocity (h, s))). intros v.
  destruct (drag_factor_range dt) as (Hpos & Hle & Hgt).
  rewrite Rabs_mult, (Rabs_pos_eq (Rpower 0.9 dt)) by lra.
  pose proof (Rabs_pos v) as Hv0.
  split.
  - intros H. specialize (Hle H). nra.
  - intros H. specialize (Hgt H). split; [nra|].
    intros Hne. assert (0 < Rabs v) by (apply Rabs_pos_lt; exact Hne). nra.
Qed.

Lemma horizontal_drag_damps_forwards_only_witness :
  (Sphere._velocity (snd (SphereSpec.world 1 1 vec3.vzero (mkvec 1 0 0))) <
   next (fst (SphereSpec.world 1 1 vec3.vzero (mkvec 1 0 0))))%nat /\
  X <> Y /\ 0 <= 1 /\ -1 < 0 /\
  Rabs (coord X (SphereSpec.velocity
                   (exec (Sphere.updateVelocity 1)
                         (SphereSpec.world 1 1 vec3.vzero (mkvec 1 0 0))))) <=
  Rabs (coord X (SphereSpec.velocity (SphereSpec.world 1 1 vec3.vzero (mkvec 1 0 0)))) /\
  Rabs (coord X (SphereSpec.velocity (SphereSpec.world 1 1 vec3.vzero (mkvec 1 0 0)))) <=
  Rabs (coord X (SphereSpec.velocity
                   (exec (Sphere.updateVelocity (-1))
                         (SphereSpec.world 1 1 vec3.vzero (mkvec 1 0 0))))).
Proof.
  assert (V : (Sphere._velocity (snd (SphereSpec.world 1 1 vec3.vzero (mkvec 1 0 0))) <
               next (fst (SphereSpec.world 1 1 vec3.vzero (mkvec 1 0 0))))%nat)
    by (cbv [SphereSpec.world fst snd next Sphere._velocity]; lia).
  assert (N : X <> Y) by discriminate.
  assert (P : 0 <= 1) by lra.
  assert (Q : -1 < 0) by lra.
  split; [exact V|]. split; [exact N|]. split; [exact P|]. split; [exact Q|]. split.
  - exact (proj1 (horizontal_drag_damps_forwards_only
                    (fst (SphereSpec.world 1 1 vec3.vzero (mkvec 1 0 0)))
                    (snd (SphereSpec.world 1 1 vec3.vzero (mkvec 1 0 0))) 1 X V N) P).
  - exact (proj1 (proj2 (horizontal_drag_damps_forwards_only
                    (fst (SphereSpec.world 1 1 vec3.vzero (mkvec 1 0 0)))
                    (snd (SphereSpec.world 1 1 vec3.vzero (mkvec 1 0 0))) (-1) X V N) Q)).
Defined.

(** X6: In src/Sphere.js every sphere with a mass other than 0 falls alike: the
    acceleration the getter computes is (0, -9.81, 0) whatever the mass,
    radius and velocity are.  The getter returns a new array and changes
    neither the sphere nor an array that exists. *)
Theorem acceleration_is_gravity_alone :
  forall (h : heap) (s : Sphere.Sphere),
    Sphere._mass s <> 0 ->
    let w' := exec Sphere.acceleration (h, s) in
    let a := result Sphere.acceleration (h, s) in
    deref w' a = mkvec 0 (-9.81) 0 /\
    snd w' = s /\
    (next h <= a)%nat /\
    (forall r : ref, (r < next h)%nat -> cell (fst w') r = cell h r).
Proof.
  intros h s Hm. cbv zeta.
  destruct (sphere_acceleration_spec h s) as (Ha & Hs & Hc & Hf).
  unfold deref. rewrite Hc, Ha.
  split; [|split; [exact Hs|split; [lia|exact Hf]]].
  unfold Sphere.GRAVITY. apply vec_eq; cbn [c0 c1 c2 vec3.vscale]; field; exact Hm.
Qed.

Lemma acceleration_is_gravity_alone_witness :
  Sphere._mass (snd (SphereSpec.world 1 2 vec3.vzero vec3.vzero)) <> 0 /\
  deref (exec Sphere.acceleration (SphereSpec.world 1 2 vec3.vzero vec3.vzero))
        (result Sphere.acceleration (SphereSpec.world 1 2 vec3.vzero vec3.vzero)) =
  mkvec 0 (-9.81) 0.
Proof.
  assert (M : Sphere._mass (snd (SphereSpec.world 1 2 vec3.vzero vec3.vzero)) <> 0)
    by (cbv [SphereSpec.world snd Sphere._mass]; lra).
  split; [exact M|].
  exact (proj1 (acceleration_is_gravity_alone
                  (fst (SphereSpec.world 1 2 vec3.vzero vec3.vzero))
                  (snd (SphereSpec.world 1 2 vec3.vzero vec3.vzero)) M)).
Defined.

(** ** src/Sphere.js: two passes of the collision tests *)

Lemma reflect_again lo hi x v :
  lo < hi ->
  SphereSpec.reflect lo hi (fst (SphereSpec.reflect lo hi x v))
                           (snd (SphereSpec.reflect lo hi x v)) =
  (fst (SphereSpec.reflect lo hi x v), v).
Proof.
  intros H. unfold SphereSpec.reflect.
  destruct (Rle_dec x lo); cbv beta iota.
  - destruct (Rge_dec lo hi); [lra|]. cbn [fst snd].
    destruct (Rle_dec lo lo); [|lra]. cbv beta iota.
    destruct (Rge_dec lo hi); [lra|]. f_equal. ring.
  - destruct (Rge_dec x hi); cbn [fst snd].
    + destruct (Rle_dec hi lo); [lra|]. cbv beta iota.
      destruct (Rge_dec hi hi); [|lra]. f_equal. ring.
    + destruct (Rle_dec x lo); [lra|]. cbv beta iota.
      destruct (Rge_dec x hi); [lra|]. reflexivity.
Qed.

(** X7: A second pass of [handleCollisions] of src/Sphere.js undoes the
    reflections of the first.  When the inset interval of every axis is
    proper, calling [handleCollisions] twice with the same box leaves the
    position of the first call and the velocity the sphere had before the
    first call: the tests are not strict, so the second call reflects again
    every component that the first call put on a bound. *)
Theorem second_collision_pass_restores_velocity :
  forall (h : heap) (s : Sphere.Sphere) (dt dt' : R) (b : option BoundingRange.t),
    (forall a : axis,
       Range.min (range a (box_of b)) + Sphere._radius s <
       Range.max (range a (box_of b)) - Sphere._radius s) ->
    let w1 := exec (Sphere.handleCollisions dt b) (h, s) in
    let w2 := exec (Sphere.handleCollisions dt' b) w1 in
    SphereSpec.position w2 = SphereSpec.position w1 /\
    SphereSpec.velocity w2 = SphereSpec.velocity (h, s).
Proof.
  intros h s dt dt' b Hb. cbv zeta.
  pose proof (SphereFacts.sphere_handleCollisions_position h s dt b) as Hp1.
  pose proof (SphereFacts.sphere_handleCollisions_velocity h s dt b) as Hv1.
  pose proof (proj1 (SphereFacts.sphere_handleCollisions_object h s dt b)) as Hr1.
  cbv zeta in Hp1, Hv1. unfold SphereSpec.radius in Hr1.
  revert Hp1 Hv1 Hr1.
  generalize (exec (Sphere.handleCollisions dt b) (h, s)). intros [h1 s1] Hp1 Hv1 Hr1.
  cbn [snd] in Hr1.
  pose proof (SphereFacts.sphere_handleCollisions_position h1 s1 dt' b) as Hp2.
  pose proof (SphereFacts.sphere_handleCollisions_velocity h1 s1 dt' b) as Hv2.
  cbv zeta in Hp2, Hv2.
  change (cell h1 (Sphere._position s1)) with (SphereSpec.position (h1, s1)) in Hp2, Hv2.
  change (cell h1 (Sphere._velocity s1)) with (SphereSpec.velocity (h1, s1)) in Hp2, Hv2.
  change (cell h (Sphere._position s)) with (SphereSpec.position (h, s)) in Hp1, Hv1.
  change (cell h (Sphere._velocity s)) with (SphereSpec.velocity (h, s)) in Hp1, Hv1.
  rewrite Hr1 in Hp2, Hv2.
  assert (E : forall a,
             coord a (SphereSpec.position (exec (Sphere.handleCollisions dt' b) (h1, s1))) =
               coord a (SphereSpec.position (h1, s1)) /\
             coord a (SphereSpec.velocity (exec (Sphere.handleCollisions dt' b) (h1, s1))) =
               coord a (SphereSpec.velocity (h, s))).
  { intros a. rewrite (Hp2 a), (Hv2 a), (Hp1 a), (Hv1 a), reflect_again by apply Hb.
    split; reflexivity. }
  revert E.
  generalize (SphereSpec.position (exec (Sphere.handleCollisions dt' b) (h1, s1))).
  generalize (SphereSpec.velocity (exec (Sphere.handleCollisions dt' b) (h1, s1))).
  intros v2 p2 E.
  split; apply vec_eq;
    first [ exact (proj1 (E X)) | exact (proj1 (E Y)) | exact (proj1 (E Z))
          | exact (proj2 (E X)) | exact (proj2 (E Y)) | exact (proj2 (E Z)) ].
Qed.

Lemma second_collision_pass_restores_velocity_witness :
  (forall a : axis,
     Range.min (range a (box_of None)) +
       Sphere._radius (snd (SphereSpec.world 1 1 (mkvec (-12) 0 0) (mkvec (-1) 2 0))) <
     Range.max (range a (box_of None)) -
       Sphere._radius (snd (SphereSpec.world 1 1 (mkvec (-12) 0 0) (mkvec (-1) 2 0)))) /\
  SphereSpec.velocity
    (exec (Sphere.handleCollisions 0 None)
          (exec (Sphere.handleCollisions 0 None)
                (SphereSpec.world 1 1 (mkvec (-12) 0 0) (mkvec (-1) 2 0)))) =
  SphereSpec.velocity (SphereSpec.world 1 1 (mkvec (-12) 0 0) (mkvec (-1) 2 0)).
Proof.
  assert (B : forall a : axis,
     Range.min (range a (box_of None)) +
       Sphere._radius (snd (SphereSpec.world 1 1 (mkvec (-12) 0 0) (mkvec (-1) 2 0))) <
     Range.max (range a (box_of None)) -
       Sphere._radius (snd (SphereSpec.world 1 1 (mkvec (-12) 0 0) (mkvec (-1) 2 0)))).
  { intros a. destruct a;
      cbv [range box_of default_box BoundingRange.x BoundingRange.y BoundingRange.z
           Range.min Range.max SphereSpec.world snd Sphere._radius]; lra. }
  split; [exact B|].
  exact (proj2 (second_collision_pass_restores_velocity
                  (fst (SphereSpec.world 1 1 (mkvec (-12) 0 0) (mkvec (-1) 2 0)))
                  (snd (SphereSpec.world 1 1 (mkvec (-12) 0 0) (mkvec (-1) 2 0)))
                  0 0 None B)).
Defined.

(** ** src/unnamed/part_003: the velocity array after the integration step *)

Lemma vlength_vscale (v : vec) (k : R) :
  vec3.vlength (vec3.vscale v k) = Rabs k * vec3.vlength v.
Proof.
  unfold vec3.vlength, vec3.vscale; cbn [c0 c1 c2].
  replace (c0 v * k * (c0 v * k) + c1 v * k * (c1 v * k) + c2 v * k * (c2 v * k))
    with (Rsqr k * (c0 v * c0 v + c1 v * c1 v + c2 v * c2 v)) by (unfold Rsqr; ring).
  rewrite sqrt_mult_alt by apply Rle_0_sqr.
  rewrite sqrt_Rsqr_abs. reflexivity.
Qed.

Lemma draft_updatePosition_contents h s dt :
  DraftSpec.wf (h, s) ->
  let v' := vec3.vadd (cell h (Draft._velocity s))
                      (vec3.vscale (DraftSpec.raw_acceleration h s) dt) in
  let w' := exec (Draft.updatePosition dt) (h, s) in
  DraftSpec.velocity w' = vec3.vscale v' dt /\
  DraftSpec.position w' = vec3.vadd (cell h (Draft._position s)) (vec3.vscale v' dt) /\
  DraftSpec.speed w' = vec3.vlength v' /\
  DraftSpec.radius w' = Draft._radius s.
Proof.
  intros Hwf. cbv zeta.
  destruct (DraftFacts.draft_updatePosition_spec h s dt Hwf) as (Hs & Hv & Hp & _).
  unfold DraftSpec.velocity, DraftSpec.position, DraftSpec.speed, DraftSpec.radius, deref.
  rewrite Hs. cbn [Draft._velocity Draft._position Draft._speed Draft._radius].
  rewrite Hv, Hp.
  split; [reflexivity|]. split; [reflexivity|]. split; [|reflexivity].
  apply speed_setter_abs, vlength_nonneg.
Qed.

(** X8: [updatePosition] of the draft leaves the displacement in the array of
    the velocity.  It scales the array [updateVelocity] returns, which is
    the sphere's own velocity array, so afterwards the stored velocity is
    the vector that was added to the position, the cached speed is still
    the length of the velocity before the scaling, and the length of the
    stored velocity is [|dt|] times the cached speed. *)
Theorem draft_updatePosition_stores_displacement :
  forall (h : heap) (s : Draft.Sphere) (dt : R),
    DraftSpec.wf (h, s) ->
    let w' := exec (Draft.updatePosition dt) (h, s) in
    DraftSpec.position w' =
      vec3.vadd (DraftSpec.position (h, s)) (DraftSpec.velocity w') /\
    vec3.vlength (DraftSpec.velocity w') = Rabs dt * DraftSpec.speed w'.
Proof.
  intros h s dt Hwf. cbv zeta.
  destruct (draft_updatePosition_contents h s dt Hwf) as (Hv & Hp & Hsp & _).
  rewrite Hv, Hp, Hsp. split; [reflexivity|]. apply vlength_vscale.
Qed.

Lemma draft_updatePosition_stores_displacement_witness :
  DraftSpec.wf (DraftSpec.world 1 0 (mkvec 0 5 0) vec3.vzero) /\
  DraftSpec.position (exec (Draft.updatePosition 0.1) (DraftSpec.world 1 0 (mkvec 0 5 0) vec3.vzero)) =
  vec3.vadd (DraftSpec.position (DraftSpec.world 1 0 (mkvec 0 5 0) vec3.vzero))
            (DraftSpec.velocity
               (exec (Draft.updatePosition 0.1) (DraftSpec.world 1 0 (mkvec 0 5 0) vec3.vzero))).
Proof.
  pose proof (draft_world_wf 1 0 (mkvec 0 5 0) vec3.vzero) as W.
  split; [exact W|].
  exact (proj1 (draft_updatePosition_stores_displacement
                  (fst (DraftSpec.world 1 0 (mkvec 0 5 0) vec3.vzero))
                  (snd (DraftSpec.world 1 0 (mkvec 0 5 0) vec3.vzero)) 0.1 W)).
Defined.

Lemma draft_reflect_of_rest k lo hi x : snd (DraftSpec.reflect k lo hi x 0) = 0.
Proof. unfold DraftSpec.reflect. split_tests; cbn [snd]; ring. Qed.

Lemma draft_reflect_scaled_rest k lo hi x (v : vec) (a : axis) :
  snd (DraftSpec.reflect k lo hi x (coord a (vec3.vscale v 0))) = 0.
Proof.
  replace (coord a (vec3.vscale v 0)) with 0 by (destruct a; simpl; ring).
  apply draft_reflect_of_rest.
Qed.

(** X9: A tick of no duration stops a sphere of the draft.  With [dt = 0] the
    in-place scaling of [updatePosition] multiplies the velocity array by 0:
    whatever velocity the sphere had, after [tick (0)] its velocity is the
    zero vector and its cached speed is 0. *)
Theorem draft_tick_of_no_time_stops_the_sphere :
  forall (h : heap) (s : Draft.Sphere),
    DraftSpec.wf (h, s) ->
    let w' := exec (Draft.tick 0) (h, s) in
    DraftSpec.velocity w' = vec3.vzero /\ DraftSpec.speed w' = 0.
Proof.
  intros h s Hwf. cbv zeta.
  destruct (draft_updatePosition_contents h s 0 Hwf) as (Hv & _).
  pose proof (fun a => proj2 (draft_tick_axis h s 0 a)) as HA.
  cbv zeta in HA. rewrite Hv in HA.
  rewrite draft_tick_speed. revert HA.
  generalize (DraftSpec.velocity (exec (Draft.tick 0) (h, s))).
  generalize (DraftSpec.position (exec (Draft.updatePosition 0) (h, s))).
  intros p1 v2 HA.
  assert (E : v2 = vec3.vzero).
  { apply vec_eq.
    - pose proof (HA X) as H. rewrite draft_reflect_scaled_rest in H. exact H.
    - pose proof (HA Y) as H. rewrite draft_reflect_scaled_rest in H. exact H.
    - pose proof (HA Z) as H. rewrite draft_reflect_scaled_rest in H. exact H. }
  split; [exact E|]. rewrite E. apply vlength_zero.
Qed.

Lemma draft_tick_of_no_time_stops_the_sphere_witness :
  DraftSpec.wf (DraftSpec.world 1 1 (mkvec 0 5 0) (mkvec 1 0 0)) /\
  DraftSpec.velocity (exec (Draft.tick 0) (DraftSpec.world 1 1 (mkvec 0 5 0) (mkvec 1 0 0))) =
  vec3.vzero.
Proof.
  pose proof (draft_world_wf 1 1 (mkvec 0 5 0) (mkvec 1 0 0)) as W.
  split; [exact W|].
  exact (proj1 (draft_tick_of_no_time_stops_the_sphere
                  (fst (DraftSpec.world 1 1 (mkvec 0 5 0) (mkvec 1 0 0)))
                  (snd (DraftSpec.world 1 1 (mkvec 0 5 0) (mkvec 1 0 0))) W)).
Defined.

(** ** src/unnamed/part_003: what the collision tests do to the speed *)

(** X10: The floor of the draft triples the vertical velocity.  When the
    integration step of a tick leaves a sphere (of radius at most 10) below
    the lower bound of the y axis, the tick puts it on that bound and
    multiplies the vertical component of the velocity array by -3, where
    the five other tests multiply by -1. *)
Theorem draft_floor_multiplies_velocity_by_minus_three :
  forall (h : heap) (s : Draft.Sphere) (dt : R),
    Draft._radius s <= 10 ->
    let w1 := exec (Draft.updatePosition dt) (h, s) in
    let w2 := exec (Draft.tick dt) (h, s) in
    coord Y (DraftSpec.position w1) < -10 + Draft._radius s ->
    coord Y (DraftSpec.position w2) = -10 + Draft._radius s /\
    coord Y (DraftSpec.velocity w2) = -3 * coord Y (DraftSpec.velocity w1).
Proof.
  intros h s dt Hr. cbv zeta. intros Hy.
  pose proof (draft_tick_axis h s dt Y) as HA. cbv zeta in HA.
  revert Hy HA.
  generalize (DraftSpec.position (exec (Draft.updatePosition dt) (h, s))).
  generalize (DraftSpec.velocity (exec (Draft.updatePosition dt) (h, s))).
  generalize (DraftSpec.position (exec (Draft.tick dt) (h, s))).
  generalize (DraftSpec.velocity (exec (Draft.tick dt) (h, s))).
  intros v2 p2 v1 p1 Hy [Hp Hv].
  rewrite DraftFacts.draft_reflect_below in Hp, Hv by lra.
  rewrite Hp, Hv. cbn [fst snd]. split; [reflexivity | ring].
Qed.

Lemma draft_floor_multiplies_velocity_by_minus_three_witness :
  Draft._radius (snd (DraftSpec.world 1 0 (mkvec 0 (-9) 0) vec3.vzero)) <= 10 /\
  coord Y (DraftSpec.position
             (exec (Draft.updatePosition 1)
                   (DraftSpec.world 1 0 (mkvec 0 (-9) 0) vec3.vzero))) <
  -10 + Draft._radius (snd (DraftSpec.world 1 0 (mkvec 0 (-9) 0) vec3.vzero)) /\
  coord Y (DraftSpec.velocity
             (exec (Draft.tick 1) (DraftSpec.world 1 0 (mkvec 0 (-9) 0) vec3.vzero))) =
  -3 * coord Y (DraftSpec.velocity
                  (exec (Draft.updatePosition 1)
                        (DraftSpec.world 1 0 (mkvec 0 (-9) 0) vec3.vzero))).
Proof.
  assert (R1 : Draft._radius (snd (DraftSpec.world 1 0 (mkvec 0 (-9) 0) vec3.vzero)) <= 10)
    by (cbv [DraftSpec.world snd Draft._radius]; lra).
  pose proof (proj1 (proj2 draft_floor_triples_velocity)) as Hy.
  split; [exact R1|]. split; [exact Hy|].
  exact (proj2 (draft_floor_multiplies_velocity_by_minus_three
                  (fst (DraftSpec.world 1 0 (mkvec 0 (-9) 0) vec3.vzero))
                  (snd (DraftSpec.world 1 0 (mkvec 0 (-9) 0) vec3.vzero)) 1 R1 Hy)).
Defined.

Lemma draft_reflect_grows_square k lo hi x v :
  k = -1 \/ k = -3 ->
  v * v <= snd (DraftSpec.reflect k lo hi x v) * snd (DraftSpec.reflect k lo hi x v).
Proof.
  intros Hk. unfold DraftSpec.reflect. pose proof (Rle_0_sqr v) as Hv. unfold Rsqr in Hv.
  split_tests; cbn [snd]; destruct Hk; subst k; nra.
Qed.

Lemma draft_reflect_grows_abs k lo hi x v :
  k = -1 \/ k = -3 ->
  Rabs v <= Rabs (snd (DraftSpec.reflect k lo hi x v)).
Proof.
  intros Hk. apply Rsqr_le_abs_0. unfold Rsqr. apply draft_reflect_grows_square, Hk.
Qed.

Lemma draft_axis_factor (a : axis) :
  match a with Y => -3 | _ => -1 end = -1 \/ match a with Y => -3 | _ => -1 end = -3.
Proof. destruct a; [left | right | left]; reflexivity. Qed.

(** X11: The collision tests of the draft never slow a sphere down: whatever
    the box, the radius and the state, [handleCollisions] leaves every
    component of the velocity with an absolute value at least as large as
    before, and a velocity at least as long. *)
Theorem draft_handleCollisions_never_slows :
  forall (h : heap) (s : Draft.Sphere) (dt : R) (b : option BoundingRange.t),
    let w' := exec (Draft.handleCollisions dt b) (h, s) in
    (forall a : axis,
       Rabs (coord a (DraftSpec.velocity (h, s))) <= Rabs (coord a (DraftSpec.velocity w'))) /\
    vec3.vlength (DraftSpec.velocity (h, s)) <= vec3.vlength (DraftSpec.velocity w') /\
    DraftSpec.speed w' = vec3.vlength (DraftSpec.velocity w').
Proof.
  intros h s dt b. cbv zeta.
  pose proof (DraftFacts.draft_handleCollisions_velocity h s dt b) as Hv. cbv zeta in Hv.
  destruct (DraftFacts.draft_handleCollisions_object h s dt b) as (_ & _ & _ & _ & Hsp & _).
  split; [|split; [|exact Hsp]].
  - intros a. rewrite Hv. apply draft_reflect_grows_abs, draft_axis_factor.
  - unfold vec3.vlength. apply sqrt_le_1_alt.
    pose proof (Hv X) as HX. pose proof (Hv Y) as HY. pose proof (Hv Z) as HZ.
    cbn [coord] in HX, HY, HZ. rewrite HX, HY, HZ.
    pose proof (draft_reflect_grows_square (-1)
                  (Range.min (range X (box_of b)) + Draft._radius s)
                  (Range.max (range X (box_of b)) - Draft._radius s)
                  (c0 (cell h (Draft._position s))) (c0 (cell h (Draft._velocity s)))
                  (or_introl eq_refl)) as GX.
    pose proof (draft_reflect_grows_square (-3)
                  (Range.min (range Y (box_of b)) + Draft._radius s)
                  (Range.max (range Y (box_of b)) - Draft._radius s)
                  (c1 (cell h (Draft._position s))) (c1 (cell h (Draft._velocity s)))
                  (or_intror eq_refl)) as GY.
    pose proof (draft_reflect_grows_square (-1)
                  (Range.min (range Z (box_of b)) + Draft._radius s)
                  (Range.max (range Z (box_of b)) - Draft._radius s)
                  (c2 (cell h (Draft._position s))) (c2 (cell h (Draft._velocity s)))
                  (or_introl eq_refl)) as GZ.
    unfold DraftSpec.velocity, deref. cbn [fst snd].
    apply Rplus_le_compat; [apply Rplus_le_compat|]; assumption.
Qed.

(** ** src/unnamed/part_003: the cached squares *)

Lemma rmax_of_zero_length :
  Rmax (vec3.vlength vec3.vzero) (- vec3.vlength vec3.vzero) = 0.
Proof. rewrite vlength_zero, Ropp_0. apply Rmax_left. lra. Qed.

(** X12: A new sphere of the draft feels no drag on its first step.  The
    constructor assigns the zero array to the velocity, which caches the
    speed 0, and only then fills the array with the drawn vector: whatever
    speed is asked for and whatever vector is drawn, the sphere it leaves
    has that vector as velocity, the cached speed 0, and a force of drag
    equal to the zero vector. *)
Theorem draft_new_sphere_feels_no_drag :
  forall (d : Draft.Draws) (h : heap) (s : Draft.Sphere) (radius speed : option R),
    let w' := exec (Draft.constructor d radius speed) (h, s) in
    let v := match speed with Some v => v | None => Draft.random_speed d * 200 end in
    DraftSpec.velocity w' = Draft.random_velocity d v /\
    DraftSpec.speed w' = 0 /\
    Draft.speedSq (snd w') = 0 /\
    deref (exec Draft.dragForce w') (result Draft.dragForce w') = vec3.vzero.
Proof.
  intros d h s radius speed. cbv zeta.
  destruct (DraftFacts.draft_constructor_spec d h s radius speed) as (Hs & _ & Hv & _).
  revert Hs Hv.
  generalize (exec (Draft.constructor d radius speed) (h, s)). intros [h1 s1].
  cbn [fst snd]. intros Hs Hv.
  destruct (DraftFacts.draft_dragForce_spec h1 s1) as (_ & _ & Hd & _).
  unfold deref. rewrite Hd.
  unfold DraftSpec.velocity, DraftSpec.speed, deref. cbn [fst snd]. subst s1.
  cbn [Draft._velocity Draft._speed Draft.speedSq Draft.radiusSq].
  rewrite rmax_of_zero_length.
  split; [exact Hv|]. split; [reflexivity|]. split; [ring|].
  apply vec_eq; cbn [c0 c1 c2 vec3.vscale vec3.vzero]; ring.
Qed.

(** X13: The caches of the draft stay in step.  The constructor leaves
    [radiusSq] and [speedSq] equal to the squares of the radius and of the
    cached speed; assigning the radius, the speed or the velocity, and
    every [updateVelocity], [updatePosition], [handleCollisions] and [tick]
    keep them so. *)
Theorem draft_caches_stay_in_step :
  (forall (d : Draft.Draws) (h : heap) (s : Draft.Sphere) (radius speed : option R),
     DraftSpec.cached (snd (exec (Draft.constructor d radius speed) (h, s)))) /\
  (forall (h : heap) (s : Draft.Sphere),
     DraftSpec.cached s ->
     (forall r : R, DraftSpec.cached (snd (exec (Draft.set_radius r) (h, s)))) /\
     (forall sp : R, DraftSpec.cached (snd (exec (Draft.set_speed sp) (h, s)))) /\
     (forall v : ref, DraftSpec.cached (snd (exec (Draft.set_velocity v) (h, s)))) /\
     (forall dt : R, DraftSpec.cached (snd (exec (Draft.updateVelocity dt) (h, s)))) /\
     (forall dt : R, DraftSpec.cached (snd (exec (Draft.updatePosition dt) (h, s)))) /\
     (forall (dt : R) (b : option BoundingRange.t),
        DraftSpec.cached (snd (exec (Draft.handleCollisions dt b) (h, s)))) /\
     (forall dt : R, DraftSpec.cached (snd (exec (Draft.tick dt) (h, s))))).
Proof.
  split.
  - intros d h s radius speed.
    exact (proj1 (proj2 (DraftFacts.draft_constructor_wf d h s radius speed))).
  - intros h s Hc.
    split; [intros r; apply DraftFacts.draft_set_radius_cached, Hc|].
    destruct Hc as [Hr Hs].
    split; [|split; [|split; [|split; [|split]]]].
    + intros sp. destruct h as [c n], s as [r rq m col p v0 sp0 sq].
      cbv [DraftSpec.cached Draft._radius Draft.radiusSq Draft._speed Draft.speedSq] in Hr |- *.
      DraftFacts.run. split; [exact Hr | reflexivity].
    + intros v. destruct h as [c n], s as [r rq m col p v0 sp0 sq].
      cbv [DraftSpec.cached Draft._radius Draft.radiusSq Draft._speed Draft.speedSq] in Hr |- *.
      DraftFacts.run. split; [exact Hr | reflexivity].
    + intros dt. destruct h as [c n], s as [r rq m col p v0 sp0 sq].
      cbv [DraftSpec.cached Draft._radius Draft.radiusSq Draft._speed Draft.speedSq] in Hr |- *.
      DraftFacts.run. split; [exact Hr | reflexivity].
    + intros dt. destruct h as [c n], s as [r rq m col p v0 sp0 sq].
      cbv [DraftSpec.cached Draft._radius Draft.radiusSq Draft._speed Draft.speedSq] in Hr |- *.
      DraftFacts.run. split; [exact Hr | reflexivity].
    + intros dt b.
      destruct (DraftFacts.draft_handleCollisions_object h s dt b)
        as (Er & _ & _ & Eq & _ & Esq & _).
      split; [|exact Esq]. rewrite Eq. unfold DraftSpec.radius in Er. rewrite Er. exact Hr.
    + intros dt. apply DraftFacts.draft_tick_wf_cached. split; assumption.
Qed.

Lemma draft_caches_stay_in_step_witness :
  DraftSpec.cached (snd (DraftSpec.world 1 0 (mkvec 0 5 0) vec3.vzero)) /\
  DraftSpec.cached
    (snd (exec (Draft.tick 0.1) (DraftSpec.world 1 0 (mkvec 0 5 0) vec3.vzero))).
Proof.
  pose proof (draft_world_cached 1 0 (mkvec 0 5 0) vec3.vzero) as C.
  split; [exact C|].
  exact (proj2 (proj2 (proj2 (proj2 (proj2 (proj2
           (proj2 draft_caches_stay_in_step
              (fst (DraftSpec.world 1 0 (mkvec 0 5 0) vec3.vzero))
              (snd (DraftSpec.world 1 0 (mkvec 0 5 0) vec3.vzero)) C))))))
           0.1).
Defined.

(** ** src/unnamed/part_000: a tick of the engine *)

Lemma engine_call_exec {A} (o : PhysicsEngine.oref) (m : Sphere.Method A) h e :
  exec (PhysicsEngine.call o m) (h, e) =
  (fst (exec m (h, PhysicsEngine.spheres e o)),
   PhysicsEngine.mkState
     (fun o' => if Nat.eqb o' o then snd (exec m (h, PhysicsEngine.spheres e o))
                else PhysicsEngine.spheres e o')
     (PhysicsEngine.next_sphere e) (PhysicsEngine._sphereList e)).
Proof.
  unfold exec, PhysicsEngine.call.
  destruct (m (h, PhysicsEngine.spheres e o)) as [a [h' s']]. reflexivity.
Qed.

Lemma engine_forEach_cons {A} (a : A) l (f : A -> PhysicsEngine.Method unit) w :
  exec (PhysicsEngine.forEach (a :: l) f) w = exec (PhysicsEngine.forEach l f) (exec (f a) w).
Proof. cbn [PhysicsEngine.forEach]. apply exec_bind. Qed.

Lemma engine_tick_unfold dt h e :
  exec (PhysicsEngine.tick dt) (h, e) =
  exec (PhysicsEngine.forEach (PhysicsEngine._sphereList e)
          (fun sphere => PhysicsEngine.call sphere (Sphere.tick dt))) (h, e).
Proof. unfold PhysicsEngine.tick. rewrite exec_bind. reflexivity. Qed.

(** What a tick leaves depends on the contents of the two arrays only. *)
Lemma sphere_tick_local h h' s dt :
  SphereSpec.wf (h, s) -> SphereSpec.wf (h', s) ->
  cell h' (Sphere._position s) = cell h (Sphere._position s) ->
  cell h' (Sphere._velocity s) = cell h (Sphere._velocity s) ->
  SphereSpec.position (exec (Sphere.tick dt) (h', s)) =
    SphereSpec.position (exec (Sphere.tick dt) (h, s)) /\
  SphereSpec.velocity (exec (Sphere.tick dt) (h', s)) =
    SphereSpec.velocity (exec (Sphere.tick dt) (h, s)) /\
  SphereSpec.speed (exec (Sphere.tick dt) (h', s)) =
    SphereSpec.speed (exec (Sphere.tick dt) (h, s)).
Proof.
  intros W W' Hp Hv.
  assert (Ev : SphereSummary.integrated_velocity (h', s) dt =
               SphereSummary.integrated_velocity (h, s) dt).
  { unfold SphereSummary.integrated_velocity, SphereSpec.velocity, SphereSpec.mass, deref.
    cbn [fst snd]. rewrite Hv. reflexivity. }
  assert (Ep : SphereSummary.integrated_position (h', s) dt =
               SphereSummary.integrated_position (h, s) dt).
  { unfold SphereSummary.integrated_position. rewrite Ev.
    unfold SphereSpec.position, deref. cbn [fst snd]. rewrite Hp. reflexivity. }
  destruct (sphere_tick_summary h s dt W) as [P V].
  destruct (sphere_tick_summary h' s dt W') as [P' V'].
  rewrite !sphere_tick_speed, P, V, P', V', Ev, Ep.
  split; [reflexivity|]. split; reflexivity.
Qed.

Lemma engine_forEach_tick dt l :
  forall h e,
    EngineSpec.separate h e l ->
    let w' := exec (PhysicsEngine.forEach l
                      (fun sphere => PhysicsEngine.call sphere (Sphere.tick dt))) (h, e) in
    PhysicsEngine._sphereList (snd w') = PhysicsEngine._sphereList e /\
    PhysicsEngine.next_sphere (snd w') = PhysicsEngine.next_sphere e /\
    (next h <= next (fst w'))%nat /\
    (forall o, ~ In o l -> PhysicsEngine.spheres (snd w') o = PhysicsEngine.spheres e o) /\
    (forall r, (r < next h)%nat ->
       (forall o, In o l -> r <> Sphere._position (PhysicsEngine.spheres e o) /\
                            r <> Sphere._velocity (PhysicsEngine.spheres e o)) ->
       cell (fst w') r = cell h r) /\
    (forall o, In o l ->
       let s' := PhysicsEngine.spheres (snd w') o in
       let alone := exec (Sphere.tick dt) (h, PhysicsEngine.spheres e o) in
       (next h <= Sphere._position s' < next (fst w'))%nat /\
       (next h <= Sphere._velocity s' < next (fst w'))%nat /\
       Sphere._position s' <> Sphere._velocity s' /\
       cell (fst w') (Sphere._position s') = SphereSpec.position alone /\
       cell (fst w') (Sphere._velocity s') = SphereSpec.velocity alone /\
       Sphere._radius s' = Sphere._radius (PhysicsEngine.spheres e o) /\
       Sphere._mass s' = Sphere._mass (PhysicsEngine.spheres e o) /\
       Sphere._speed s' = SphereSpec.speed alone /\
       Sphere._color s' = Sphere._color (PhysicsEngine.spheres e o)) /\
    (forall o o', In o l -> In o' l -> o <> o' ->
       EngineSpec.apart (PhysicsEngine.spheres (snd w') o) (PhysicsEngine.spheres (snd w') o')).
Proof.
  induction l as [|a l IH]; intros h e Hsep; cbv zeta.
  - unfold exec. cbn [PhysicsEngine.forEach ret fst snd].
    split; [reflexivity|]. split; [reflexivity|]. split; [lia|].
    split; [reflexivity|]. split; [reflexivity|].
    split; [intros o [] | intros o o' []].
  - rewrite engine_forEach_cons, engine_call_exec.
    destruct Hsep as (Hnd & Hwf & Hap).
    assert (Hna : ~ In a l) by (inversion Hnd; assumption).
    assert (Hnd' : NoDup l) by (inversion Hnd; assumption).
    pose proof (Hwf a (or_introl eq_refl)) as Wa.
    pose proof (sphere_tick_frame h (PhysicsEngine.spheres e a) dt Wa) as F. cbv zeta in F.
    revert F.
    destruct (exec (Sphere.tick dt) (h, PhysicsEngine.spheres e a)) as [h1 s1] eqn:ET.
    cbn [fst snd]. intros (A1 & A2 & A3 & A4 & A5 & A6 & A7 & A8 & A9 & A10 & A11).
    set (e1 := PhysicsEngine.mkState
                 (fun o' => if Nat.eqb o' a then s1 else PhysicsEngine.spheres e o')
                 (PhysicsEngine.next_sphere e) (PhysicsEngine._sphereList e)).
    assert (E1a : PhysicsEngine.spheres e1 a = s1).
    { unfold e1. cbn [PhysicsEngine.spheres]. rewrite Nat.eqb_refl. reflexivity. }
    assert (E1o : forall o, o <> a -> PhysicsEngine.spheres e1 o = PhysicsEngine.spheres e o).
    { intros o Ho. unfold e1. cbn [PhysicsEngine.spheres].
      replace (Nat.eqb o a) with false by (symmetry; apply Nat.eqb_neq; exact Ho).
      reflexivity. }
    assert (E1l : PhysicsEngine._sphereList e1 = PhysicsEngine._sphereList e) by reflexivity.
    assert (E1n : PhysicsEngine.next_sphere e1 = PhysicsEngine.next_sphere e) by reflexivity.
    clearbody e1.
    assert (Hne : forall o, In o l -> o <> a) by (intros o Ho E; subst o; exact (Hna Ho)).
    assert (Hlt : forall o, In o l ->
              (Sphere._position (PhysicsEngine.spheres e o) < next h)%nat /\
              (Sphere._velocity (PhysicsEngine.spheres e o) < next h)%nat /\
              Sphere._position (PhysicsEngine.spheres e o) <>
                Sphere._velocity (PhysicsEngine.spheres e o)).
    { intros o Ho. exact (Hwf o (or_intror Ho)). }
    assert (Hkeep : forall o, In o l ->
              cell h1 (Sphere._position (PhysicsEngine.spheres e o)) =
                cell h (Sphere._position (PhysicsEngine.spheres e o)) /\
              cell h1 (Sphere._velocity (PhysicsEngine.spheres e o)) =
                cell h (Sphere._velocity (PhysicsEngine.spheres e o))).
    { intros o Ho. destruct (Hlt o Ho) as (L1 & L2 & _).
      destruct (Hap o a (or_intror Ho) (or_introl eq_refl) (Hne o Ho)) as (P1 & P2 & P3 & P4).
      split; apply A9; assumption. }
    assert (Hsep1 : EngineSpec.separate h1 e1 l).
    { split; [exact Hnd'|]. split.
      - intros o Ho. rewrite (E1o o (Hne o Ho)). destruct (Hlt o Ho) as (L1 & L2 & L3).
        unfold SphereSpec.wf. cbn [fst snd]. split; [lia|]. split; [lia | exact L3].
      - intros o o' Ho Ho' Hd. rewrite (E1o o (Hne o Ho)), (E1o o' (Hne o' Ho')).
        apply Hap; [right; exact Ho | right; exact Ho' | exact Hd]. }
    pose proof (IH h1 e1 Hsep1) as IH1. cbv zeta in IH1.
    revert IH1.
    generalize (exec (PhysicsEngine.forEach l
                        (fun sphere => PhysicsEngine.call sphere (Sphere.tick dt))) (h1, e1)).
    intros [h2 e2]. cbn [fst snd]. intros (B1 & B2 & B3 & B4 & B5 & B6 & B7).
    split; [rewrite B1; exact E1l|]. split; [rewrite B2; exact E1n|]. split; [lia|].
    split; [|split; [|split]].
    + intros o Ho. rewrite (B4 o (fun H => Ho (or_intror H))).
      apply E1o. intros E. apply Ho. left. symmetry. exact E.
    + intros r Hr Hout. rewrite B5.
      * destruct (Hout a (or_introl eq_refl)) as [O1 O2]. apply A9; assumption.
      * lia.
      * intros o Ho. rewrite (E1o o (Hne o Ho)). apply Hout. right. exact Ho.
    + intros o [Ho|Ho].
      * subst o. rewrite (B4 a Hna), E1a.
        assert (K : forall r, (next h <= r < next h1)%nat -> cell h2 r = cell h1 r).
        { intros r Hr. apply B5; [lia|]. intros o Ho. rewrite (E1o o (Hne o Ho)).
          destruct (Hlt o Ho) as (L1 & L2 & _). split; lia. }
        rewrite ET. unfold SphereSpec.position, SphereSpec.velocity, SphereSpec.speed, deref.
        cbn [fst snd].
        split; [lia|]. split; [lia|]. split; [exact A5|].
        split; [apply K; lia|]. split; [apply K; lia|].
        split; [exact A7|]. split; [exact A8|].
        split; [reflexivity | exact A6].
      * destruct (B6 o Ho) as (C1 & C2 & C3 & C4 & C5 & C6 & C7 & C8 & C9).
        rewrite (E1o o (Hne o Ho)) in C4, C5, C6, C7, C8, C9.
        destruct (Hlt o Ho) as (L1 & L2 & L3). destruct (Hkeep o Ho) as [K1 K2].
        assert (W : SphereSpec.wf (h, PhysicsEngine.spheres e o)) by exact (Hwf o (or_intror Ho)).
        assert (W1 : SphereSpec.wf (h1, PhysicsEngine.spheres e o)).
        { unfold SphereSpec.wf. cbn [fst snd]. split; [lia|]. split; [lia | exact L3]. }
        destruct (sphere_tick_local h h1 (PhysicsEngine.spheres e o) dt W W1 K1 K2)
          as (T1 & T2 & T3).
        split; [lia|]. split; [lia|]. split; [exact C3|].
        split; [rewrite C4; exact T1|]. split; [rewrite C5; exact T2|].
        split; [exact C6|]. split; [exact C7|].
        split; [rewrite C8; exact T3 | exact C9].
    + assert (Q : forall o, In o l ->
                EngineSpec.apart (PhysicsEngine.spheres e2 a) (PhysicsEngine.spheres e2 o) /\
                EngineSpec.apart (PhysicsEngine.spheres e2 o) (PhysicsEngine.spheres e2 a)).
      { intros o Ho. rewrite (B4 a Hna), E1a.
        destruct (B6 o Ho) as (C1 & C2 & _).
        unfold EngineSpec.apart. split; (split; [lia|]; split; [lia|]; split; lia). }
      intros o o' [Ho|Ho] [Ho'|Ho'] Hd.
      * subst o o'. exfalso. apply Hd. reflexivity.
      * subst o. exact (proj1 (Q o' Ho')).
      * subst o'. exact (proj2 (Q o Ho)).
      * apply B7; assumption.
Qed.

Lemma engine_two_spheres_separate p1 v1 p2 v2 :
  EngineSpec.separate (fst (EngineSpec.two_spheres p1 v1 p2 v2))
                      (snd (EngineSpec.two_spheres p1 v1 p2 v2))
                      (PhysicsEngine._sphereList (snd (EngineSpec.two_spheres p1 v1 p2 v2))).
Proof.
  unfold EngineSpec.two_spheres, EngineSpec.separate, EngineSpec.apart, SphereSpec.wf.
  cbn [fst snd PhysicsEngine._sphereList PhysicsEngine.spheres next].
  split; [|split].
  - constructor; [intros [H|[]]; discriminate|]. constructor; [intros []|]. constructor.
  - intros o [H|[H|[]]]; subst o; cbn [Sphere._position Sphere._velocity];
      (split; [lia|]; split; lia).
  - intros o o' [H|[H|[]]] [H'|[H'|[]]] Hd; subst o o';
      try (exfalso; apply Hd; reflexivity);
      cbn [Sphere._position Sphere._velocity]; (split; [lia|]; split; [lia|]; split; lia).
Qed.

(** X14: A tick of the engine advances every sphere of its list by the same
    time, each as if it were ticked alone.  When the list holds different
    sphere objects whose position and velocity arrays are allocated and
    shared with no other sphere of the list, [tick] keeps the list, leaves
    each listed sphere with the position, velocity and cached speed that
    [Sphere.tick] gives from the state before the engine's tick, keeps its
    radius and mass, leaves the objects outside the list as they are, and
    the spheres of the list are again separate. *)
Theorem engine_tick_advances_each_sphere :
  forall (h : heap) (e : PhysicsEngine.State) (dt : R),
    EngineSpec.separate h e (PhysicsEngine._sphereList e) ->
    let w' := exec (PhysicsEngine.tick dt) (h, e) in
    PhysicsEngine._sphereList (snd w') = PhysicsEngine._sphereList e /\
    (forall o, In o (PhysicsEngine._sphereList e) ->
       let alone := exec (Sphere.tick dt) (EngineSpec.sphere_at (h, e) o) in
       SphereSpec.position (EngineSpec.sphere_at w' o) = SphereSpec.position alone /\
       SphereSpec.velocity (EngineSpec.sphere_at w' o) = SphereSpec.velocity alone /\
       SphereSpec.speed (EngineSpec.sphere_at w' o) = SphereSpec.speed alone /\
       SphereSpec.radius (EngineSpec.sphere_at w' o) =
         SphereSpec.radius (EngineSpec.sphere_at (h, e) o) /\
       SphereSpec.mass (EngineSpec.sphere_at w' o) =
         SphereSpec.mass (EngineSpec.sphere_at (h, e) o)) /\
    (forall o, ~ In o (PhysicsEngine._sphereList e) ->
       PhysicsEngine.spheres (snd w') o = PhysicsEngine.spheres e o) /\
    EngineSpec.separate (fst w') (snd w') (PhysicsEngine._sphereList (snd w')).
Proof.
  intros h e dt Hsep. cbv zeta. rewrite engine_tick_unfold.
  pose proof (engine_forEach_tick dt (PhysicsEngine._sphereList e) h e Hsep) as H.
  cbv zeta in H. revert H.
  generalize (exec (PhysicsEngine.forEach (PhysicsEngine._sphereList e)
                      (fun sphere => PhysicsEngine.call sphere (Sphere.tick dt))) (h, e)).
  intros [h2 e2]. unfold EngineSpec.sphere_at. cbn [fst snd].
  intros (B1 & B2 & B3 & B4 & B5 & B6 & B7).
  split; [exact B1|]. split; [|split; [exact B4|]].
  - intros o Ho. destruct (B6 o Ho) as (C1 & C2 & C3 & C4 & C5 & C6 & C7 & C8 & C9).
    unfold SphereSpec.position at 1, SphereSpec.velocity at 1, SphereSpec.speed at 1,
      SphereSpec.radius, SphereSpec.mass, deref.
    cbn [fst snd].
    split; [exact C4|]. split; [exact C5|]. split; [exact C8|]. split; [exact C6 | exact C7].
  - rewrite B1. destruct Hsep as (Hnd & _ & _).
    split; [exact Hnd|]. split; [|exact B7].
    intros o Ho. destruct (B6 o Ho) as (C1 & C2 & C3 & _).
    unfold SphereSpec.wf. cbn [fst snd]. split; [lia|]. split; [lia | exact C3].
Qed.

Lemma engine_tick_advances_each_sphere_witness :
  EngineSpec.separate
    (fst (EngineSpec.two_spheres (mkvec 0 5 0) (mkvec 1 0 0) (mkvec 3 0 0) (mkvec 0 0 1)))
    (snd (EngineSpec.two_spheres (mkvec 0 5 0) (mkvec 1 0 0) (mkvec 3 0 0) (mkvec 0 0 1)))
    (PhysicsEngine._sphereList
       (snd (EngineSpec.two_spheres (mkvec 0 5 0) (mkvec 1 0 0) (mkvec 3 0 0) (mkvec 0 0 1)))) /\
  PhysicsEngine._sphereList
    (snd (exec (PhysicsEngine.tick 0.1)
               (EngineSpec.two_spheres (mkvec 0 5 0) (mkvec 1 0 0) (mkvec 3 0 0) (mkvec 0 0 1)))) =
  [0%nat; 1%nat].
Proof.
  pose proof (engine_two_spheres_separate (mkvec 0 5 0) (mkvec 1 0 0) (mkvec 3 0 0) (mkvec 0 0 1))
    as S.
  split; [exact S|].
  exact (proj1 (engine_tick_advances_each_sphere
                  (fst (EngineSpec.two_spheres (mkvec 0 5 0) (mkvec 1 0 0) (mkvec 3 0 0) (mkvec 0 0 1)))
                  (snd (EngineSpec.two_spheres (mkvec 0 5 0) (mkvec 1 0 0) (mkvec 3 0 0) (mkvec 0 0 1)))
                  0.1 S)).
Defined.

(** ** src/unnamed/part_000: adding spheres *)

Lemma engine_addSphere_new_exec d h e :
  exec (PhysicsEngine.addSphere d None) (h, e) =
  (fst (exec (Sphere.constructor d None None)
             (h, PhysicsEngine.spheres e (PhysicsEngine.next_sphere e))),
   PhysicsEngine.mkState
     (fun o' => if Nat.eqb o' (PhysicsEngine.next_sphere e)
                then snd (exec (Sphere.constructor d None None)
                               (h, PhysicsEngine.spheres e (PhysicsEngine.next_sphere e)))
                else PhysicsEngine.spheres e o')
     (S (PhysicsEngine.next_sphere e))
     (PhysicsEngine._sphereList e ++ [PhysicsEngine.next_sphere e])).
Proof.
  unfold exec, PhysicsEngine.addSphere, PhysicsEngine.new_Sphere, PhysicsEngine.call,
    PhysicsEngine.get_sphereList, PhysicsEngine.set_sphereList, bind, ret, this, modify.
  cbn [fst snd PhysicsEngine._sphereList PhysicsEngine.spheres PhysicsEngine.next_sphere].
  destruct (Sphere.constructor d None None
              (h, PhysicsEngine.spheres e (PhysicsEngine.next_sphere e))) as [u [h' s']].
  reflexivity.
Qed.

Lemma engine_addSphere_given_exec d o h e :
  exec (PhysicsEngine.addSphere d (Some o)) (h, e) =
  (h, PhysicsEngine.mkState (PhysicsEngine.spheres e) (PhysicsEngine.next_sphere e)
                            (PhysicsEngine._sphereList e ++ [o])).
Proof. reflexivity. Qed.

(** X15: [addSphere ()] appends a new sphere and touches nothing else.  Called
    without an argument it creates a new object, runs the constructor of
    src/Sphere.js on it and pushes it at the end of the list: the list
    grows by that one object, the spheres that existed and all arrays that
    existed are unchanged, and the new sphere has the drawn radius, mass 1,
    and the drawn position and velocity in arrays of its own. *)
Theorem engine_addSphere_appends_a_new_sphere :
  forall (d : Sphere.Draws) (h : heap) (e : PhysicsEngine.State),
    let w' := exec (PhysicsEngine.addSphere d None) (h, e) in
    let o := PhysicsEngine.next_sphere e in
    let r := Sphere.random_radius d * 2 in
    PhysicsEngine._sphereList (snd w') = PhysicsEngine._sphereList e ++ [o] /\
    PhysicsEngine.next_sphere (snd w') = S o /\
    (forall o', o' <> o -> PhysicsEngine.spheres (snd w') o' = PhysicsEngine.spheres e o') /\
    (forall a : ref, (a < next h)%nat -> cell (fst w') a = cell h a) /\
    SphereSpec.radius (EngineSpec.sphere_at w' o) = r /\
    SphereSpec.mass (EngineSpec.sphere_at w' o) = 1 /\
    SphereSpec.position (EngineSpec.sphere_at w' o) = Sphere.random_position d (10 - r) /\
    SphereSpec.velocity (EngineSpec.sphere_at w' o) =
      Sphere.random_velocity d (Sphere.random_speed d * 100) /\
    (next h <= Sphere._position (PhysicsEngine.spheres (snd w') o))%nat /\
    (next h <= Sphere._velocity (PhysicsEngine.spheres (snd w') o))%nat /\
    SphereSpec.wf (EngineSpec.sphere_at w' o).
Proof.
  intros d h e. cbv zeta. rewrite engine_addSphere_new_exec.
  destruct (SphereFacts.sphere_constructor_spec d h
              (PhysicsEngine.spheres e (PhysicsEngine.next_sphere e)) None None)
    as (Hs & Hp & Hv & _ & Hn).
  pose proof (sphere_constructor_frame d h
                (PhysicsEngine.spheres e (PhysicsEngine.next_sphere e)) None None) as Hf.
  revert Hs Hp Hv Hn Hf.
  generalize (exec (Sphere.constructor d None None)
                   (h, PhysicsEngine.spheres e (PhysicsEngine.next_sphere e))).
  intros [h1 s1]. cbn [fst snd]. intros Hs Hp Hv Hn Hf. subst s1.
  unfold EngineSpec.sphere_at, SphereSpec.radius, SphereSpec.mass, SphereSpec.position,
    SphereSpec.velocity, SphereSpec.wf, deref.
  cbn [fst snd PhysicsEngine._sphereList PhysicsEngine.next_sphere PhysicsEngine.spheres].
  rewrite Nat.eqb_refl.
  cbn [Sphere._radius Sphere._mass Sphere._position Sphere._velocity].
  split; [reflexivity|]. split; [reflexivity|]. split.
  { intros o' Ho.
    replace (Nat.eqb o' (PhysicsEngine.next_sphere e)) with false
      by (symmetry; apply Nat.eqb_neq; exact Ho).
    reflexivity. }
  split; [exact Hf|]. split; [reflexivity|]. split; [reflexivity|].
  split; [exact Hp|]. split; [exact Hv|].
  split; [lia|]. split; [lia|]. split; [lia|]. split; lia.
Qed.

Lemma engine_forEach_repeat dt o n :
  forall h e,
    EngineSpec.sphere_at
      (exec (PhysicsEngine.forEach (repeat o n)
               (fun sphere => PhysicsEngine.call sphere (Sphere.tick dt))) (h, e)) o =
    exec (EngineSpec.ticks n dt) (h, PhysicsEngine.spheres e o).
Proof.
  induction n as [|n IH]; intros h e.
  - reflexivity.
  - cbn [repeat EngineSpec.ticks]. rewrite engine_forEach_cons, engine_call_exec, IH.
    cbn [PhysicsEngine.spheres]. rewrite Nat.eqb_refl, exec_bind.
    destruct (exec (Sphere.tick dt) (h, PhysicsEngine.spheres e o)) as [h1 s1].
    reflexivity.
Qed.

(** X16: The engine ticks a sphere once for every entry of its list.
    [addSphere (toAdd)] does not look whether [toAdd] is in the list
    already: when the list holds the same object [n] times, one tick of
    the engine advances that sphere by [n] ticks of the same time step. *)
Theorem engine_ticks_a_sphere_once_per_entry :
  forall (n : nat) (o : PhysicsEngine.oref) (h : heap) (e : PhysicsEngine.State) (dt : R),
    PhysicsEngine._sphereList e = repeat o n ->
    EngineSpec.sphere_at (exec (PhysicsEngine.tick dt) (h, e)) o =
    exec (EngineSpec.ticks n dt) (h, PhysicsEngine.spheres e o).
Proof.
  intros n o h e dt Hl. rewrite engine_tick_unfold, Hl. apply engine_forEach_repeat.
Qed.

Lemma engine_ticks_a_sphere_once_per_entry_witness :
  PhysicsEngine._sphereList
    (snd (EngineSpec.twice (mkheap (fun _ => mkvec 1 0 0) 2%nat)
                           (Sphere.mkSphere 1 0%nat 1%nat 1 0%nat 1))) = repeat 0%nat 2 /\
  EngineSpec.sphere_at
    (exec (PhysicsEngine.tick 0.1)
          (mkheap (fun _ => mkvec 1 0 0) 2%nat,
           snd (EngineSpec.twice (mkheap (fun _ => mkvec 1 0 0) 2%nat)
                                 (Sphere.mkSphere 1 0%nat 1%nat 1 0%nat 1)))) 0%nat =
  exec (EngineSpec.ticks 2 0.1)
       (mkheap (fun _ => mkvec 1 0 0) 2%nat,
        PhysicsEngine.spheres
          (snd (EngineSpec.twice (mkheap (fun _ => mkvec 1 0 0) 2%nat)
                                 (Sphere.mkSphere 1 0%nat 1%nat 1 0%nat 1))) 0%nat).
Proof.
  split; [reflexivity|].
  apply (engine_ticks_a_sphere_once_per_entry 2 0%nat
           (mkheap (fun _ => mkvec 1 0 0) 2%nat)
           (snd (EngineSpec.twice (mkheap (fun _ => mkvec 1 0 0) 2%nat)
                                  (Sphere.mkSphere 1 0%nat 1%nat 1 0%nat 1)))
           0.1).
  reflexivity.
Defined.

(** ** src/unnamed/part_000: the spheres of an engine stay separate *)

Lemma engine_addSphere_sound d h e :
  EngineSpec.sound (h, e) -> EngineSpec.sound (exec (PhysicsEngine.addSphere d None) (h, e)).
Proof.
  intros [(Hnd & Hwf & Hap) Hlt]. cbn [fst snd] in Hnd, Hwf, Hap, Hlt.
  rewrite engine_addSphere_new_exec.
  destruct (SphereFacts.sphere_constructor_spec d h
              (PhysicsEngine.spheres e (PhysicsEngine.next_sphere e)) None None)
    as (Hs & _ & _ & _ & Hn).
  revert Hs Hn.
  generalize (exec (Sphere.constructor d None None)
                   (h, PhysicsEngine.spheres e (PhysicsEngine.next_sphere e))).
  intros [h1 s1]. cbn [fst snd]. intros Hs Hn.
  set (o := PhysicsEngine.next_sphere e) in *.
  set (e1 := PhysicsEngine.mkState
               (fun o' => if Nat.eqb o' o then s1 else PhysicsEngine.spheres e o')
               (S o) (PhysicsEngine._sphereList e ++ [o])).
  assert (E1a : PhysicsEngine.spheres e1 o = s1).
  { unfold e1. cbn [PhysicsEngine.spheres]. rewrite Nat.eqb_refl. reflexivity. }
  assert (E1o : forall o', o' <> o -> PhysicsEngine.spheres e1 o' = PhysicsEngine.spheres e o').
  { intros o' Ho. unfold e1. cbn [PhysicsEngine.spheres].
    replace (Nat.eqb o' o) with false by (symmetry; apply Nat.eqb_neq; exact Ho).
    reflexivity. }
  assert (Hne : forall o', In o' (PhysicsEngine._sphereList e) -> o' <> o).
  { intros o' Ho. pose proof (Hlt o' Ho). lia. }
  assert (Hold : forall o', In o' (PhysicsEngine._sphereList e) ->
            (Sphere._position (PhysicsEngine.spheres e1 o') < next h)%nat /\
            (Sphere._velocity (PhysicsEngine.spheres e1 o') < next h)%nat /\
            Sphere._position (PhysicsEngine.spheres e1 o') <>
              Sphere._velocity (PhysicsEngine.spheres e1 o')).
  { intros o' Ho. rewrite (E1o o' (Hne o' Ho)). exact (Hwf o' Ho). }
  assert (Hnew : Sphere._position (PhysicsEngine.spheres e1 o) = next h /\
                 Sphere._velocity (PhysicsEngine.spheres e1 o) = S (next h)).
  { rewrite E1a, Hs. split; reflexivity. }
  unfold EngineSpec.sound, EngineSpec.separate. cbn [fst snd].
  change (PhysicsEngine._sphereList e1) with (PhysicsEngine._sphereList e ++ [o]).
  change (PhysicsEngine.next_sphere e1) with (S o).
  clearbody e1. destruct Hnew as [N1 N2].
  split; [split; [|split]|].
  - apply NoDup_app; [exact Hnd | constructor; [intros [] | constructor] |].
    intros a Ha [E|[]]. subst a. exact (Hne o Ha eq_refl).
  - intros o' Ho. apply in_app_or in Ho. unfold SphereSpec.wf. cbn [fst snd].
    destruct Ho as [Ho|[Ho|[]]].
    + destruct (Hold o' Ho) as (L1 & L2 & L3). split; [lia|]. split; [lia | exact L3].
    + subst o'. split; [lia|]. split; lia.
  - intros o1 o2 H1 H2 Hd. apply in_app_or in H1. apply in_app_or in H2.
    destruct H1 as [H1|[H1|[]]], H2 as [H2|[H2|[]]].
    + rewrite (E1o o1 (Hne o1 H1)), (E1o o2 (Hne o2 H2)). apply Hap; assumption.
    + subst o2. destruct (Hold o1 H1) as (L1 & L2 & _).
      unfold EngineSpec.apart. split; [lia|]. split; [lia|]. split; lia.
    + subst o1. destruct (Hold o2 H2) as (L1 & L2 & _).
      unfold EngineSpec.apart. split; [lia|]. split; [lia|]. split; lia.
    + subst o1 o2. exfalso. apply Hd. reflexivity.
  - intros o' Ho. apply in_app_or in Ho. destruct Ho as [Ho|[Ho|[]]].
    + pose proof (Hlt o' Ho). lia.
    + subst o'. lia.
Qed.

Lemma engine_tick_sound dt h e :
  EngineSpec.sound (h, e) -> EngineSpec.sound (exec (PhysicsEngine.tick dt) (h, e)).
Proof.
  intros [Hsep Hlt]. cbn [fst snd] in Hsep, Hlt. rewrite engine_tick_unfold.
  pose proof (engine_forEach_tick dt (PhysicsEngine._sphereList e) h e Hsep) as H.
  cbv zeta in H. revert H.
  generalize (exec (PhysicsEngine.forEach (PhysicsEngine._sphereList e)
                      (fun sphere => PhysicsEngine.call sphere (Sphere.tick dt))) (h, e)).
  intros [h2 e2]. cbn [fst snd].
  intros (B1 & B2 & B3 & B4 & B5 & B6 & B7).
  unfold EngineSpec.sound, EngineSpec.separate. cbn [fst snd]. rewrite B1, B2.
  destruct Hsep as (Hnd & _ & _).
  split; [split; [exact Hnd | split; [|exact B7]] | exact Hlt].
  intros o Ho. destruct (B6 o Ho) as (C1 & C2 & C3 & _).
  unfold SphereSpec.wf. cbn [fst snd]. split; [lia|]. split; [lia | exact C3].
Qed.

Lemma engine_empty_sound h e :
  PhysicsEngine._sphereList e = [] -> EngineSpec.sound (h, e).
Proof.
  intros H. unfold EngineSpec.sound, EngineSpec.separate. cbn [fst snd]. rewrite H.
  split; [split; [constructor | split; [intros o [] | intros o o' []]] | intros o []].
Qed.

(** X17: The engine keeps its spheres separate.  A new engine and an engine
    after [resetSpheres] hold no sphere; from there, every [addSphere ()]
    and every [tick] leave a list of different, created sphere objects
    whose position and velocity arrays are allocated and shared with no
    other sphere of the list. *)
Theorem engine_keeps_its_spheres_separate :
  (forall w : heap * PhysicsEngine.State,
     EngineSpec.sound (exec PhysicsEngine.constructor w) /\
     EngineSpec.sound (exec PhysicsEngine.resetSpheres w)) /\
  (forall (w : heap * PhysicsEngine.State),
     EngineSpec.sound w ->
     (forall d : Sphere.Draws, EngineSpec.sound (exec (PhysicsEngine.addSphere d None) w)) /\
     (forall dt : R, EngineSpec.sound (exec (PhysicsEngine.tick dt) w))).
Proof.
  split.
  - intros [h e]. split; apply engine_empty_sound; reflexivity.
  - intros [h e] Hs. split.
    + intros d. apply engine_addSphere_sound, Hs.
    + intros dt. apply engine_tick_sound, Hs.
Qed.

Lemma engine_keeps_its_spheres_separate_witness :
  EngineSpec.sound
    (exec PhysicsEngine.constructor
          (EngineSpec.two_spheres vec3.vzero vec3.vzero vec3.vzero vec3.vzero)) /\
  EngineSpec.sound
    (exec (PhysicsEngine.tick 0.1)
       (exec (PhysicsEngine.addSphere SphereSpec.draws None)
          (exec PhysicsEngine.constructor
                (EngineSpec.two_spheres vec3.vzero vec3.vzero vec3.vzero vec3.vzero)))).
Proof.
  pose proof (proj1 (proj1 engine_keeps_its_spheres_separate
                       (EngineSpec.two_spheres vec3.vzero vec3.vzero vec3.vzero vec3.vzero)))
    as S0.
  split; [exact S0|].
  pose proof (proj1 (proj2 engine_keeps_its_spheres_separate _ S0) SphereSpec.draws) as S1.
  exact (proj2 (proj2 engine_keeps_its_spheres_separate _ S1) 0.1).
Defined.

(** ** src/index.js: the frames of the animation *)

Lemma index_on_physics_exec {A} (m : PhysicsEngine.Method A) h g :
  exec (Index.on_physics m) (h, g) =
  (fst (exec m (h, Index.physics g)),
   Index.mkGlobals (Index.now g) (Index.then_ g) (Index.mvMatrix g) (Index.mvMatrixStack g)
                   (Index.matrices g) (Index.next_matrix g) (Index.currentlyPressedKeys g)
                   (snd (exec m (h, Index.physics g)))).
Proof.
  unfold exec, Index.on_physics.
  destruct (m (h, Index.physics g)) as [a [h' e']]. reflexivity.
Qed.

Lemma index_on_physics_engine {A} (m : PhysicsEngine.Method A) w :
  IndexSpec.engine (exec (Index.on_physics m) w) = exec m (IndexSpec.engine w).
Proof.
  destruct w as [h g]. rewrite index_on_physics_exec. unfold IndexSpec.engine.
  cbn [fst snd Index.physics].
  destruct (exec m (h, Index.physics g)) as [h' e']. reflexivity.
Qed.

Lemma index_animate_first clock h g :
  Index.then_ g = 0 ->
  exec (Index.animate clock) (h, g) =
  (h, Index.mkGlobals (Index.now g) clock (Index.mvMatrix g) (Index.mvMatrixStack g)
                      (Index.matrices g) (Index.next_matrix g)
                      (Index.currentlyPressedKeys g) (Index.physics g)).
Proof.
  intros H. unfold Index.animate. rewrite exec_bind.
  unfold result, this at 1. cbn [fst snd].
  destruct (Req_dec_T (Index.then_ g) 0) as [E|E]; [|contradiction].
  reflexivity.
Qed.

Lemma index_animate_later clock h g :
  Index.then_ g <> 0 ->
  exec (Index.animate clock) (h, g) =
  (fst (exec (PhysicsEngine.tick (clock * 0.001 - Index.then_ g)) (h, Index.physics g)),
   Index.mkGlobals (clock * 0.001) (clock * 0.001) (Index.mvMatrix g) (Index.mvMatrixStack g)
                   (Index.matrices g) (Index.next_matrix g) (Index.currentlyPressedKeys g)
                   (snd (exec (PhysicsEngine.tick (clock * 0.001 - Index.then_ g))
                              (h, Index.physics g)))).
Proof.
  destruct g as [nw th mv st ms nx ks ph]. cbn [Index.then_ Index.physics Index.now
    Index.mvMatrix Index.mvMatrixStack Index.matrices Index.next_matrix
    Index.currentlyPressedKeys].
  intros H.
  cbv [exec Index.animate bind this modify ret Index.set_now Index.set_then Index.handleKeys
       Index.on_physics fst snd Index.now Index.then_ Index.physics Index.mvMatrix
       Index.mvMatrixStack Index.matrices Index.next_matrix Index.currentlyPressedKeys].
  destruct (Req_dec_T th 0) as [E|E]; [contradiction|].
  destruct (PhysicsEngine.tick (clock * 0.001 - th) (h, ph)) as [u [h' e']].
  reflexivity.
Qed.

(** X18: The first time step of [animate] mixes milliseconds and seconds.  The
    first call only records the clock, in milliseconds, and ticks nothing.
    The second call converts its own reading to seconds and ticks the
    engine by the difference [clock1 / 1000 - clock0], which is negative
    for every positive first reading with [clock1 < 1000 clock0]; only from
    the third call on is the step the elapsed time in seconds. *)
Theorem animate_first_step_mixes_units :
  forall (h : heap) (g : Index.Globals) (clock0 clock1 clock2 : R),
    Index.then_ g = 0 -> clock0 <> 0 -> clock1 <> 0 ->
    let w1 := exec (Index.animate clock0) (h, g) in
    let w2 := exec (Index.animate clock1) w1 in
    let w3 := exec (Index.animate clock2) w2 in
    IndexSpec.engine w1 = (h, Index.physics g) /\
    Index.then_ (snd w1) = clock0 /\
    IndexSpec.engine w2 =
      exec (PhysicsEngine.tick (clock1 * 0.001 - clock0)) (h, Index.physics g) /\
    Index.then_ (snd w2) = clock1 * 0.001 /\
    IndexSpec.engine w3 =
      exec (PhysicsEngine.tick (clock2 * 0.001 - clock1 * 0.001)) (IndexSpec.engine w2) /\
    (0 < clock0 -> clock1 < 1000 * clock0 -> clock1 * 0.001 - clock0 < 0).
Proof.
  intros h g c0 c1 c2 H0 N0 N1. cbv zeta.
  rewrite (index_animate_first c0 h g H0).
  rewrite index_animate_later by (cbn [Index.then_]; exact N0).
  cbn [Index.then_ Index.physics].
  destruct (exec (PhysicsEngine.tick (c1 * 0.001 - c0)) (h, Index.physics g)) as [h2 e2].
  cbn [fst snd].
  rewrite index_animate_later by (cbn [Index.then_]; lra).
  cbn [Index.then_ Index.physics]. unfold IndexSpec.engine. cbn [fst snd Index.physics Index.then_].
  destruct (exec (PhysicsEngine.tick (c2 * 0.001 - c1 * 0.001)) (h2, e2)) as [h3 e3].
  cbn [fst snd].
  split; [reflexivity|]. split; [reflexivity|]. split; [reflexivity|].
  split; [reflexivity|]. split; [reflexivity|].
  intros P L. lra.
Qed.

Lemma animate_first_step_mixes_units_witness :
  Index.then_ (snd (IndexSpec.initial 1000 [] (snd (EngineSpec.two_spheres vec3.vzero vec3.vzero vec3.vzero vec3.vzero)))) = 0 /\
  1000 <> 0 /\ 1016 <> 0 /\ 1016 * 0.001 - 1000 < 0.
Proof.
  assert (H0 : Index.then_ (snd (IndexSpec.initial 1000 [] (snd (EngineSpec.two_spheres vec3.vzero vec3.vzero vec3.vzero vec3.vzero)))) = 0) by reflexivity.
  assert (N0 : 1000 <> 0) by lra.
  assert (N1 : 1016 <> 0) by lra.
  split; [exact H0|]. split; [exact N0|]. split; [exact N1|].
  refine (proj2 (proj2 (proj2 (proj2 (proj2
            (animate_first_step_mixes_units
               (fst (IndexSpec.initial 1000 [] (snd (EngineSpec.two_spheres vec3.vzero vec3.vzero vec3.vzero vec3.vzero))))
               (snd (IndexSpec.initial 1000 [] (snd (EngineSpec.two_spheres vec3.vzero vec3.vzero vec3.vzero vec3.vzero))))
               1000 1016 1032 H0 N0 N1))))) _ _); lra.
Defined.

(** ** src/index.js: the keyboard *)

Lemma index_handle_engine (k : IndexSpec.Key) w :
  IndexSpec.engine (exec (IndexSpec.handle k) w) =
  match k with
  | IndexSpec.KeyDown _ => IndexSpec.engine w
  | IndexSpec.KeyUp d event =>
      if Z.eqb (Index.keyCode event) 32
      then exec (PhysicsEngine.addSphere d None) (IndexSpec.engine w)
      else IndexSpec.engine w
  end.
Proof.
  destruct k as [event | d event]; cbn [IndexSpec.handle].
  - destruct w as [h g]. reflexivity.
  - unfold Index.handleKeyUp. destruct (Z.eqb (Index.keyCode event) 32).
    + apply index_on_physics_engine.
    + destruct w as [h g]. reflexivity.
Qed.

Lemma index_handle_all_cons k l w :
  exec (IndexSpec.handle_all (k :: l)) w =
  exec (IndexSpec.handle_all l) (exec (IndexSpec.handle k) w).
Proof. cbn [IndexSpec.handle_all]. apply exec_bind. Qed.

Lemma index_count_engine w :
  IndexSpec.count w = List.length (PhysicsEngine._sphereList (snd (IndexSpec.engine w))).
Proof. reflexivity. Qed.

(** X19: Every release of the space bar adds exactly one sphere.  After any
    sequence of key events the engine holds as many more spheres as there
    were [keyup] events with key code 32; pressing a key, or releasing
    another key, adds none.  The spheres stay separate, and [reset] leaves
    no sphere. *)
Theorem space_bar_adds_one_sphere_per_release :
  forall (l : list IndexSpec.Key) (w : heap * Index.Globals),
    let w' := exec (IndexSpec.handle_all l) w in
    IndexSpec.count w' = (IndexSpec.count w + IndexSpec.space_releases l)%nat /\
    (EngineSpec.sound (IndexSpec.engine w) -> EngineSpec.sound (IndexSpec.engine w')) /\
    IndexSpec.count (exec Index.reset w') = 0%nat.
Proof.
  intros l w. cbv zeta. split; [|split].
  - revert w. induction l as [|k l IH]; intros w.
    + destruct w as [h g]. cbn [IndexSpec.space_releases]. unfold exec. cbn [IndexSpec.handle_all ret snd].
      lia.
    + rewrite index_handle_all_cons, IH.
      rewrite (index_count_engine (exec (IndexSpec.handle k) w)), index_handle_engine.
      destruct k as [event | d event]; cbn [IndexSpec.space_releases].
      * rewrite <- index_count_engine. reflexivity.
      * destruct (Z.eqb (Index.keyCode event) 32).
        -- rewrite engine_addSphere_count, <- index_count_engine. lia.
        -- rewrite <- index_count_engine. reflexivity.
  - revert w. induction l as [|k l IH]; intros w Hs.
    + destruct w as [h g]. exact Hs.
    + rewrite index_handle_all_cons. apply IH. rewrite index_handle_engine.
      destruct k as [event | d event]; [exact Hs|].
      destruct (Z.eqb (Index.keyCode event) 32); [|exact Hs].
      destruct (IndexSpec.engine w) as [h e]. apply engine_addSphere_sound. exact Hs.
  - rewrite index_count_engine. unfold Index.reset. rewrite index_on_physics_engine.
    destruct (IndexSpec.engine (exec (IndexSpec.handle_all l) w)) as [h e]. reflexivity.
Qed.

Lemma space_bar_adds_one_sphere_per_release_witness :
  EngineSpec.sound
    (IndexSpec.engine
       (exec Index.new_PhysicsEngine
             (IndexSpec.initial 0 []
                (snd (EngineSpec.two_spheres vec3.vzero vec3.vzero vec3.vzero vec3.vzero))))) /\
  EngineSpec.sound
    (IndexSpec.engine
       (exec (IndexSpec.handle_all [IndexSpec.KeyUp SphereSpec.draws (Index.mkEvent 32)])
          (exec Index.new_PhysicsEngine
             (IndexSpec.initial 0 []
                (snd (EngineSpec.two_spheres vec3.vzero vec3.vzero vec3.vzero vec3.vzero)))))).
Proof.
  assert (S0 : EngineSpec.sound
    (IndexSpec.engine
       (exec Index.new_PhysicsEngine
             (IndexSpec.initial 0 []
                (snd (EngineSpec.two_spheres vec3.vzero vec3.vzero vec3.vzero vec3.vzero))))))
    by (apply engine_empty_sound; reflexivity).
  split; [exact S0|].
  exact (proj1 (proj2 (space_bar_adds_one_sphere_per_release
                         [IndexSpec.KeyUp SphereSpec.draws (Index.mkEvent 32)] _)) S0).
Defined.

Lemma index_handle_pressed (k : IndexSpec.Key) w key :
  Index.currentlyPressedKeys (snd w) key = Some true \/
    (exists event, k = IndexSpec.KeyDown event /\ Index.keyCode event = key) ->
  Index.currentlyPressedKeys (snd (exec (IndexSpec.handle k) w)) key = Some true.
Proof.
  intros H. destruct w as [h g]. destruct k as [event | d event]; cbn [IndexSpec.handle].
  - unfold Index.handleKeyDown, Index.set_pressed, exec, modify.
    cbn [fst snd Index.currentlyPressedKeys].
    destruct (Z.eqb key (Index.keyCode event)) eqn:E; [reflexivity|].
    destruct H as [H | (ev & Hk & Hc)]; [exact H|].
    injection Hk as Hk. subst ev. rewrite Hc, Z.eqb_refl in E. discriminate.
  - destruct H as [H | (ev & Hk & _)]; [|discriminate].
    unfold Index.handleKeyUp. destruct (Z.eqb (Index.keyCode event) 32).
    + rewrite index_on_physics_exec. cbn [snd Index.currentlyPressedKeys]. exact H.
    + exact H.
Qed.

(** X20: A key that was pressed is recorded as pressed for ever.
    [handleKeyDown] marks the key code of its event in
    [currentlyPressedKeys]; [handleKeyUp] does not clear the mark: after any
    later events, a key that was marked, or for which a [keydown] event
    occurred, is still marked. *)
Theorem pressed_keys_are_never_released :
  forall (l : list IndexSpec.Key) (w : heap * Index.Globals) (key : BinNums.Z),
    Index.currentlyPressedKeys (snd w) key = Some true \/
      (exists event, In (IndexSpec.KeyDown event) l /\ Index.keyCode event = key) ->
    Index.currentlyPressedKeys (snd (exec (IndexSpec.handle_all l) w)) key = Some true.
Proof.
  induction l as [|k l IH]; intros w key H.
  - destruct H as [H | (ev & [] & _)]. destruct w as [h g]. exact H.
  - rewrite index_handle_all_cons. apply IH.
    destruct H as [H | (ev & [Hk | Hin] & Hc)].
    + left. apply index_handle_pressed. left. exact H.
    + left. apply index_handle_pressed. right. exists ev. split; [exact Hk | exact Hc].
    + right. exists ev. split; [exact Hin | exact Hc].
Qed.

Lemma pressed_keys_are_never_released_witness :
  (exists event,
     In (IndexSpec.KeyDown event)
        [IndexSpec.KeyDown (Index.mkEvent 32);
         IndexSpec.KeyUp SphereSpec.draws (Index.mkEvent 32)] /\
     Index.keyCode event = 32%Z) /\
  Index.currentlyPressedKeys
    (snd (exec (IndexSpec.handle_all
                  [IndexSpec.KeyDown (Index.mkEvent 32);
                   IndexSpec.KeyUp SphereSpec.draws (Index.mkEvent 32)])
               (IndexSpec.initial 0 []
                  (snd (EngineSpec.two_spheres vec3.vzero vec3.vzero vec3.vzero vec3.vzero)))))
    32%Z = Some true.
Proof.
  assert (E : exists event,
     In (IndexSpec.KeyDown event)
        [IndexSpec.KeyDown (Index.mkEvent 32);
         IndexSpec.KeyUp SphereSpec.draws (Index.mkEvent 32)] /\
     Index.keyCode event = 32%Z).
  { exists (Index.mkEvent 32). split; [left; reflexivity | reflexivity]. }
  split; [exact E|].
  exact (pressed_keys_are_never_released _ _ 32%Z (or_intror E)).
Defined.

(** ** src/index.js: the stack of matrices *)

Lemma index_pop_push {A} (l : list A) (x : A) :
  Index.pop (Index.push l x) = (Some x, l).
Proof.
  unfold Index.pop, Index.push. rewrite map_app. cbn [map].
  rewrite last_last, removelast_last. reflexivity.
Qed.

Lemma index_push_length {A} (l : list A) (x : A) :
  Nat.eqb (List.length (Index.push l x)) 0 = false.
Proof.
  unfold Index.push. rewrite length_app. cbn [List.length].
  apply Nat.eqb_neq. lia.
Qed.

(** X21: [mvPopMatrix] gives back the matrix that [mvPushMatrix] saved.  On an
    empty stack [mvPopMatrix] throws the error 'Invalid popMatrix!' and
    changes nothing.  After [mvPushMatrix], whatever is then written into
    the array of the current matrix, [mvPopMatrix] returns normally, leaves
    the stack as it was before the push, and makes the saved copy the
    current matrix: a new array that holds the clone of the contents at the
    time of the push, while the array written to keeps what was written. *)
Theorem mvPopMatrix_gives_back_the_pushed_matrix :
  (forall w : heap * Index.Globals,
     Index.mvMatrixStack (snd w) = [] ->
     Index.mvPopMatrix w = Index.Thrown "Invalid popMatrix!"%string w) /\
  (forall (clone : Index.mat4 -> Index.mat4) (w : heap * Index.Globals) (m' : Index.mat4),
     (Index.mvMatrix (snd w) < Index.next_matrix (snd w))%nat ->
     let w1 := exec (Index.mvPushMatrix clone) w in
     let w2 := exec (Index.write_matrix (Index.mvMatrix (snd w1)) m') w1 in
     exists w3,
       Index.mvPopMatrix w2 = Index.Returned tt w3 /\
       Index.mvMatrixStack (snd w3) = Index.mvMatrixStack (snd w) /\
       Index.mvMatrix (snd w3) = Index.next_matrix (snd w) /\
       Index.matrices (snd w3) (Index.mvMatrix (snd w3)) =
         clone (Index.matrices (snd w) (Index.mvMatrix (snd w))) /\
       Index.matrices (snd w3) (Index.mvMatrix (snd w)) = m' /\
       Index.physics (snd w3) = Index.physics (snd w) /\ fst w3 = fst w).
Proof.
  split.
  - intros [h g] H. unfold Index.mvPopMatrix. cbn [snd] in *. rewrite H. reflexivity.
  - intros clone [h g] m' Hlt. destruct g as [nw th mv st ms nx ks ph].
    cbn [snd Index.mvMatrix Index.next_matrix] in Hlt. cbv zeta.
    cbv [exec Index.mvPushMatrix Index.mat4_clone Index.new_matrix Index.write_matrix
         Index.set_mvMatrixStack bind this modify ret fst snd
         Index.now Index.then_ Index.physics Index.mvMatrix
         Index.mvMatrixStack Index.matrices Index.next_matrix Index.currentlyPressedKeys].
    unfold Index.mvPopMatrix.
    cbn [snd Index.mvMatrixStack]. rewrite index_push_length, index_pop_push.
    eexists. split; [reflexivity|].
    cbv [exec Index.set_mvMatrixStack Index.set_mvMatrix bind modify fst snd
         Index.now Index.then_ Index.physics Index.mvMatrix
         Index.mvMatrixStack Index.matrices Index.next_matrix Index.currentlyPressedKeys].
    split; [reflexivity|]. split; [reflexivity|].
    rewrite !Nat.eqb_refl.
    replace (Nat.eqb nx mv) with false by (symmetry; apply Nat.eqb_neq; lia).
    split; [reflexivity|]. split; [reflexivity|]. split; reflexivity.
Qed.

Lemma mvPopMatrix_gives_back_the_pushed_matrix_witness :
  Index.mvMatrixStack (snd (IndexSpec.initial 0 [1%R; 2%R]
      (snd (EngineSpec.two_spheres vec3.vzero vec3.vzero vec3.vzero vec3.vzero)))) = [] /\
  Index.mvPopMatrix (IndexSpec.initial 0 [1%R; 2%R]
      (snd (EngineSpec.two_spheres vec3.vzero vec3.vzero vec3.vzero vec3.vzero))) =
  Index.Thrown "Invalid popMatrix!"%string (IndexSpec.initial 0 [1%R; 2%R]
      (snd (EngineSpec.two_spheres vec3.vzero vec3.vzero vec3.vzero vec3.vzero))) /\
  (Index.mvMatrix (snd (IndexSpec.initial 0 [1%R; 2%R]
      (snd (EngineSpec.two_spheres vec3.vzero vec3.vzero vec3.vzero vec3.vzero)))) <
   Index.next_matrix (snd (IndexSpec.initial 0 [1%R; 2%R]
      (snd (EngineSpec.two_spheres vec3.vzero vec3.vzero vec3.vzero vec3.vzero)))))%nat /\
  exists w3,
    Index.mvPopMatrix
      (exec (Index.write_matrix 0%nat [3%R; 4%R])
            (exec (Index.mvPushMatrix (fun m => m)) (IndexSpec.initial 0 [1%R; 2%R]
               (snd (EngineSpec.two_spheres vec3.vzero vec3.vzero vec3.vzero vec3.vzero))))) =
    Index.Returned tt w3 /\
    Index.matrices (snd w3) (Index.mvMatrix (snd w3)) = [1%R; 2%R].
Proof.
  split; [reflexivity|].
  split; [exact (proj1 mvPopMatrix_gives_back_the_pushed_matrix
                   (IndexSpec.initial 0 [1%R; 2%R]
                      (snd (EngineSpec.two_spheres vec3.vzero vec3.vzero vec3.vzero vec3.vzero)))
                   eq_refl)|].
  assert (L : (Index.mvMatrix (snd (IndexSpec.initial 0 [1%R; 2%R]
      (snd (EngineSpec.two_spheres vec3.vzero vec3.vzero vec3.vzero vec3.vzero)))) <
   Index.next_matrix (snd (IndexSpec.initial 0 [1%R; 2%R]
      (snd (EngineSpec.two_spheres vec3.vzero vec3.vzero vec3.vzero vec3.vzero)))))%nat)
    by (cbv [IndexSpec.initial snd Index.mvMatrix Index.next_matrix]; lia).
  split; [exact L|].
  destruct (proj2 mvPopMatrix_gives_back_the_pushed_matrix (fun m => m) _ [3%R; 4%R] L)
    as (w3 & E & _ & _ & C & _).
  exists w3. split; [exact E | exact C].
Defined.

(** ** src/simpleModeling.js: subdividing triangles *)

Lemma modeling_pushVertex_eq v arr :
  Modeling.pushVertex v arr = arr ++ [Modeling.v0 v; Modeling.v1 v; Modeling.v2 v].
Proof.
  unfold Modeling.pushVertex, Modeling.for_loop.
  change (Z.to_nat (3 - 0)) with 3%nat. cbn [Modeling.for_from].
  change (0 + 1)%Z with 1%Z. change (1 + 1)%Z with 2%Z.
  unfold Modeling.at_index. cbn [Z.eqb Pos.eqb].
  rewrite <- !app_assoc. reflexivity.
Qed.

Lemma modeling_divideTriangle_rec lerp a b c n arr :
  (n > 0)%Z ->
  Modeling.divideTriangle lerp a b c n arr =
  (let ab := lerp a b 0.5 in
   let ac := lerp a c 0.5 in
   let bc := lerp b c 0.5 in
   let r1 := Modeling.divideTriangle lerp a ab ac (n - 1) arr in
   let r2 := Modeling.divideTriangle lerp ab b bc (n - 1) (snd r1) in
   let r3 := Modeling.divideTriangle lerp bc c ac (n - 1) (snd r2) in
   let r4 := Modeling.divideTriangle lerp ab bc ac (n - 1) (snd r3) in
   ((0 + fst r1 + fst r2 + fst r3 + fst r4)%Z, snd r4)).
Proof.
  intros H. rewrite Modeling.divideTriangle_equation_1.
  destruct (Z_gt_dec n 0) as [G|G]; [|contradiction].
  rewrite Modeling.divideTriangle_clause_1_equation_1. reflexivity.
Qed.

Lemma modeling_divideTriangle_base lerp a b c n arr :
  (n <= 0)%Z ->
  Modeling.divideTriangle lerp a b c n arr =
  (1%Z, Modeling.pushVertex c (Modeling.pushVertex b (Modeling.pushVertex a arr))).
Proof.
  intros H. rewrite Modeling.divideTriangle_equation_1.
  destruct (Z_gt_dec n 0) as [G|G]; [lia|].
  rewrite Modeling.divideTriangle_clause_1_equation_2. reflexivity.
Qed.

Lemma modeling_divideTriangle_depth lerp (d : nat) :
  forall a b c n arr,
    Z.to_nat n = d ->
    fst (Modeling.divideTriangle lerp a b c n arr) = Z.of_nat (4 ^ d) /\
    exists added,
      snd (Modeling.divideTriangle lerp a b c n arr) = arr ++ added /\
      List.length added = (9 * 4 ^ d)%nat.
Proof.
  induction d as [|d IH]; intros a b c n arr Hd.
  - rewrite modeling_divideTriangle_base by lia. cbn [fst snd].
    split; [reflexivity|].
    rewrite !modeling_pushVertex_eq, <- !app_assoc.
    eexists. split; [reflexivity|]. reflexivity.
  - rewrite modeling_divideTriangle_rec by lia. cbv zeta.
    assert (Hd' : Z.to_nat (n - 1) = d) by lia.
    destruct (IH a (lerp a b 0.5) (lerp a c 0.5) (n - 1)%Z arr Hd') as (N1 & ad1 & E1 & L1).
    revert N1 E1.
    generalize (Modeling.divideTriangle lerp a (lerp a b 0.5) (lerp a c 0.5) (n - 1) arr).
    intros [n1 arr1]. cbn [fst snd]. intros N1 E1.
    destruct (IH (lerp a b 0.5) b (lerp b c 0.5) (n - 1)%Z arr1 Hd') as (N2 & ad2 & E2 & L2).
    revert N2 E2.
    generalize (Modeling.divideTriangle lerp (lerp a b 0.5) b (lerp b c 0.5) (n - 1) arr1).
    intros [n2 arr2]. cbn [fst snd]. intros N2 E2.
    destruct (IH (lerp b c 0.5) c (lerp a c 0.5) (n - 1)%Z arr2 Hd') as (N3 & ad3 & E3 & L3).
    revert N3 E3.
    generalize (Modeling.divideTriangle lerp (lerp b c 0.5) c (lerp a c 0.5) (n - 1) arr2).
    intros [n3 arr3]. cbn [fst snd]. intros N3 E3.
    destruct (IH (lerp a b 0.5) (lerp b c 0.5) (lerp a c 0.5) (n - 1)%Z arr3 Hd')
      as (N4 & ad4 & E4 & L4).
    revert N4 E4.
    generalize (Modeling.divideTriangle lerp (lerp a b 0.5) (lerp b c 0.5) (lerp a c 0.5)
                  (n - 1) arr3).
    intros [n4 arr4]. cbn [fst snd]. intros N4 E4.
    split.
    + rewrite N1, N2, N3, N4. rewrite Nat.pow_succ_r'. lia.
    + exists (ad1 ++ ad2 ++ ad3 ++ ad4). split.
      * rewrite E4, E3, E2, E1, <- !app_assoc. reflexivity.
      * rewrite !length_app, L1, L2, L3, L4, Nat.pow_succ_r'. lia.
Qed.

Lemma modeling_pow_of_depth (n : BinNums.Z) :
  (0 <= n)%Z -> Z.of_nat (4 ^ Z.to_nat n) = (4 ^ n)%Z.
Proof. intros H. rewrite Nat2Z.inj_pow, Z2Nat.id by exact H. reflexivity. Qed.

(** X22: [divideTriangle] makes [4 ^ numSubDivs] triangles.  For every number
    of subdivisions it returns, for [numSubDivs >= 0], the count
    [4 ^ numSubDivs] (and 1 for a negative number, which it treats as 0);
    it only appends to the array of vertices, and appends nine numbers for
    each triangle it counts, whatever [vec4.lerp] computes. *)
Theorem divideTriangle_makes_four_to_the_n_triangles :
  forall (lerp : Modeling.vec4 -> Modeling.vec4 -> R -> Modeling.vec4)
         (a b c : Modeling.vec4) (numSubDivs : BinNums.Z) (vertexArray : list R),
    let r := Modeling.divideTriangle lerp a b c numSubDivs vertexArray in
    ((0 <= numSubDivs)%Z -> fst r = (4 ^ numSubDivs)%Z) /\
    ((numSubDivs <= 0)%Z -> fst r = 1%Z) /\
    exists added,
      snd r = vertexArray ++ added /\
      Z.of_nat (List.length added) = (9 * fst r)%Z.
Proof.
  intros lerp a b c n arr. cbv zeta.
  destruct (modeling_divideTriangle_depth lerp (Z.to_nat n) a b c n arr eq_refl)
    as (N & added & E & L).
  split; [|split].
  - intros H. rewrite N. apply modeling_pow_of_depth, H.
  - intros H. rewrite N. replace (Z.to_nat n) with 0%nat by lia. reflexivity.
  - exists added. split; [exact E|]. rewrite N, L. lia.
Qed.

Lemma divideTriangle_makes_four_to_the_n_triangles_witness :
  (0 <= 3)%Z /\
  fst (Modeling.divideTriangle (fun a _ _ => a)
         (Modeling.mkvec4 0 0 0 0) (Modeling.mkvec4 1 0 0 0) (Modeling.mkvec4 0 1 0 0) 3 []) =
  (4 ^ 3)%Z.
Proof.
  assert (H : (0 <= 3)%Z) by lia.
  split; [exact H|].
  exact (proj1 (divideTriangle_makes_four_to_the_n_triangles (fun a _ _ => a)
                  (Modeling.mkvec4 0 0 0 0) (Modeling.mkvec4 1 0 0 0) (Modeling.mkvec4 0 1 0 0)
                  3%Z []) H).
Defined.

(** X23: [planeFromSubdivision] splits the rectangle into two triangles and
    divides each: it returns [2 * 4 ^ n] for [n >= 0], and appends nine
    numbers for each triangle to the array of vertices, keeping what the
    array held. *)
Theorem planeFromSubdivision_makes_two_times_four_to_the_n :
  forall (lerp : Modeling.vec4 -> Modeling.vec4 -> R -> Modeling.vec4)
         (n : BinNums.Z) (minX maxX minY maxY : R) (vertexArray : list R),
    let r := Modeling.planeFromSubdivision lerp n minX maxX minY maxY vertexArray in
    ((0 <= n)%Z -> fst r = (2 * 4 ^ n)%Z) /\
    exists added,
      snd r = vertexArray ++ added /\
      Z.of_nat (List.length added) = (9 * fst r)%Z.
Proof.
  intros lerp n minX maxX minY maxY arr. cbv zeta. unfold Modeling.planeFromSubdivision.
  destruct (modeling_divideTriangle_depth lerp (Z.to_nat n)
              (Modeling.mkvec4 minX minY 0 0) (Modeling.mkvec4 maxX minY 0 0)
              (Modeling.mkvec4 minX maxY 0 0) n arr eq_refl) as (N1 & ad1 & E1 & L1).
  revert N1 E1.
  generalize (Modeling.divideTriangle lerp (Modeling.mkvec4 minX minY 0 0)
                (Modeling.mkvec4 maxX minY 0 0) (Modeling.mkvec4 minX maxY 0 0) n arr).
  intros [n1 arr1]. cbn [fst snd]. intros N1 E1.
  destruct (modeling_divideTriangle_depth lerp (Z.to_nat n)
              (Modeling.mkvec4 maxX minY 0 0) (Modeling.mkvec4 maxX maxY 0 0)
              (Modeling.mkvec4 minX maxY 0 0) n arr1 eq_refl) as (N2 & ad2 & E2 & L2).
  revert N2 E2.
  generalize (Modeling.divideTriangle lerp (Modeling.mkvec4 maxX minY 0 0)
                (Modeling.mkvec4 maxX maxY 0 0) (Modeling.mkvec4 minX maxY 0 0) n arr1).
  intros [n2 arr2]. cbn [fst snd]. intros N2 E2.
  split.
  - intros H. rewrite N1, N2, (modeling_pow_of_depth n H). lia.
  - exists (ad1 ++ ad2). split.
    + rewrite E2, E1, <- app_assoc. reflexivity.
    + rewrite length_app, L1, L2, N1, N2. lia.
Qed.

Lemma planeFromSubdivision_makes_two_times_four_to_the_n_witness :
  (0 <= 2)%Z /\
  fst (Modeling.planeFromSubdivision (fun a _ _ => a) 2 0 1 0 1 []) = (2 * 4 ^ 2)%Z.
Proof.
  assert (H : (0 <= 2)%Z) by lia.
  split; [exact H|].
  exact (proj1 (planeFromSubdivision_makes_two_times_four_to_the_n
                  (fun a _ _ => a) 2%Z 0 1 0 1 []) H).
Defined.

(** ** src/simpleModeling.js: the mesh of the sphere *)

Lemma modeling_sphDivideTriangle_rec lerp normalize a b c n varr narr :
  (n > 0)%Z ->
  Modeling.sphDivideTriangle lerp normalize a b c n varr narr =
  (let ab := normalize (lerp a b 0.5) in
   let ac := normalize (lerp a c 0.5) in
   let bc := normalize (lerp b c 0.5) in
   let r1 := Modeling.sphDivideTriangle lerp normalize a ab ac (n - 1) varr narr in
   let r2 := Modeling.sphDivideTriangle lerp normalize ab b bc (n - 1)
               (fst (snd r1)) (snd (snd r1)) in
   let r3 := Modeling.sphDivideTriangle lerp normalize bc c ac (n - 1)
               (fst (snd r2)) (snd (snd r2)) in
   let r4 := Modeling.sphDivideTriangle lerp normalize ab bc ac (n - 1)
               (fst (snd r3)) (snd (snd r3)) in
   ((0 + fst r1 + fst r2 + fst r3 + fst r4)%Z, snd r4)).
Proof.
  intros H. rewrite Modeling.sphDivideTriangle_equation_1.
  destruct (Z_gt_dec n 0) as [G|G]; [|contradiction].
  rewrite Modeling.sphDivideTriangle_clause_1_equation_1. reflexivity.
Qed.

Lemma modeling_sphDivideTriangle_base lerp normalize a b c n varr narr :
  (n <= 0)%Z ->
  Modeling.sphDivideTriangle lerp normalize a b c n varr narr =
  (1%Z, (Modeling.pushVertex c (Modeling.pushVertex b (Modeling.pushVertex a varr)),
         Modeling.pushVertex c (Modeling.pushVertex b (Modeling.pushVertex a narr)))).
Proof.
  intros H. rewrite Modeling.sphDivideTriangle_equation_1.
  destruct (Z_gt_dec n 0) as [G|G]; [lia|].
  rewrite Modeling.sphDivideTriangle_clause_1_equation_2. reflexivity.
Qed.

Lemma modeling_sphDivideTriangle_depth lerp normalize (d : nat) :
  forall a b c n varr narr,
    Z.to_nat n = d ->
    fst (Modeling.sphDivideTriangle lerp normalize a b c n varr narr) = Z.of_nat (4 ^ d) /\
    exists added,
      fst (snd (Modeling.sphDivideTriangle lerp normalize a b c n varr narr)) = varr ++ added /\
      snd (snd (Modeling.sphDivideTriangle lerp normalize a b c n varr narr)) = narr ++ added /\
      List.length added = (9 * 4 ^ d)%nat.
Proof.
  induction d as [|d IH]; intros a b c n varr narr Hd.
  - rewrite modeling_sphDivideTriangle_base by lia. cbn [fst snd].
    split; [reflexivity|].
    rewrite !modeling_pushVertex_eq, <- !app_assoc.
    eexists. split; [reflexivity|]. split; reflexivity.
  - rewrite modeling_sphDivideTriangle_rec by lia. cbv zeta.
    assert (Hd' : Z.to_nat (n - 1) = d) by lia.
    set (ab := normalize (lerp a b 0.5)). set (ac := normalize (lerp a c 0.5)).
    set (bc := normalize (lerp b c 0.5)).
    destruct (IH a ab ac (n - 1)%Z varr narr Hd') as (N1 & ad1 & E1 & F1 & L1).
    revert N1 E1 F1.
    generalize (Modeling.sphDivideTriangle lerp normalize a ab ac (n - 1) varr narr).
    intros [n1 [v1 m1]]. cbn [fst snd]. intros N1 E1 F1.
    destruct (IH ab b bc (n - 1)%Z v1 m1 Hd') as (N2 & ad2 & E2 & F2 & L2).
    revert N2 E2 F2.
    generalize (Modeling.sphDivideTriangle lerp normalize ab b bc (n - 1) v1 m1).
    intros [n2 [v2 m2]]. cbn [fst snd]. intros N2 E2 F2.
    destruct (IH bc c ac (n - 1)%Z v2 m2 Hd') as (N3 & ad3 & E3 & F3 & L3).
    revert N3 E3 F3.
    generalize (Modeling.sphDivideTriangle lerp normalize bc c ac (n - 1) v2 m2).
    intros [n3 [v3 m3]]. cbn [fst snd]. intros N3 E3 F3.
    destruct (IH ab bc ac (n - 1)%Z v3 m3 Hd') as (N4 & ad4 & E4 & F4 & L4).
    revert N4 E4 F4.
    generalize (Modeling.sphDivideTriangle lerp normalize ab bc ac (n - 1) v3 m3).
    intros [n4 [v4 m4]]. cbn [fst snd]. intros N4 E4 F4.
    split.
    + rewrite N1, N2, N3, N4. rewrite Nat.pow_succ_r'. lia.
    + exists (ad1 ++ ad2 ++ ad3 ++ ad4). split; [|split].
      * rewrite E4, E3, E2, E1, <- !app_assoc. reflexivity.
      * rewrite F4, F3, F2, F1, <- !app_assoc. reflexivity.
      * rewrite !length_app, L1, L2, L3, L4, Nat.pow_succ_r'. lia.
Qed.

Lemma modeling_sphereFromSubdivision_depth lerp normalize n varr narr :
  let r := Modeling.sphereFromSubdivision lerp normalize n varr narr in
  fst r = Z.of_nat (4 * 4 ^ Z.to_nat n) /\
  exists added,
    fst (snd r) = varr ++ added /\ snd (snd r) = narr ++ added /\
    List.length added = (9 * (4 * 4 ^ Z.to_nat n))%nat.
Proof.
  cbv zeta. unfold Modeling.sphereFromSubdivision.
  set (a := Modeling.mkvec4 0.0 0.0 (-1.0) 0).
  set (b := Modeling.mkvec4 0.0 0.942809 0.333333 0).
  set (c := Modeling.mkvec4 (-0.816497) (-0.471405) 0.333333 0).
  set (d := Modeling.mkvec4 0.816497 (-0.471405) 0.333333 0).
  cbv zeta.
  destruct (modeling_sphDivideTriangle_depth lerp normalize (Z.to_nat n) a b c n varr narr eq_refl)
    as (N1 & ad1 & E1 & F1 & L1).
  revert N1 E1 F1.
  generalize (Modeling.sphDivideTriangle lerp normalize a b c n varr narr).
  intros [n1 [v1 m1]]. cbn [fst snd]. intros N1 E1 F1.
  destruct (modeling_sphDivideTriangle_depth lerp normalize (Z.to_nat n) d c b n v1 m1 eq_refl)
    as (N2 & ad2 & E2 & F2 & L2).
  revert N2 E2 F2.
  generalize (Modeling.sphDivideTriangle lerp normalize d c b n v1 m1).
  intros [n2 [v2 m2]]. cbn [fst snd]. intros N2 E2 F2.
  destruct (modeling_sphDivideTriangle_depth lerp normalize (Z.to_nat n) a d b n v2 m2 eq_refl)
    as (N3 & ad3 & E3 & F3 & L3).
  revert N3 E3 F3.
  generalize (Modeling.sphDivideTriangle lerp normalize a d b n v2 m2).
  intros [n3 [v3 m3]]. cbn [fst snd]. intros N3 E3 F3.
  destruct (modeling_sphDivideTriangle_depth lerp normalize (Z.to_nat n) a c d n v3 m3 eq_refl)
    as (N4 & ad4 & E4 & F4 & L4).
  revert N4 E4 F4.
  generalize (Modeling.sphDivideTriangle lerp normalize a c d n v3 m3).
  intros [n4 [v4 m4]]. cbn [fst snd]. intros N4 E4 F4.
  split.
  - rewrite N1, N2, N3, N4. lia.
  - exists (ad1 ++ ad2 ++ ad3 ++ ad4). split; [|split].
    + rewrite E4, E3, E2, E1, <- !app_assoc. reflexivity.
    + rewrite F4, F3, F2, F1, <- !app_assoc. reflexivity.
    + rewrite !length_app, L1, L2, L3, L4. lia.
Qed.

Lemma modeling_sphereFromSubdivision_count lerp normalize n varr narr :
  let r := Modeling.sphereFromSubdivision lerp normalize n varr narr in
  ((0 <= n)%Z -> fst r = (4 ^ (n + 1))%Z) /\
  ((n <= 0)%Z -> fst r = 4%Z) /\
  exists added,
    fst (snd r) = varr ++ added /\ snd (snd r) = narr ++ added /\
    Z.of_nat (List.length added) = (9 * fst r)%Z.
Proof.
  cbv zeta.
  destruct (modeling_sphereFromSubdivision_depth lerp normalize n varr narr)
    as (N & added & E & F & L).
  split; [|split].
  - intros H. rewrite N, Nat2Z.inj_mul, (modeling_pow_of_depth n H).
    rewrite Z.pow_add_r by lia. change (Z.of_nat 4) with 4%Z. lia.
  - intros H. rewrite N. replace (Z.to_nat n) with 0%nat by lia. reflexivity.
  - exists added. split; [exact E|]. split; [exact F|]. rewrite N, L. lia.
Qed.

(** X24: [sphereFromSubdivision] divides the four faces of a tetrahedron: for
    [numSubDivs >= 0] it returns [4 ^ (numSubDivs + 1)] triangles (4 for a
    negative number).  It appends the same numbers to the array of vertices
    and to the array of normals, nine for each triangle, and keeps what the
    two arrays held, whatever [vec4.lerp] and [vec4.normalize] compute. *)
Theorem sphereFromSubdivision_fills_vertices_and_normals_alike :
  forall (lerp : Modeling.vec4 -> Modeling.vec4 -> R -> Modeling.vec4)
         (normalize : Modeling.vec4 -> Modeling.vec4)
         (numSubDivs : BinNums.Z) (vertexArray normalArray : list R),
    let r := Modeling.sphereFromSubdivision lerp normalize numSubDivs vertexArray normalArray in
    ((0 <= numSubDivs)%Z -> fst r = (4 ^ (numSubDivs + 1))%Z) /\
    ((numSubDivs <= 0)%Z -> fst r = 4%Z) /\
    exists added,
      fst (snd r) = vertexArray ++ added /\
      snd (snd r) = normalArray ++ added /\
      Z.of_nat (List.length added) = (9 * fst r)%Z.
Proof.
  intros lerp normalize n varr narr.
  exact (modeling_sphereFromSubdivision_count lerp normalize n varr narr).
Qed.

Lemma sphereFromSubdivision_fills_vertices_and_normals_alike_witness :
  (0 <= 1)%Z /\
  fst (Modeling.sphereFromSubdivision (fun a _ _ => a) (fun a => a) 1 [] []) = (4 ^ (1 + 1))%Z.
Proof.
  assert (H : (0 <= 1)%Z) by lia.
  split; [exact H|].
  exact (proj1 (sphereFromSubdivision_fills_vertices_and_normals_alike
                  (fun a _ _ => a) (fun a => a) 1%Z [] []) H).
Defined.

(** X25: The buffers [setupSphereBuffers] of src/index.js fills are consistent:
    with six subdivisions the sphere has 16384 triangles; each of the two
    buffers holds [itemSize * numItems] numbers, so that [drawArrays] with
    [numItems] vertices reads exactly the data uploaded; and the buffer of
    normals holds the same numbers as the buffer of positions. *)
Theorem setupSphereBuffers_sizes_agree :
  forall (lerp : Modeling.vec4 -> Modeling.vec4 -> R -> Modeling.vec4)
         (normalize : Modeling.vec4 -> Modeling.vec4),
    let position := fst (Modeling.setupSphereBuffers lerp normalize) in
    let normal := snd (Modeling.setupSphereBuffers lerp normalize) in
    Modeling.numItems position = (3 * 16384)%Z /\
    Z.of_nat (List.length (Modeling.data position)) =
      (Modeling.itemSize position * Modeling.numItems position)%Z /\
    Z.of_nat (List.length (Modeling.data normal)) =
      (Modeling.itemSize normal * Modeling.numItems normal)%Z /\
    Modeling.data normal = Modeling.data position.
Proof.
  intros lerp normalize. cbv zeta. unfold Modeling.setupSphereBuffers. cbv zeta.
  destruct (modeling_sphereFromSubdivision_count lerp normalize 6%Z [] [])
    as (N & _ & added & E & F & L).
  assert (H6 : (0 <= 6)%Z) by lia. specialize (N H6).
  revert N E F L.
  generalize (Modeling.sphereFromSubdivision lerp normalize 6 [] []).
  intros [numT [soup normals]].
  cbn [fst snd Modeling.data Modeling.itemSize Modeling.numItems app]. intros N E F L.
  subst soup normals.
  change (4 ^ (6 + 1))%Z with 16384%Z in N. subst numT.
  split; [reflexivity|]. split; [rewrite L; reflexivity|]. split; [rewrite L|]; reflexivity.
Qed.

(** ** src/simpleModeling.js: the plane made by iteration *)

Lemma modeling_for_from_appends {A} (Q : A -> Prop)
    (body : BinNums.Z -> list A -> list A) (k : nat) :
  forall trips i s,
    (forall j s', (i <= j < i + Z.of_nat trips)%Z ->
       exists added, body j s' = s' ++ added /\ List.length added = k /\ Forall Q added) ->
    exists added,
      Modeling.for_from trips i body s = s ++ added /\
      List.length added = (trips * k)%nat /\ Forall Q added.
Proof.
  induction trips as [|trips IH]; intros i s H.
  - exists []. cbn [Modeling.for_from]. rewrite app_nil_r.
    split; [reflexivity|]. split; [reflexivity | constructor].
  - cbn [Modeling.for_from].
    destruct (H i s) as (ad1 & E1 & L1 & Q1); [lia|].
    destruct (IH (i + 1)%Z (body i s)) as (ad2 & E2 & L2 & Q2).
    { intros j s' Hj. apply H. lia. }
    exists (ad1 ++ ad2). rewrite E2, E1, <- app_assoc.
    split; [reflexivity|]. split.
    + rewrite length_app, L1, L2. lia.
    + apply Forall_app. split; assumption.
Qed.

Lemma modeling_for_loop_appends {A} (Q : A -> Prop)
    (body : BinNums.Z -> list A -> list A) (k : nat) (stop : BinNums.Z) s :
  (forall j s', (0 <= j < stop)%Z ->
     exists added, body j s' = s' ++ added /\ List.length added = k /\ Forall Q added) ->
  exists added,
    Modeling.for_loop 0 stop body s = s ++ added /\
    List.length added = (Z.to_nat stop * k)%nat /\ Forall Q added.
Proof.
  intros H. unfold Modeling.for_loop. rewrite Z.sub_0_r.
  apply modeling_for_from_appends. intros j s' Hj. apply H. lia.
Qed.

(** X26: [planeFromIteration] makes a grid of [(n + 1) ^ 2] vertices and
    [2 n ^ 2] triangles.  For [n >= 0] it appends three numbers for each
    vertex to the array of vertices and six indices for each cell to the
    array of faces, and keeps what the arrays held; every index it appends
    is the index of one of the [(n + 1) ^ 2] vertices. *)
Theorem planeFromIteration_indexes_its_own_vertices :
  forall (n : BinNums.Z) (minX maxX minY maxY : R)
         (vertexArray : list R) (faceArray : list BinNums.Z),
    (0 <= n)%Z ->
    let r := Modeling.planeFromIteration n minX maxX minY maxY vertexArray faceArray in
    exists vertices faces,
      fst r = vertexArray ++ vertices /\
      snd r = faceArray ++ faces /\
      Z.of_nat (List.length vertices) = (3 * ((n + 1) * (n + 1)))%Z /\
      Z.of_nat (List.length faces) = (6 * (n * n))%Z /\
      Forall (fun vid => (0 <= vid < (n + 1) * (n + 1))%Z) faces.
Proof.
  intros n minX maxX minY maxY varr farr Hn. cbv zeta.
  unfold Modeling.planeFromIteration. cbv zeta. cbn [fst snd].
  destruct (modeling_for_loop_appends (fun _ : R => True)
              (fun i vertexArray =>
                 Modeling.for_loop 0 (n + 1)
                   (fun j vertexArray0 =>
                      ((vertexArray0 ++ [minX + (maxX - minX) / IZR n * IZR j]) ++
                       [maxY - (maxY - minY) / IZR n * IZR i]) ++ [0]) vertexArray)
              (Z.to_nat (n + 1) * 3) (n + 1)%Z varr) as (vs & Ev & Lv & _).
  { intros i s' Hi.
    apply modeling_for_loop_appends. intros j s'' Hj.
    exists [minX + (maxX - minX) / IZR n * IZR j; maxY - (maxY - minY) / IZR n * IZR i; 0].
    rewrite <- !app_assoc. split; [reflexivity|]. split; [reflexivity|].
    repeat constructor. }
  destruct (modeling_for_loop_appends (fun vid => (0 <= vid < (n + 1) * (n + 1))%Z)
              (fun i faceArray =>
                 Modeling.for_loop 0 n
                   (fun j faceArray0 =>
                      (((((faceArray0 ++ [(i * (n + 1) + j)%Z]) ++
                          [(i * (n + 1) + j + (n + 1))%Z]) ++
                         [(i * (n + 1) + j + 1)%Z]) ++
                        [(i * (n + 1) + j + 1)%Z]) ++
                       [(i * (n + 1) + j + (n + 1))%Z]) ++
                      [(i * (n + 1) + j + 1 + (n + 1))%Z]) faceArray)
              (Z.to_nat n * 6) n farr) as (fs & Ef & Lf & Qf).
  { intros i s' Hi.
    apply modeling_for_loop_appends. intros j s'' Hj.
    exists [(i * (n + 1) + j)%Z; (i * (n + 1) + j + (n + 1))%Z; (i * (n + 1) + j + 1)%Z;
            (i * (n + 1) + j + 1)%Z; (i * (n + 1) + j + (n + 1))%Z;
            (i * (n + 1) + j + 1 + (n + 1))%Z].
    rewrite <- !app_assoc. split; [reflexivity|]. split; [reflexivity|].
    assert (B1 : (0 <= i * (n + 1))%Z) by nia.
    assert (B2 : (i * (n + 1) <= (n - 1) * (n + 1))%Z) by nia.
    assert (B3 : ((n + 1) * (n + 1) = (n - 1) * (n + 1) + 2 * n + 2)%Z) by ring.
    repeat (constructor; [lia|]). constructor. }
  exists vs, fs. split; [exact Ev|]. split; [exact Ef|]. split; [|split; [|exact Qf]].
  - rewrite Lv. nia.
  - rewrite Lf. nia.
Qed.

Lemma planeFromIteration_indexes_its_own_vertices_witness :
  (0 <= 2)%Z /\
  exists vertices faces,
    fst (Modeling.planeFromIteration 2 0 1 0 1 [] []) = [] ++ vertices /\
    snd (Modeling.planeFromIteration 2 0 1 0 1 [] []) = [] ++ faces /\
    Z.of_nat (List.length vertices) = (3 * ((2 + 1) * (2 + 1)))%Z /\
    Z.of_nat (List.length faces) = (6 * (2 * 2))%Z /\
    Forall (fun vid => (0 <= vid < (2 + 1) * (2 + 1))%Z) faces.
Proof.
  assert (H : (0 <= 2)%Z) by lia.
  split; [exact H|].
  exact (planeFromIteration_indexes_its_own_vertices 2%Z 0 1 0 1 [] [] H).
Defined.

(** ** src/Sphere.js: a tick of no duration, and the box along a run *)

Lemma sphere_reflected_inside r p v :
  (forall a : axis, -10 + r < coord a p < 10 - r) ->
  SphereSummary.reflected_position r p v = p /\ SphereSummary.reflected_velocity r p v = v.
Proof.
  intros H. unfold SphereSummary.reflected_position, SphereSummary.reflected_velocity.
  pose proof (H X) as HX. pose proof (H Y) as HY. pose proof (H Z) as HZ.
  cbn [coord] in HX, HY, HZ.
  rewrite (SphereFacts.reflect_inside _ _ _ (c0 v) HX).
  rewrite (SphereFacts.reflect_inside _ _ _ (c1 v) HY).
  rewrite (SphereFacts.reflect_inside _ _ _ (c2 v) HZ).
  cbn [fst snd]. split; symmetry; apply vec_eta.
Qed.

Lemma sphere_integrated_no_time h s :
  SphereSummary.integrated_velocity (h, s) 0 = SphereSpec.velocity (h, s) /\
  SphereSummary.integrated_position (h, s) 0 = SphereSpec.position (h, s).
Proof.
  unfold SphereSummary.integrated_position, SphereSummary.integrated_velocity.
  rewrite new_velocity_no_time. split; [reflexivity|].
  apply vec_eq; cbn [c0 c1 c2 vec3.vadd vec3.vscale]; ring.
Qed.

(** X27: A tick of no duration leaves a sphere of src/Sphere.js as it is when
    the sphere is strictly inside the inset box: position and velocity
    keep their contents (in two new arrays), and the cached speed is the
    length of the velocity. *)
Theorem tick_of_no_time_keeps_a_sphere_inside_the_box :
  forall (h : heap) (s : Sphere.Sphere),
    SphereSpec.wf (h, s) ->
    (forall a : axis,
       -10 + Sphere._radius s < coord a (SphereSpec.position (h, s)) < 10 - Sphere._radius s) ->
    let w' := exec (Sphere.tick 0) (h, s) in
    SphereSpec.position w' = SphereSpec.position (h, s) /\
    SphereSpec.velocity w' = SphereSpec.velocity (h, s) /\
    SphereSpec.speed w' = vec3.vlength (SphereSpec.velocity (h, s)).
Proof.
  intros h s Hwf Hin. cbv zeta.
  destruct (sphere_tick_summary h s 0 Hwf) as [P V].
  destruct (sphere_integrated_no_time h s) as [Ev Ep].
  rewrite sphere_tick_speed, P, V, Ev, Ep.
  destruct (sphere_reflected_inside (Sphere._radius s) (SphereSpec.position (h, s))
              (SphereSpec.velocity (h, s)) Hin) as [RP RV].
  rewrite RP, RV. split; [reflexivity|]. split; reflexivity.
Qed.

Lemma tick_of_no_time_keeps_a_sphere_inside_the_box_witness :
  SphereSpec.wf (SphereSpec.world 1 1 (mkvec 0 5 0) (mkvec 1 0 0)) /\
  (forall a : axis,
     -10 + Sphere._radius (snd (SphereSpec.world 1 1 (mkvec 0 5 0) (mkvec 1 0 0))) <
     coord a (SphereSpec.position
                (fst (SphereSpec.world 1 1 (mkvec 0 5 0) (mkvec 1 0 0)),
                 snd (SphereSpec.world 1 1 (mkvec 0 5 0) (mkvec 1 0 0)))) <
     10 - Sphere._radius (snd (SphereSpec.world 1 1 (mkvec 0 5 0) (mkvec 1 0 0)))) /\
  SphereSpec.velocity
    (exec (Sphere.tick 0)
          (fst (SphereSpec.world 1 1 (mkvec 0 5 0) (mkvec 1 0 0)),
           snd (SphereSpec.world 1 1 (mkvec 0 5 0) (mkvec 1 0 0)))) =
  SphereSpec.velocity
    (fst (SphereSpec.world 1 1 (mkvec 0 5 0) (mkvec 1 0 0)),
     snd (SphereSpec.world 1 1 (mkvec 0 5 0) (mkvec 1 0 0))).
Proof.
  pose proof (sphere_world_wf 1 1 (mkvec 0 5 0) (mkvec 1 0 0)) as W.
  assert (I : forall a : axis,
     -10 + Sphere._radius (snd (SphereSpec.world 1 1 (mkvec 0 5 0) (mkvec 1 0 0))) <
     coord a (SphereSpec.position
                (fst (SphereSpec.world 1 1 (mkvec 0 5 0) (mkvec 1 0 0)),
                 snd (SphereSpec.world 1 1 (mkvec 0 5 0) (mkvec 1 0 0)))) <
     10 - Sphere._radius (snd (SphereSpec.world 1 1 (mkvec 0 5 0) (mkvec 1 0 0)))).
  { intros a.
    destruct a;
      cbv [SphereSpec.world SphereSpec.position deref fst snd cell Sphere._position
           Sphere._radius coord c0 c1 c2]; lra. }
  split; [exact W|]. split; [exact I|].
  exact (proj1 (proj2 (tick_of_no_time_keeps_a_sphere_inside_the_box
                         (fst (SphereSpec.world 1 1 (mkvec 0 5 0) (mkvec 1 0 0)))
                         (snd (SphereSpec.world 1 1 (mkvec 0 5 0) (mkvec 1 0 0))) W I))).
Defined.

(** ** src/unnamed/part_000: the spheres of the engine stay in the box *)

Lemma sphere_tick_position_in_box h s dt a :
  Sphere._radius s <= 10 ->
  -10 + Sphere._radius s <= coord a (SphereSpec.position (exec (Sphere.tick dt) (h, s)))
    <= 10 - Sphere._radius s.
Proof.
  intros Hr. destruct (sphere_tick_axis h s dt a) as [Hp _]. rewrite Hp.
  apply SphereFacts.reflect_within. lra.
Qed.

(** X28: After a tick of the engine every sphere of the list that fits the box
    is inside it.  When the spheres of the list are separate, [tick] leaves
    every component of the position of a listed sphere of radius at most 10
    within [-10 + radius, 10 - radius], wherever the sphere was before and
    whatever the time step is, and it keeps the radius. *)
Theorem engine_tick_keeps_every_sphere_in_the_box :
  forall (h : heap) (e : PhysicsEngine.State) (dt : R) (o : PhysicsEngine.oref) (a : axis),
    EngineSpec.separate h e (PhysicsEngine._sphereList e) ->
    In o (PhysicsEngine._sphereList e) ->
    SphereSpec.radius (EngineSpec.sphere_at (h, e) o) <= 10 ->
    let w' := exec (PhysicsEngine.tick dt) (h, e) in
    let r := SphereSpec.radius (EngineSpec.sphere_at w' o) in
    r = SphereSpec.radius (EngineSpec.sphere_at (h, e) o) /\
    -10 + r <= coord a (SphereSpec.position (EngineSpec.sphere_at w' o)) <= 10 - r.
Proof.
  intros h e dt o a Hsep Ho Hr. cbv zeta. rewrite engine_tick_unfold.
  pose proof (engine_forEach_tick dt (PhysicsEngine._sphereList e) h e Hsep) as H.
  cbv zeta in H. revert H.
  generalize (exec (PhysicsEngine.forEach (PhysicsEngine._sphereList e)
                      (fun sphere => PhysicsEngine.call sphere (Sphere.tick dt))) (h, e)).
  intros [h2 e2]. unfold EngineSpec.sphere_at in *. cbn [fst snd] in *.
  intros (_ & _ & _ & _ & _ & B6 & _).
  destruct (B6 o Ho) as (_ & _ & _ & C4 & _ & C6 & _).
  unfold SphereSpec.radius in *. cbn [snd] in *.
  unfold SphereSpec.position, deref. cbn [fst snd].
  rewrite C4, C6. split; [reflexivity|].
  apply sphere_tick_position_in_box. exact Hr.
Qed.

Lemma engine_tick_keeps_every_sphere_in_the_box_witness :
  EngineSpec.separate
    (fst (EngineSpec.two_spheres (mkvec 20 0 0) (mkvec 1 0 0) (mkvec 3 0 0) (mkvec 0 0 1)))
    (snd (EngineSpec.two_spheres (mkvec 20 0 0) (mkvec 1 0 0) (mkvec 3 0 0) (mkvec 0 0 1)))
    (PhysicsEngine._sphereList
       (snd (EngineSpec.two_spheres (mkvec 20 0 0) (mkvec 1 0 0) (mkvec 3 0 0) (mkvec 0 0 1)))) /\
  In 0%nat (PhysicsEngine._sphereList
       (snd (EngineSpec.two_spheres (mkvec 20 0 0) (mkvec 1 0 0) (mkvec 3 0 0) (mkvec 0 0 1)))) /\
  SphereSpec.radius
    (EngineSpec.sphere_at
       (fst (EngineSpec.two_spheres (mkvec 20 0 0) (mkvec 1 0 0) (mkvec 3 0 0) (mkvec 0 0 1)),
        snd (EngineSpec.two_spheres (mkvec 20 0 0) (mkvec 1 0 0) (mkvec 3 0 0) (mkvec 0 0 1)))
       0%nat) <= 10 /\
  SphereSpec.radius
    (EngineSpec.sphere_at
       (exec (PhysicsEngine.tick 0.1)
          (fst (EngineSpec.two_spheres (mkvec 20 0 0) (mkvec 1 0 0) (mkvec 3 0 0) (mkvec 0 0 1)),
           snd (EngineSpec.two_spheres (mkvec 20 0 0) (mkvec 1 0 0) (mkvec 3 0 0) (mkvec 0 0 1))))
       0%nat) =
  SphereSpec.radius
    (EngineSpec.sphere_at
       (fst (EngineSpec.two_spheres (mkvec 20 0 0) (mkvec 1 0 0) (mkvec 3 0 0) (mkvec 0 0 1)),
        snd (EngineSpec.two_spheres (mkvec 20 0 0) (mkvec 1 0 0) (mkvec 3 0 0) (mkvec 0 0 1)))
       0%nat).
Proof.
  pose proof (engine_two_spheres_separate (mkvec 20 0 0) (mkvec 1 0 0) (mkvec 3 0 0) (mkvec 0 0 1))
    as S.
  assert (I : In 0%nat (PhysicsEngine._sphereList
       (snd (EngineSpec.two_spheres (mkvec 20 0 0) (mkvec 1 0 0) (mkvec 3 0 0) (mkvec 0 0 1)))))
    by (left; reflexivity).
  assert (R10 : SphereSpec.radius
    (EngineSpec.sphere_at
       (fst (EngineSpec.two_spheres (mkvec 20 0 0) (mkvec 1 0 0) (mkvec 3 0 0) (mkvec 0 0 1)),
        snd (EngineSpec.two_spheres (mkvec 20 0 0) (mkvec 1 0 0) (mkvec 3 0 0) (mkvec 0 0 1)))
       0%nat) <= 10).
  { cbv [EngineSpec.sphere_at EngineSpec.two_spheres SphereSpec.radius fst snd
         PhysicsEngine.spheres Sphere._radius]. lra. }
  split; [exact S|]. split; [exact I|]. split; [exact R10|].
  exact (proj1 (engine_tick_keeps_every_sphere_in_the_box _ _ 0.1 0%nat X S I R10)).
Defined.

(** ** src/unnamed/part_003: direction and size of the force of drag *)

Lemma squares_positive (v : vec) :
  v <> vec3.vzero -> 0 < c0 v * c0 v + c1 v * c1 v + c2 v * c2 v.
Proof.
  intros H.
  destruct (Req_dec (c0 v) 0) as [E0|N0];
    [destruct (Req_dec (c1 v) 0) as [E1|N1];
       [destruct (Req_dec (c2 v) 0) as [E2|N2]|]|].
  - exfalso. apply H. apply vec_eq; assumption.
  - pose proof (Rle_0_sqr (c0 v)). pose proof (Rle_0_sqr (c1 v)).
    assert (0 < c2 v * c2 v) by (apply Rsqr_pos_lt in N2; exact N2).
    unfold Rsqr in *. lra.
  - pose proof (Rle_0_sqr (c0 v)). pose proof (Rle_0_sqr (c2 v)).
    assert (0 < c1 v * c1 v) by (apply Rsqr_pos_lt in N1; exact N1).
    unfold Rsqr in *. lra.
  - pose proof (Rle_0_sqr (c1 v)). pose proof (Rle_0_sqr (c2 v)).
    assert (0 < c0 v * c0 v) by (apply Rsqr_pos_lt in N0; exact N0).
    unfold Rsqr in *. lra.
Qed.

Lemma vnormalize_dot (v : vec) : 0 <= dot (vec3.vnormalize v) v.
Proof.
  unfold vec3.vnormalize, dot.
  destruct (Rlt_dec 0 (c0 v * c0 v + c1 v * c1 v + c2 v * c2 v)) as [L|L];
    cbn [vec3.vscale c0 c1 c2].
  - assert (S : 0 < sqrt (c0 v * c0 v + c1 v * c1 v + c2 v * c2 v)) by (apply sqrt_lt_R0; exact L).
    assert (I : 0 < 1 / sqrt (c0 v * c0 v + c1 v * c1 v + c2 v * c2 v)).
    { apply Rdiv_lt_0_compat; lra. }
    replace (c0 v * (1 / sqrt (c0 v * c0 v + c1 v * c1 v + c2 v * c2 v)) * c0 v +
             c1 v * (1 / sqrt (c0 v * c0 v + c1 v * c1 v + c2 v * c2 v)) * c1 v +
             c2 v * (1 / sqrt (c0 v * c0 v + c1 v * c1 v + c2 v * c2 v)) * c2 v)
      with ((1 / sqrt (c0 v * c0 v + c1 v * c1 v + c2 v * c2 v)) *
            (c0 v * c0 v + c1 v * c1 v + c2 v * c2 v)) by ring.
    apply Rmult_le_pos; lra.
  - right. ring.
Qed.

Lemma vnormalize_length (v : vec) :
  v <> vec3.vzero -> vec3.vlength (vec3.vnormalize v) = 1.
Proof.
  intros H. pose proof (squares_positive v H) as L.
  unfold vec3.vnormalize.
  destruct (Rlt_dec 0 (c0 v * c0 v + c1 v * c1 v + c2 v * c2 v)) as [L'|L']; [|contradiction].
  rewrite vlength_vscale. unfold vec3.vlength.
  assert (S : 0 < sqrt (c0 v * c0 v + c1 v * c1 v + c2 v * c2 v)) by (apply sqrt_lt_R0; exact L).
  rewrite Rabs_right.
  - field. lra.
  - apply Rle_ge. left. apply Rdiv_lt_0_compat; lra.
Qed.

Lemma vnormalize_zero : vec3.vnormalize vec3.vzero = vec3.vzero.
Proof.
  unfold vec3.vnormalize, vec3.vzero. cbn [c0 c1 c2].
  destruct (Rlt_dec 0 (0 * 0 + 0 * 0 + 0 * 0)) as [L|L]; [lra|].
  apply vec_eq; cbn [vec3.vscale c0 c1 c2]; ring.
Qed.

(** X29: The force of drag of the draft opposes the motion.  For a sphere whose
    caches are in step, the array [dragForce] returns has a scalar product
    with the velocity that is never positive; when the velocity is not the
    zero vector its length is [0.90438598515 speed^2 radius^2], with the
    cached speed; when the velocity is the zero vector the force is the
    zero vector. *)
Theorem draft_drag_opposes_the_velocity :
  forall (h : heap) (s : Draft.Sphere),
    DraftSpec.cached s ->
    let d := deref (exec Draft.dragForce (h, s)) (result Draft.dragForce (h, s)) in
    let v := cell h (Draft._velocity s) in
    dot d v <= 0 /\
    (v <> vec3.vzero ->
     vec3.vlength d =
       0.90438598515 * (Draft._speed s * Draft._speed s) * (Draft._radius s * Draft._radius s)) /\
    (v = vec3.vzero -> d = vec3.vzero).
Proof.
  intros h s Hc. cbv zeta. rewrite (draft_dragForce_value h s Hc).
  unfold DraftSpec.drag, Draft.HALFCDRHO.
  pose proof (Rle_0_sqr (Draft._speed s)) as Hs. pose proof (Rle_0_sqr (Draft._radius s)) as Hr.
  unfold Rsqr in Hs, Hr.
  assert (K : 0 <= 0.90438598515 * (Draft._speed s * Draft._speed s) *
                   (Draft._radius s * Draft._radius s)).
  { apply Rmult_le_pos; [apply Rmult_le_pos|]; lra. }
  revert K.
  generalize (0.90438598515 * (Draft._speed s * Draft._speed s) *
              (Draft._radius s * Draft._radius s)).
  intros f K.
  split; [|split].
  - pose proof (vnormalize_dot (cell h (Draft._velocity s))) as D. revert D.
    unfold dot. cbn [vec3.vscale c0 c1 c2].
    generalize (vec3.vnormalize (cell h (Draft._velocity s))). intros u D. nra.
  - intros Hv. rewrite vlength_vscale, (vnormalize_length _ Hv), Rabs_Ropp, Rabs_right; lra.
  - intros Hv. rewrite Hv, vnormalize_zero.
    apply vec_eq; cbn [vec3.vscale vec3.vzero c0 c1 c2]; ring.
Qed.

Lemma draft_drag_opposes_the_velocity_witness :
  DraftSpec.cached (snd (DraftSpec.world 1 1 vec3.vzero (mkvec 1 0 0))) /\
  dot (deref (exec Draft.dragForce
                (fst (DraftSpec.world 1 1 vec3.vzero (mkvec 1 0 0)),
                 snd (DraftSpec.world 1 1 vec3.vzero (mkvec 1 0 0))))
             (result Draft.dragForce
                (fst (DraftSpec.world 1 1 vec3.vzero (mkvec 1 0 0)),
                 snd (DraftSpec.world 1 1 vec3.vzero (mkvec 1 0 0)))))
      (cell (fst (DraftSpec.world 1 1 vec3.vzero (mkvec 1 0 0)))
            (Draft._velocity (snd (DraftSpec.world 1 1 vec3.vzero (mkvec 1 0 0))))) <= 0.
Proof.
  pose proof (draft_world_cached 1 1 vec3.vzero (mkvec 1 0 0)) as C.
  split; [exact C|].
  exact (proj1 (draft_drag_opposes_the_velocity
                  (fst (DraftSpec.world 1 1 vec3.vzero (mkvec 1 0 0)))
                  (snd (DraftSpec.world 1 1 vec3.vzero (mkvec 1 0 0))) C)).
Defined.

(** ** src/index.js: what a frame leaves alone *)

Lemma engine_forEach_keeps_list dt l :
  forall h e,
    PhysicsEngine._sphereList
      (snd (exec (PhysicsEngine.forEach l
                    (fun sphere => PhysicsEngine.call sphere (Sphere.tick dt))) (h, e))) =
    PhysicsEngine._sphereList e.
Proof.
  induction l as [|a l IH]; intros h e.
  - reflexivity.
  - rewrite engine_forEach_cons, engine_call_exec, IH. reflexivity.
Qed.

Lemma engine_tick_keeps_list dt h e :
  PhysicsEngine._sphereList (snd (exec (PhysicsEngine.tick dt) (h, e))) =
  PhysicsEngine._sphereList e.
Proof. rewrite engine_tick_unfold. apply engine_forEach_keeps_list. Qed.

(** X30: A frame of the animation only advances the spheres.  Whatever the
    clock shows, [animate] keeps the list of the engine (no sphere is added
    or removed, whether or not the spheres share arrays), the stack of
    matrices, the current matrix, the store of matrices and the record of
    pressed keys; and it keeps the spheres of the engine separate. *)
Theorem animate_only_advances_the_spheres :
  forall (clock : R) (w : heap * Index.Globals),
    let w' := exec (Index.animate clock) w in
    PhysicsEngine._sphereList (Index.physics (snd w')) =
      PhysicsEngine._sphereList (Index.physics (snd w)) /\
    Index.mvMatrixStack (snd w') = Index.mvMatrixStack (snd w) /\
    Index.mvMatrix (snd w') = Index.mvMatrix (snd w) /\
    Index.matrices (snd w') = Index.matrices (snd w) /\
    Index.currentlyPressedKeys (snd w') = Index.currentlyPressedKeys (snd w) /\
    (EngineSpec.sound (IndexSpec.engine w) -> EngineSpec.sound (IndexSpec.engine w')).
Proof.
  intros clock [h g]. cbv zeta.
  destruct (Req_dec_T (Index.then_ g) 0) as [E|E].
  - rewrite (index_animate_first clock h g E). unfold IndexSpec.engine.
    cbn [fst snd Index.physics Index.mvMatrixStack Index.mvMatrix Index.matrices
         Index.currentlyPressedKeys].
    split; [reflexivity|]. split; [reflexivity|]. split; [reflexivity|].
    split; [reflexivity|]. split; [reflexivity|]. intros H. exact H.
  - rewrite (index_animate_later clock h g E). unfold IndexSpec.engine.
    cbn [fst snd Index.physics Index.mvMatrixStack Index.mvMatrix Index.matrices
         Index.currentlyPressedKeys].
    split; [apply engine_tick_keeps_list|]. split; [reflexivity|]. split; [reflexivity|].
    split; [reflexivity|]. split; [reflexivity|].
    intros H.
    pose proof (engine_tick_sound (clock * 0.001 - Index.then_ g) h (Index.physics g) H) as S.
    revert S.
    generalize (exec (PhysicsEngine.tick (clock * 0.001 - Index.then_ g)) (h, Index.physics g)).
    intros [h' e'] S. exact S.
Qed.

Lemma animate_only_advances_the_spheres_witness :
  EngineSpec.sound
    (IndexSpec.engine
       (exec Index.new_PhysicsEngine
             (IndexSpec.initial 0 []
                (snd (EngineSpec.two_spheres vec3.vzero vec3.vzero vec3.vzero vec3.vzero))))) /\
  EngineSpec.sound
    (IndexSpec.engine
       (exec (Index.animate 1000)
          (exec Index.new_PhysicsEngine
             (IndexSpec.initial 0 []
                (snd (EngineSpec.two_spheres vec3.vzero vec3.vzero vec3.vzero vec3.vzero)))))).
Proof.
  assert (S0 : EngineSpec.sound
    (IndexSpec.engine
       (exec Index.new_PhysicsEngine
             (IndexSpec.initial 0 []
                (snd (EngineSpec.two_spheres vec3.vzero vec3.vzero vec3.vzero vec3.vzero))))))
    by (apply engine_empty_sound; reflexivity).
  split; [exact S0|].
  exact (proj2 (proj2 (proj2 (proj2 (proj2
           (animate_only_advances_the_spheres 1000 _))))) S0).
Defined.
